(** * pipelab: pipelines, artifact lookup, composition and step caches

    A shallow embedding of [pipelab/pipeline.py] and [pipelab/cache.py].

    Python objects with identity (pipelines) live in a heap keyed by their
    reference; dictionaries whose iteration order is observable (keyword
    arguments, a step's [__dict__], the adjacency of a composition) are
    association lists in insertion order; dictionaries used only through
    lookups (artifact stores, the cache, the file system) are [gmap]s. *)

From Stdlib Require Import ZArith String Ascii.
From stdpp Require Import base option list gmap sets strings relations.

(** ** Values, exceptions, results *)

(** References to [Pipeline] objects. *)
Abbreviation pid := nat.

#[local] Set Warnings "-register-all,-clear-no-such-hyp".

(** The Python values that flow through artifacts, arguments and results. *)
Inductive value : Type :=
  | VNone
  | VInt (n : Z)
  | VStr (s : string)
  | VPipeline (p : pid)
  | VTuple (vs : list value)
  | VDict (items : list (string * value)).

(** Python dictionaries with their insertion order. *)
Abbreviation dict := (list (string * value)).

Inductive exn : Type :=
  | ArtifactNotFoundError (artifact_name : string)
  | ValueError (msg : string)
  | TypeError (msg : string)
  | AttributeError (msg : string)
  | OverflowError (msg : string)
  | StepError (payload : value).   (* whatever else a step body raises *)

(** Outcome of a call: a value, a raised exception, or recursion that the
    fuel given to the model did not cover. *)
Inductive result (A : Type) : Type :=
  | Ok (a : A)
  | Raise (e : exn)
  | Diverge.
Arguments Ok {A} a.
Arguments Raise {A} e.
Arguments Diverge {A}.

(** Sequencing: the first exception (or divergence) ends the computation. *)
Global Instance result_bind : MBind result := λ A B k r,
  match r with
  | Ok a => k a
  | Raise e => Raise e
  | Diverge => Diverge
  end.

(** ** Dictionaries in insertion order *)

Section dict.
Context {K V : Type} `{EqDecision K}.

(** [d.get(k)] *)
Fixpoint dict_get (d : list (K * V)) (k : K) : option V :=
  match d with
  | [] => None
  | (k', v) :: d' => if decide (k' = k) then Some v else dict_get d' k
  end.

(** [d[k] = v]: an existing key keeps its position, a new one goes last. *)
Fixpoint dict_set (d : list (K * V)) (k : K) (v : V) : list (K * V) :=
  match d with
  | [] => [(k, v)]
  | (k', v') :: d' =>
      if decide (k' = k) then (k, v) :: d' else (k', v') :: dict_set d' k v
  end.

(** [d.update(e)] *)
Definition dict_update (d e : list (K * V)) : list (K * V) :=
  foldl (λ acc kv, dict_set acc kv.1 kv.2) d e.

(** [d.pop(k)] without the returned value. *)
Fixpoint dict_remove (d : list (K * V)) (k : K) : list (K * V) :=
  match d with
  | [] => []
  | (k', v) :: d' =>
      if decide (k' = k) then d' else (k', v) :: dict_remove d' k
  end.
End dict.

(** ** Steps *)

(** [inspect.Parameter.kind] *)
Inductive param_kind : Type :=
  | POSITIONAL_ONLY
  | POSITIONAL_OR_KEYWORD
  | VAR_POSITIONAL
  | KEYWORD_ONLY
  | VAR_KEYWORD.

Global Instance param_kind_eq_dec : EqDecision param_kind.
Proof. solve_decision. Defined.

(** An [inspect.Parameter] object; [param_default = None] stands for
    [param.default is inspect.Parameter.empty]. *)
Record Param : Type := mkParam {
  kind : param_kind;
  param_default : option value;
}.

(** ** Binding arguments to parameters *)

(** [inspect.Signature._bind], second loop: the parameters left once the
    positional arguments are used up take their values from [kwargs]. *)
Fixpoint bind_keywords (params : list (string * Param))
    (kwargs arguments : list (string * value)) (kwargs_param : option string)
  : result (list (string * value)) :=
  match params with
  | [] =>
      match kwargs, kwargs_param with
      | [], _ => Ok arguments
      | _ :: _, Some n => Ok (dict_set arguments n (VDict kwargs))
      | _ :: _, None => Raise (TypeError "got an unexpected keyword argument")
      end
  | (n, param) :: rest =>
      match kind param with
      | VAR_KEYWORD => bind_keywords rest kwargs arguments (Some n)
      | VAR_POSITIONAL => bind_keywords rest kwargs arguments kwargs_param
      | k =>
          match dict_get kwargs n with
          | None =>
              match param_default param with
              | None => Raise (TypeError "missing a required argument")
              | Some _ => bind_keywords rest kwargs arguments kwargs_param
              end
          | Some arg_val =>
              if bool_decide (k = POSITIONAL_ONLY)
              then Raise (TypeError "positional only parameter passed as a keyword")
              else bind_keywords rest (dict_remove kwargs n)
                     (dict_set arguments n arg_val) kwargs_param
          end
      end
  end.

(** [inspect.Signature._bind], first loop: positional arguments meet the
    parameters in order. *)
Fixpoint bind_positional (params : list (string * Param)) (args : list value)
    (kwargs arguments : list (string * value))
  : result (list (string * value)) :=
  match args with
  | [] =>
      match params with
      | [] => bind_keywords [] kwargs arguments None
      | (n, param) :: rest =>
          if bool_decide (kind param = VAR_POSITIONAL)
          then bind_keywords rest kwargs arguments None
          else if bool_decide (is_Some (dict_get kwargs n))
          then
            if bool_decide (kind param = POSITIONAL_ONLY)
            then Raise (TypeError "positional only parameter passed as a keyword")
            else bind_keywords params kwargs arguments None
          else if bool_decide (kind param = VAR_KEYWORD)
                  || bool_decide (is_Some (param_default param))
          then bind_keywords params kwargs arguments None
          else Raise (TypeError "missing a required argument")
      end
  | arg_val :: args' =>
      match params with
      | [] => Raise (TypeError "too many positional arguments")
      | (n, param) :: rest =>
          if bool_decide (kind param = VAR_KEYWORD ∨ kind param = KEYWORD_ONLY)
          then Raise (TypeError "too many positional arguments")
          else if bool_decide (kind param = VAR_POSITIONAL)
          then bind_keywords rest kwargs
                 (dict_set arguments n (VTuple (arg_val :: args'))) None
          else if bool_decide (is_Some (dict_get kwargs n))
                  && negb (bool_decide (kind param = POSITIONAL_ONLY))
          then Raise (TypeError "multiple values for argument")
          else bind_positional rest args' kwargs (dict_set arguments n arg_val)
      end
  end.

(** [inspect.Signature.bind]: the [arguments] of the bound call. *)
Definition bind (params : list (string * Param)) (args : list value)
    (kwargs : list (string * value)) : result (list (string * value)) :=
  bind_positional params args kwargs [].

(** [inspect.BoundArguments.apply_defaults]: [arguments] is rebuilt from the
    parameters of the signature, in their order. *)
Fixpoint apply_defaults (params : list (string * Param))
    (arguments : list (string * value)) : list (string * value) :=
  match params with
  | [] => []
  | (n, param) :: rest =>
      match dict_get arguments n with
      | Some v => (n, v) :: apply_defaults rest arguments
      | None =>
          match param_default param with
          | Some val => (n, val) :: apply_defaults rest arguments
          | None =>
              if bool_decide (kind param = VAR_POSITIONAL)
              then (n, VTuple []) :: apply_defaults rest arguments
              else if bool_decide (kind param = VAR_KEYWORD)
              then (n, VDict []) :: apply_defaults rest arguments
              else apply_defaults rest arguments
          end
      end
  end.

(** A [PipelineStep] object.  [_name] and [fields] are its [__dict__];
    [signature] is what [inspect.signature(self.execute).parameters]
    yields; [execute] is the body the subclass supplies, applied to the
    positional and the keyword arguments of the call and seen through what
    it returns or raises (a body that also acts on the pipeline it is
    handed is outside this model); [inverse] is [Some f] when the subclass
    overrides [execute_inverse], [f] being the call of the override, the
    binding of its arguments included. *)
Record PipelineStep : Type := mkStep {
  _name : string;
  fields : list (string * value);
  signature : list (string * Param);
  execute : list value → list (string * value) → result value;
  inverse : option (pid → list (string * value) → result (list (string * value)));
}.

(** [PipelineStep.name] *)
Definition step_name (s : PipelineStep) : string := _name s.

(** [self.step.__dict__]: [_name] is set first by [PipelineStep.__init__],
    the subclass's own fields follow. *)
Definition __dict__ (s : PipelineStep) : list (string * value) :=
  ("_name", VStr (_name s)) :: fields s.

(** [PipelineStep.get_execute_params] *)
Definition get_execute_params (s : PipelineStep) : list (string * Param) :=
  signature s.

(** The parameters of [PipelineStep.execute_inverse(self, pipeline, **kwargs)]. *)
Definition execute_inverse_params : list (string * Param) :=
  [("self", mkParam POSITIONAL_OR_KEYWORD None);
   ("pipeline", mkParam POSITIONAL_OR_KEYWORD None);
   ("kwargs", mkParam VAR_KEYWORD None)].

(** The call [step.execute_inverse(pipeline, **kwargs)].  The arguments are
    bound to the parameters of the method first, the name of the step
    standing for the receiver [self]: a keyword named like one of the two
    positional parameters is a second value for it.  The method of the base
    class then returns [{}]. *)
Definition execute_inverse (s : PipelineStep) (pipeline : pid)
    (kwargs : list (string * value)) : result (list (string * value)) :=
  match inverse s with
  | Some f => f pipeline kwargs
  | None =>
      _ ← bind execute_inverse_params [VStr (_name s); VPipeline pipeline] kwargs;
      Ok []
  end.

(** ** ArtifactInMemory *)

Module ArtifactInMemory.

Definition save_artifact (artifacts : gmap string value)
    (artifact_name : string) (artifact : value) : gmap string value :=
  <[artifact_name := artifact]> artifacts.

Definition get_artifact (artifacts : gmap string value)
    (artifact_name : string) (default : value) (raise_not_found : bool)
  : result value :=
  if raise_not_found && bool_decide (artifacts !! artifact_name = None)
  then Raise (ArtifactNotFoundError artifact_name)
  else Ok (match artifacts !! artifact_name with   (* artifacts.get(..) *)
           | Some v => v
           | None => default
           end).

Definition del_artifact (artifacts : gmap string value)
    (artifact_name : string) : gmap string value :=
  delete artifact_name artifacts.

Definition clear (artifacts : gmap string value) : gmap string value := ∅.

End ArtifactInMemory.

(** ** Pipeline *)

(** A [Pipeline] object whose artifact manager is [ArtifactInMemory]
    ([optimize_arftifacts_memory=False]); [artifacts] is the manager's
    dictionary.  [_parents] holds references, as the Python list does. *)
Record Pipeline : Type := mkPipeline {
  name : string;
  steps : list PipelineStep;
  artifacts : gmap string value;
  finished : bool;
  _parents : list pid;
  _processed_stack : list PipelineStep;
}.

(** [Pipeline()] *)
Definition new_pipeline : Pipeline :=
  {| name := "default_pipeline"; steps := []; artifacts := ∅;
     finished := false; _parents := []; _processed_stack := [] |}.

Global Instance Pipeline_inhabited : Inhabited Pipeline := populate new_pipeline.

(** The object store: references to pipeline states.  A reference that was
    never written denotes a pipeline as [Pipeline()] leaves it. *)
Abbreviation heap := (gmap nat Pipeline).

Definition set_artifacts (a : gmap string value) (pl : Pipeline) : Pipeline :=
  {| name := name pl; steps := steps pl; artifacts := a;
     finished := finished pl; _parents := _parents pl;
     _processed_stack := _processed_stack pl |}.

Definition set_finished (b : bool) (pl : Pipeline) : Pipeline :=
  {| name := name pl; steps := steps pl; artifacts := artifacts pl;
     finished := b; _parents := _parents pl;
     _processed_stack := _processed_stack pl |}.

Definition set_parents (ps : list pid) (pl : Pipeline) : Pipeline :=
  {| name := name pl; steps := steps pl; artifacts := artifacts pl;
     finished := finished pl; _parents := ps;
     _processed_stack := _processed_stack pl |}.

Definition set_processed_stack (st : list PipelineStep) (pl : Pipeline)
  : Pipeline :=
  {| name := name pl; steps := steps pl; artifacts := artifacts pl;
     finished := finished pl; _parents := _parents pl;
     _processed_stack := st |}.

(** [h] after [f] was applied to the object behind [p]. *)
Definition update (h : heap) (p : pid) (f : Pipeline → Pipeline) : heap :=
  <[p := f (h !!! p)]> h.

(** [Pipeline.parents] *)
Definition parents (h : heap) (p : pid) : list pid := _parents (h !!! p).

(** [Pipeline.add_parent] *)
Definition add_parent (h : heap) (self parent : pid) : heap :=
  if bool_decide (parent ∈ parents h self) then h
  else update h self (set_parents (parents h self ++ [parent])).

(** [Pipeline.save_artifact] *)
Definition save_artifact (h : heap) (self : pid) (artifact_name : string)
    (artifact : value) : heap :=
  update h self
    (λ pl, set_artifacts
             (ArtifactInMemory.save_artifact (artifacts pl) artifact_name artifact)
             pl).

(** The loop [for parent in self.parents] in the handler of
    [Pipeline.get_artifact], with the two statements that follow it; [get]
    is the recursive call [parent.get_artifact]. *)
Fixpoint for_parent (get : pid → result value) (artifact_name : string)
    (default : value) (raise_not_found : bool) (ps : list pid) : result value :=
  match ps with
  | [] =>
      if raise_not_found
      then Raise (ArtifactNotFoundError artifact_name)
      else Ok default
  | parent :: ps' =>
      match get parent with
      | Raise (ArtifactNotFoundError _) =>
          for_parent get artifact_name default raise_not_found ps'
      | r => r
      end
  end.

(** [Pipeline.get_artifact].  The recursion through the parents is bounded
    by [fuel]; [Diverge] is returned when it runs out. *)
Fixpoint get_artifact (fuel : nat) (h : heap) (self : pid)
    (artifact_name : string) (default : value) (raise_not_found : bool)
  : result value :=
  match fuel with
  | O => Diverge
  | S fuel' =>
      match ArtifactInMemory.get_artifact (artifacts (h !!! self))
              artifact_name default raise_not_found with
      | Ok v => Ok v
      | Raise (ArtifactNotFoundError _) =>
          (* look for the artifact in parent pipelines *)
          for_parent
            (λ parent, get_artifact fuel' h parent artifact_name default
                         raise_not_found)
            artifact_name default raise_not_found (parents h self)
      | Raise e => Raise e
      | Diverge => Diverge
      end
  end.

(** [Pipeline.del_artifact] *)
Definition del_artifact (h : heap) (self : pid) (artifact_name : string)
  : heap :=
  update h self
    (λ pl, set_artifacts
             (ArtifactInMemory.del_artifact (artifacts pl) artifact_name) pl).

(** [Pipeline.__fill_params_from_step], as a loop over the step's declared
    parameters that extends [params]. *)
Fixpoint fill_params (fuel : nat) (h : heap) (self : pid)
    (step_params : list (string * Param)) (params : list (string * value))
  : result (list (string * value)) :=
  match step_params with
  | [] => Ok params
  | (pname, param) :: rest =>
      if bool_decide (kind param = VAR_POSITIONAL ∨ kind param = VAR_KEYWORD)
      then fill_params fuel h self rest params     (* skip *args and **kwargs *)
      else if bool_decide (pname = "pipeline")
      then fill_params fuel h self rest (dict_set params pname (VPipeline self))
      else
        match param_default param with
        | None =>
            v ← get_artifact fuel h self pname VNone true;
            fill_params fuel h self rest (dict_set params pname v)
        | Some d =>
            v ← get_artifact fuel h self pname d false;
            fill_params fuel h self rest (dict_set params pname v)
        end
  end.

Definition __fill_params_from_step (fuel : nat) (h : heap) (self : pid)
    (step : PipelineStep) : result (list (string * value)) :=
  fill_params fuel h self (get_execute_params step) [].

(** [Pipeline.__save_step_artifacts] *)
Definition __save_step_artifacts (h : heap) (self : pid)
    (artifacts_to_save : list (string * value)) : heap :=
  foldl (λ h' kv, save_artifact h' self kv.1 kv.2) h artifacts_to_save.

(** What [run] makes of a step's return value: [None] becomes [{}], a
    dictionary gives its items, anything else has no [items]. *)
Definition items_to_save (ret : value) : result (list (string * value)) :=
  match ret with
  | VNone => Ok []
  | VDict d => Ok d
  | _ => Raise (AttributeError "items")
  end.

(** The loop of [Pipeline.run] over the steps still to do.  Besides the heap
    and the outcome it returns the steps whose body it called, in order. *)
Fixpoint run_steps (fuel : nat) (h : heap) (self : pid)
    (todo : list PipelineStep) : heap * list PipelineStep * result () :=
  match todo with
  | [] => (h, [], Ok ())
  | step :: rest =>
      match __fill_params_from_step fuel h self step with
      | Ok params =>
          match execute step [] params ≫= items_to_save with
          | Ok artifacts_to_save =>
              let h1 := __save_step_artifacts h self artifacts_to_save in
              let h2 :=
                update h1 self
                  (λ pl, set_processed_stack (_processed_stack pl ++ [step]) pl) in
              let '(h3, called, r) := run_steps fuel h2 self rest in
              (h3, step :: called, r)
          | Raise e => (h, [step], Raise e)
          | Diverge => (h, [step], Diverge)
          end
      | Raise e => (h, [], Raise e)
      | Diverge => (h, [], Diverge)
      end
  end.

(** [Pipeline.run] *)
Definition run (fuel : nat) (h : heap) (self : pid)
  : heap * list PipelineStep * result () :=
  if finished (h !!! self) then (h, [], Ok ())
  else
    let '(h', called, r) := run_steps fuel h self (steps (h !!! self)) in
    match r with
    | Ok _ => (update h' self (set_finished true), called, Ok ())
    | _ => (h', called, r)
    end.

(** The loop of [Pipeline.reverse_steps]:
    [last_response = step.execute_inverse(self, **last_response)].  The
    history holds [PipelineStep] objects; a cache wrapper put among the
    steps of a pipeline, which has no [execute_inverse], is outside this
    model. *)
Fixpoint fold_inverse (self : pid) (stack : list PipelineStep)
    (last_response : list (string * value)) : result (list (string * value)) :=
  match stack with
  | [] => Ok last_response
  | step :: rest =>
      r ← execute_inverse step self last_response;
      fold_inverse self rest r
  end.

(** The parameters of [Pipeline.reverse_steps(self, **kwargs)]. *)
Definition reverse_steps_params : list (string * Param) :=
  [("self", mkParam POSITIONAL_OR_KEYWORD None);
   ("kwargs", mkParam VAR_KEYWORD None)].

(** A call of [pipeline.reverse_steps] with keyword arguments: they are
    bound to the parameters, then the history is walked. *)
Definition reverse_steps (h : heap) (self : pid)
    (kwargs : list (string * value)) : result (list (string * value)) :=
  _ ← bind reverse_steps_params [VPipeline self] kwargs;
  fold_inverse self (reverse (_processed_stack (h !!! self))) kwargs.

(** [Pipeline.clear] of a pipeline whose manager is [ArtifactInMemory];
    [OnDisk.clear] is the one of a pipeline with the default manager. *)
Definition clear (h : heap) (self : pid) : heap :=
  update h self
    (λ pl, set_finished false
             (set_artifacts (ArtifactInMemory.clear (artifacts pl)) pl)).

(** ** PipelineComposition *)

Module PipelineComposition.

(** [self.pipelines]: each parent with its children, in the order of the
    dictionary. *)
Abbreviation adjacency := (list (nat * list nat)).

(** [self.pipelines.get(pipeline, [])] *)
Definition children_of (pipelines : adjacency) (pipeline : pid) : list pid :=
  default [] (dict_get pipelines pipeline).

(** [PipelineComposition._set_parents] *)
Definition _set_parents (h : heap) (pipelines : adjacency) : heap :=
  (* Limpia los padres actuales *)
  let h1 := foldl (λ h' kv, update h' kv.1 (set_parents [])) h pipelines in
  (* Asigna padres a cada hijo *)
  foldl (λ h' kv, foldl (λ h'' child, add_parent h'' child kv.1) h' kv.2)
    h1 pipelines.

(** [PipelineComposition.__init__]: the heap once the object is built. *)
Definition __init__ (h : heap) (pipelines : adjacency) : heap :=
  _set_parents h pipelines.

(** The loop [for child in ...: visit(child)]. *)
Fixpoint for_child (visit : pid → gset nat * list pid → result (gset nat * list pid))
    (cs : list pid) (st : gset nat * list pid) : result (gset nat * list pid) :=
  match cs with
  | [] => Ok st
  | child :: cs' => st1 ← visit child st; for_child visit cs' st1
  end.

(** The local function [visit] of [_topological_sort], acting on the pair
    of [visited] and [order]. *)
Fixpoint visit (fuel : nat) (pipelines : adjacency) (pipeline : pid)
    (st : gset nat * list pid) : result (gset nat * list pid) :=
  match fuel with
  | O => Diverge
  | S fuel' =>
      if bool_decide (pipeline ∈ st.1) then Ok st
      else
        st' ← for_child (visit fuel' pipelines)
                (children_of pipelines pipeline)
                ({[pipeline]} ∪ st.1, st.2);
        Ok (st'.1, st'.2 ++ [pipeline])
  end.

(** [set(self.pipelines.keys()) | {c for children in ... for c in children}] *)
Definition all_pipelines (pipelines : adjacency) : gset nat :=
  list_to_set (pipelines.*1) ∪ list_to_set (mjoin (pipelines.*2)).

(** [PipelineComposition._topological_sort].  [iteration] is the order in
    which the set [all_pipelines] is iterated; the loop over the roots has
    the shape of the loop over the children. *)
Definition _topological_sort (fuel : nat) (h : heap) (pipelines : adjacency)
    (iteration : list pid) : result (list pid) :=
  let roots := filter (λ p, parents h p = []) iteration in
  st ← for_child (visit fuel pipelines) roots (∅, []);
  Ok (reverse st.2).

(** The loop of [PipelineComposition.run]; the second component lists the
    pipelines whose [run] was called. *)
Fixpoint run_all (fuel : nat) (h : heap) (order : list pid)
  : heap * list pid * result () :=
  match order with
  | [] => (h, [], Ok ())
  | pipeline :: rest =>
      let '(h1, _, r) := run fuel h pipeline in
      match r with
      | Ok _ =>
          let '(h2, ran, r') := run_all fuel h1 rest in
          (h2, pipeline :: ran, r')
      | _ => (h1, [pipeline], r)
      end
  end.

(** [PipelineComposition.run] *)
Definition run (fuel : nat) (h : heap) (pipelines : adjacency)
    (iteration : list pid) : heap * list pid * result () :=
  match _topological_sort fuel h pipelines iteration with
  | Ok order => run_all fuel h order
  | Raise e => (h, [], Raise e)
  | Diverge => (h, [], Diverge)
  end.

End PipelineComposition.

(** ** Library functions used by the cache wrappers *)

(** [posixpath.join(a, b)] *)
Fixpoint endswith_sep (s : string) : bool :=
  match s with
  | EmptyString => false
  | String c EmptyString => bool_decide (c = "/"%char)
  | String _ s' => endswith_sep s'
  end.

Definition startswith_sep (s : string) : bool :=
  match s with
  | String c _ => bool_decide (c = "/"%char)
  | EmptyString => false
  end.

Definition path_join (a b : string) : string :=
  if startswith_sep b then b
  else if bool_decide (a = "") || endswith_sep a then a +:+ b
  else a +:+ "/" +:+ b.

(** ** Cache wrappers *)

(** What the wrappers act on: the class attribute
    [InMemoryCacheWrapper.cache], the files below the cache directories, and
    a record of the calls made to the bodies of wrapped steps. *)
Record world : Type := mkWorld {
  cache : gmap string value;
  files : gmap string (list Byte.byte);
  calls : list (PipelineStep * list value * list (string * value));
}.

Definition call_body (w : world) (s : PipelineStep) (args : list value)
    (kwargs : list (string * value)) : world :=
  {| cache := cache w; files := files w;
     calls := calls w ++ [(s, args, kwargs)] |}.

Definition set_cache (w : world) (c : gmap string value) : world :=
  {| cache := c; files := files w; calls := calls w |}.

Definition set_files (w : world) (f : gmap string (list Byte.byte)) : world :=
  {| cache := cache w; files := f; calls := calls w |}.

Definition serialization_error : exn :=
  ValueError "Failed to serialize for cache".

Module InMemoryCacheWrapper.

Record t : Type := mk {
  step : PipelineStep;
  _execute_params : list (string * Param);
}.

Definition __init__ (step : PipelineStep)
    (execute_params : list (string * Param)) : t :=
  {| step := step; _execute_params := execute_params |}.

Definition get_execute_params (self : t) : list (string * Param) :=
  _execute_params self.

Definition name (self : t) : string := step_name (step self).

Section capabilities.
(** [cloudpickle.dumps]; [None] when it raises. *)
Variable dumps : value → option (list Byte.byte).
(** [hashlib.sha256(b).hexdigest()] *)
Variable sha256_hexdigest : list Byte.byte → string.

(** The first half of [execute]: from the call to [hash_key]. *)
Definition hash_key (self : t) (args : list value)
    (kwargs : list (string * value)) : result string :=
  bound ← bind (signature (step self)) args kwargs;
  let init_params := __dict__ (step self) in
  (* Merge init parameters with execute parameters *)
  let arguments := dict_update bound init_params in
  let arguments := apply_defaults (signature (step self)) arguments in
  match dumps (VDict arguments) with
  | None => Raise serialization_error
  | Some serialized => Ok (sha256_hexdigest serialized)
  end.

(** [InMemoryCacheWrapper.execute] *)
Definition execute (self : t) (args : list value)
    (kwargs : list (string * value)) (w : world) : world * result value :=
  match hash_key self args kwargs with
  | Ok hash_key =>
      match cache w !! hash_key with
      | Some cached => (w, Ok cached)
      | None =>
          let w1 := call_body w (step self) args kwargs in
          match execute (step self) args kwargs with
          | Ok result => (set_cache w1 (<[hash_key := result]> (cache w1)), Ok result)
          | r => (w1, r)
          end
      end
  | Raise e => (w, Raise e)
  | Diverge => (w, Diverge)
  end.
End capabilities.

End InMemoryCacheWrapper.

Module InDiskCacheWrapper.

Record t : Type := mk {
  step : PipelineStep;
  cache_dir : string;
  _execute_params : list (string * Param);
}.

(** The directory is named once, from the name the step has then. *)
Definition __init__ (step : PipelineStep) (cache_dir : string)
    (execute_params : list (string * Param)) : t :=
  {| step := step;
     cache_dir := path_join cache_dir (step_name step);
     _execute_params := execute_params |}.

Definition get_execute_params (self : t) : list (string * Param) :=
  _execute_params self.

Definition name (self : t) : string := step_name (step self).

Section capabilities.
(** [cloudpickle.dumps]; [None] when it raises. *)
Variable dumps : value → option (list Byte.byte).
(** [hashlib.sha256(b).hexdigest()] *)
Variable sha256_hexdigest : list Byte.byte → string.
(** [pickle.dump(result, f)]: the bytes that reach the file, and whether
    the call returns or raises; [pickle.load] from a file. *)
Variable pickle_dump : value → list Byte.byte * result ().
Variable pickle_load : list Byte.byte → result value.

(** The first half of [execute]: from the call to [hash_key]. *)
Definition hash_key (self : t) (args : list value)
    (kwargs : list (string * value)) : result string :=
  bound ← bind (signature (step self)) args kwargs;
  (* also checks que values from __init__ for the hash *)
  let init_params := __dict__ (step self) in
  let arguments := apply_defaults (signature (step self)) bound in
  match dumps (VDict arguments), dumps (VDict init_params) with
  | Some serialized, Some more => Ok (sha256_hexdigest (serialized ++ more))
  | _, _ => Raise serialization_error
  end.

Definition cache_file (self : t) (hash_key : string) : string :=
  path_join (cache_dir self) (hash_key +:+ ".pkl").

(** [InDiskCacheWrapper.execute] *)
Definition execute (self : t) (args : list value)
    (kwargs : list (string * value)) (w : world) : world * result value :=
  match hash_key self args kwargs with
  | Ok hash_key =>
      let cache_file := cache_file self hash_key in
      match files w !! cache_file with
      | Some content => (w, pickle_load content)
      | None =>
          let w1 := call_body w (step self) args kwargs in
          match execute (step self) args kwargs with
          | Ok result =>
              (* [open(cache_file, "wb")] creates the file, [pickle.dump]
                 fills it *)
              let '(content, dumped) := pickle_dump result in
              let w2 := set_files w1 (<[cache_file := content]> (files w1)) in
              match dumped with
              | Ok _ => (w2, Ok result)
              | Raise e => (w2, Raise e)
              | Diverge => (w2, Diverge)
              end
          | r => (w1, r)
          end
      end
  | Raise e => (w, Raise e)
  | Diverge => (w, Diverge)
  end.
End capabilities.

End InDiskCacheWrapper.

(** [CachedPipelineMixin] *)
Definition in_disk_cache (self : PipelineStep) (cache_dir : string)
  : InDiskCacheWrapper.t :=
  InDiskCacheWrapper.__init__ self cache_dir (get_execute_params self).

Definition in_memory_cache (self : PipelineStep) : InMemoryCacheWrapper.t :=
  InMemoryCacheWrapper.__init__ self (get_execute_params self).

(** * Steps, heaps and capabilities to run the model on *)

(** A step as [DummyStep] of the tests: [execute(self, pipeline, x=None)]
    returns [{"result": x if x is not None else 42}]; it does not override
    [execute_inverse]. *)
Definition DummyStep : PipelineStep :=
  {| _name := "DummyStep";
     fields := [];
     signature := [("pipeline", mkParam POSITIONAL_OR_KEYWORD None);
                   ("x", mkParam POSITIONAL_OR_KEYWORD (Some VNone))];
     execute := λ _ kwargs,
       match dict_get kwargs "x" with
       | Some VNone | None => Ok (VDict [("result", VInt 42)])
       | Some x => Ok (VDict [("result", x)])
       end;
     inverse := None |}.

(** A step whose body raises, and one that adds one to [x] as in the
    scenario of the specification: [S(x) -> {y: x+1}]. *)
Definition FailingStep : PipelineStep :=
  {| _name := "FailingStep"; fields := [];
     signature := [("pipeline", mkParam POSITIONAL_OR_KEYWORD None)];
     execute := λ _ _, Raise (StepError (VStr "boom"));
     inverse := None |}.

Definition AddOne : PipelineStep :=
  {| _name := "AddOne"; fields := [];
     signature := [("x", mkParam POSITIONAL_OR_KEYWORD None)];
     execute := λ _ kwargs,
       match dict_get kwargs "x" with
       | Some (VInt x) => Ok (VDict [("y", VInt (x + 1))])
       | _ => Raise (TypeError "unsupported operand")
       end;
     inverse := None |}.

(** [DummyStepForCache] of the tests: [execute(self, x=0)] returns
    [self.value + x]. *)
Definition DummyStepForCache (name : string) (value : Z) : PipelineStep :=
  {| _name := name;
     fields := [("value", VInt value)];
     signature := [("x", mkParam POSITIONAL_OR_KEYWORD (Some (VInt 0)))];
     execute := λ args kwargs,
       match args, dict_get kwargs "x" with
       | [VInt x], None | [], Some (VInt x) => Ok (VInt (value + x))
       | [], None => Ok (VInt (value + 0))
       | _, _ => Raise (TypeError "execute")
       end;
     inverse := None |}.

(** A step of another class and name: [execute(self, x=0)] returns
    [2 * x]. *)
Definition Doubler : PipelineStep :=
  {| _name := "Doubler"; fields := [];
     signature := [("x", mkParam POSITIONAL_OR_KEYWORD (Some (VInt 0)))];
     execute := λ args _,
       match args with
       | [VInt x] => Ok (VInt (2 * x))
       | _ => Raise (TypeError "execute")
       end;
     inverse := None |}.

(** The scenario of the specification: [x = 5] saved beforehand, one step
    [S(x) -> {y: x+1}]. *)
Definition scenario_heap : heap :=
  {[ 0 := {| name := "P"; steps := [AddOne]; artifacts := {[ "x" := VInt 5 ]};
            finished := false; _parents := []; _processed_stack := [] |} ]}.

Definition dummy_heap : heap :=
  {[ 0 := {| name := "TestPipeline"; steps := [DummyStep]; artifacts := ∅;
            finished := false; _parents := []; _processed_stack := [] |} ]}.

(** A parent holding [x = 5] and its child, whose store is empty and whose
    only step declares [x] with a default. *)
Definition family : heap :=
  {[ 0 := {| name := "parent"; steps := []; artifacts := {[ "x" := VInt 5 ]};
            finished := false; _parents := []; _processed_stack := [] |};
     1 := {| name := "child"; steps := [DummyStep]; artifacts := ∅;
            finished := false; _parents := [0]; _processed_stack := [] |} ]}.

(** The diamond: two children sharing one grandchild. *)
Definition diamond : list (nat * list nat) :=
  [(0, [1; 2]); (1, [3]); (2, [3]); (3, [])].

(** A structural encoding of values, standing in for the serializer. *)
Fixpoint encode (v : value) : list Byte.byte :=
  match v with
  | VNone => [Byte.x4e]
  | VInt n =>
      Byte.x49 :: (if bool_decide (n < 0)%Z then Byte.x2d else Byte.x2b)
        :: replicate (Z.abs_nat n) Byte.x31 ++ [Byte.x2e]
  | VStr s => Byte.x53 :: String.list_byte_of_string s ++ [Byte.x00]
  | VPipeline p => Byte.x50 :: replicate p Byte.x31 ++ [Byte.x2e]
  | VTuple vs =>
      Byte.x28 :: (fix go (vs : list value) : list Byte.byte :=
                     match vs with
                     | [] => []
                     | v :: vs' => encode v ++ go vs'
                     end) vs ++ [Byte.x29]
  | VDict items =>
      Byte.x7b :: (fix go (items : list (string * value)) : list Byte.byte :=
                     match items with
                     | [] => []
                     | (k, v) :: items' =>
                         String.list_byte_of_string k ++ Byte.x00 :: encode v
                           ++ go items'
                     end) items ++ [Byte.x7d]
  end.

Definition toy_dumps (v : value) : option (list Byte.byte) := Some (encode v).

(** A [pickle.dump] that writes the encoding and returns, and one that
    refuses everything but integers, raising before it has written. *)
Definition toy_pickle_dump (v : value) : list Byte.byte * result () :=
  (encode v, Ok ()).

Definition int_pickle_dump (v : value) : list Byte.byte * result () :=
  match v with
  | VInt _ => (encode v, Ok ())
  | _ => ([], Raise (TypeError "cannot pickle"))
  end.

(** Reads back the encoding of [None] and of integers. *)
Definition toy_load (content : list Byte.byte) : result value :=
  match content with
  | [Byte.x4e] => Ok VNone
  | Byte.x49 :: Byte.x2b :: digits => Ok (VInt (Z.of_nat (length digits - 1)))
  | Byte.x49 :: Byte.x2d :: digits => Ok (VInt (- Z.of_nat (length digits - 1)))
  | _ => Raise (ValueError "unpickling")
  end.

(** Two digests: one that tells all inputs apart, one that tells none. *)
Definition toy_digest (b : list Byte.byte) : string :=
  String.string_of_list_byte b.


Definition empty_world : world := {| cache := ∅; files := ∅; calls := [] |}.

(** * Notions used in the statements *)

(** A step name that names a directory: not empty, no separator at either
    end. *)
Definition plain_name (n : string) : Prop :=
  n ≠ "" ∧ startswith_sep n = false ∧ endswith_sep n = false.


(** Resolution of a name as the specification words it: the pipeline's own
    store first; on a miss each registered parent in registration order,
    each through its own ancestors; the first hit wins.  [None] stands for
    a name that is absent throughout. *)
Inductive resolves (h : heap) (artifact_name : string)
  : pid → option value → Prop :=
  | resolves_own p v :
      artifacts (h !!! p) !! artifact_name = Some v →
      resolves h artifact_name p (Some v)
  | resolves_parents p r :
      artifacts (h !!! p) !! artifact_name = None →
      first_hit h artifact_name (parents h p) r →
      resolves h artifact_name p r
with first_hit (h : heap) (artifact_name : string)
  : list pid → option value → Prop :=
  | first_hit_nil : first_hit h artifact_name [] None
  | first_hit_here q qs v :
      resolves h artifact_name q (Some v) →
      first_hit h artifact_name (q :: qs) (Some v)
  | first_hit_later q qs r :
      resolves h artifact_name q None →
      first_hit h artifact_name qs r →
      first_hit h artifact_name (q :: qs) r.

Scheme resolves_mut := Induction for resolves Sort Prop
  with first_hit_mut := Induction for first_hit Sort Prop.

(** What the required lookup returns for a resolution. *)
Definition required_outcome (artifact_name : string) (r : option value)
  : result value :=
  match r with
  | Some v => Ok v
  | None => Raise (ArtifactNotFoundError artifact_name)
  end.

(** [add_parent] on a list of parents. *)
Definition add_one (ps : list pid) (parent : pid) : list pid :=
  if bool_decide (parent ∈ ps) then ps else ps ++ [parent].

(** The keys of the adjacency that list [x] among their children, in the
    order of the dictionary. *)
Definition listing_keys (pipelines : list (nat * list nat)) (x : pid) : list pid :=
  (filter (λ kv, x ∈ kv.2) pipelines).*1.

(** [c] is a child of [p] in the adjacency. *)
Definition edge (pipelines : list (nat * list nat)) (p c : pid) : Prop :=
  c ∈ PipelineComposition.children_of pipelines p.

(** No pipeline is among its own transitive children. *)
Definition acyclic (pipelines : list (nat * list nat)) : Prop :=
  ∀ p, ¬ tc (edge pipelines) p p.

(** [a] comes before [b] in [l]. *)
Definition before (l : list pid) (a b : pid) : Prop :=
  ∃ i j, l !! i = Some a ∧ l !! j = Some b ∧ i < j.

Section search_state.
Context (g : list (nat * list nat)).

(** What holds of [visited] and [order] between calls of [visit]: [order]
    has no duplicates and lies within [visited], which lies within the
    referenced pipelines; the children of a pipeline in [order] stand
    before it. *)
Record dfs_inv (st : gset nat * list nat) : Prop := {
  inv_nodup : NoDup st.2;
  inv_visited : ∀ x, x ∈ st.2 → x ∈ st.1;
  inv_universe : st.1 ⊆ PipelineComposition.all_pipelines g;
  inv_post : ∀ i x c, st.2 !! i = Some x → edge g x c →
               ∃ j, j < i ∧ st.2 !! j = Some c;
}.

(** Entered but not yet left. *)
Definition gray (st : gset nat * list nat) (x : pid) : Prop :=
  x ∈ st.1 ∧ x ∉ st.2.

(** [st'] comes after [st] in a search: more is visited, [order] has grown
    at its end, and what was entered and not left is the same. *)
Record extends (st st' : gset nat * list nat) : Prop := {
  ext_visited : st.1 ⊆ st'.1;
  ext_order : st.2 `prefix_of` st'.2;
  ext_gray : ∀ x, gray st' x ↔ gray st x;
}.

(** [visit] on [p] with [fuel] returns, keeps the invariant and leaves [p]
    in [order], from every state whose unvisited pipelines are fewer than
    [fuel] and whose entered pipelines all have [p] below them. *)
Definition visit_ok (fuel : nat) (p : pid) : Prop :=
  ∀ st, size (PipelineComposition.all_pipelines g ∖ st.1) < fuel →
        dfs_inv st →
        (∀ x, gray st x → tc (edge g) x p) →
    ∃ st', PipelineComposition.visit fuel g p st = Ok st' ∧ dfs_inv st' ∧
           extends st st' ∧ p ∈ st'.2.

End search_state.

(** * More of the code *)

(** ** Pipeline: construction and steps *)

Definition set_steps (l : list PipelineStep) (pl : Pipeline) : Pipeline :=
  {| name := name pl; steps := l; artifacts := artifacts pl;
     finished := finished pl; _parents := _parents pl;
     _processed_stack := _processed_stack pl |}.

(** The range of [Py_ssize_t], on a 64-bit build of CPython. *)
Definition PY_SSIZE_T_MAX : Z := 2 ^ 63 - 1.
Definition PY_SSIZE_T_MIN : Z := - 2 ^ 63.

Definition fits_ssize_t (i : Z) : Prop :=
  (PY_SSIZE_T_MIN ≤ i ≤ PY_SSIZE_T_MAX)%Z.

(** [list.insert(i, x)]: the index is converted to [Py_ssize_t], which
    raises [OverflowError] outside its range; then a negative index counts
    from the end, and an index beyond either end is brought back to it. *)
Definition list_insert_at {A} (l : list A) (i : Z) (x : A) : result (list A) :=
  if bool_decide (fits_ssize_t i) then
    let n := Z.of_nat (length l) in
    let where_ :=
      if bool_decide (i < 0)%Z then Z.max 0 (i + n) else Z.min i n in
    Ok (take (Z.to_nat where_) l ++ x :: drop (Z.to_nat where_) l)
  else Raise (OverflowError "Python int too large to convert to C ssize_t").

(** [Pipeline.add_step]; the list [steps] is the pipeline's own, not one
    that several pipelines were constructed from. *)
Definition add_step (h : heap) (self : pid) (step : PipelineStep)
    (position : option Z) : heap * result () :=
  match position with
  | Some i =>
      match list_insert_at (steps (h !!! self)) i step with
      | Ok l => (update h self (set_steps l), Ok ())
      | Raise e => (h, Raise e)
      | Diverge => (h, Diverge)
      end
  | None => (update h self (λ pl, set_steps (steps pl ++ [step]) pl), Ok ())
  end.

(** ** PipelineStep: the helpers that act on a pipeline *)

(** The parameters [Pipeline.del_artifact] declares besides [self]. *)
Definition del_artifact_params : list (string * Param) :=
  [("artifact_name", mkParam POSITIONAL_OR_KEYWORD None)].

(** [PipelineStep.save_artifact] *)
Definition step_save_artifact (h : heap) (pipeline : pid)
    (artifact_name : string) (artifact : value) : heap :=
  save_artifact h pipeline artifact_name artifact.

(** [PipelineStep.get_artifact] *)
Definition step_get_artifact (fuel : nat) (h : heap) (pipeline : pid)
    (artifact_name : string) (default : value) (raise_not_found : bool)
  : result value :=
  get_artifact fuel h pipeline artifact_name default raise_not_found.

(** [PipelineStep.del_artifact]: the call
    [pipeline.del_artifact(artifact_name, soft=soft)] is bound to the
    parameters of [Pipeline.del_artifact] before its body runs. *)
Definition step_del_artifact (h : heap) (pipeline : pid)
    (artifact_name : string) (soft : value) : heap * result () :=
  match bind del_artifact_params [VStr artifact_name] [("soft", soft)] with
  | Ok _ => (del_artifact h pipeline artifact_name, Ok ())
  | Raise e => (h, Raise e)
  | Diverge => (h, Diverge)
  end.

(** ** Notions for parameter resolution *)

(** A declared parameter that [__fill_params_from_step] binds: neither
    [*args] nor [**kwargs]. *)
Definition bindable (param : Param) : Prop :=
  ¬ (kind param = VAR_POSITIONAL ∨ kind param = VAR_KEYWORD).

(** The lookup [__fill_params_from_step] makes for an artifact parameter. *)
Definition param_lookup (fuel : nat) (h : heap) (self : pid) (pname : string)
    (param : Param) : result value :=
  match param_default param with
  | None => get_artifact fuel h self pname VNone true
  | Some d => get_artifact fuel h self pname d false
  end.

(** [v] is what the parameter is bound to: the pipeline itself for the
    parameter named [pipeline], the outcome of the lookup otherwise. *)
Definition bound_to (fuel : nat) (h : heap) (self : pid) (pname : string)
    (param : Param) (v : value) : Prop :=
  if decide (pname = "pipeline") then v = VPipeline self
  else param_lookup fuel h self pname param = Ok v.

(** ** More steps and adjacencies to run the model on *)

(** A step whose inverse hands its arguments back:
    [def execute_inverse(self, pipeline, **kwargs): return kwargs]. *)
Definition Passing : PipelineStep :=
  {| _name := "Passing"; fields := [];
     signature := [("pipeline", mkParam POSITIONAL_OR_KEYWORD None)];
     execute := λ _ _, Ok VNone;
     inverse := Some (λ pipeline kwargs,
       _ ← bind execute_inverse_params [VStr "Passing"; VPipeline pipeline] kwargs;
       Ok kwargs) |}.

(** A step that keeps a factor in a field named like its parameter:
    [execute(self, x)] returns [self.x * x]. *)
Definition Scaler (factor : Z) : PipelineStep :=
  {| _name := "Scaler"; fields := [("x", VInt factor)];
     signature := [("x", mkParam POSITIONAL_OR_KEYWORD None)];
     execute := λ args _,
       match args with
       | [VInt x] => Ok (VInt (factor * x))
       | _ => Raise (TypeError "execute")
       end;
     inverse := None |}.

(** Two pipelines that list each other. *)
Definition two_cycle : list (nat * list nat) := [(0, [1]); (1, [0])].

(** ** Notions for the inverse walk *)

(** Decisions on closed terms, as on the kinds of declared parameters, are
    computed. *)
Ltac eval_closed_decisions :=
  repeat match goal with
  | |- context [bool_decide ?P] =>
      let b := eval vm_compute in (bool_decide P) in
      match b with
      | true => change (bool_decide P) with true
      | false => change (bool_decide P) with false
      end; cbn
  end.

(** A keyword named like one of the positional parameters of
    [execute_inverse]. *)
Definition names_parameter (kwargs : list (string * value)) : Prop :=
  is_Some (dict_get kwargs "self") ∨ is_Some (dict_get kwargs "pipeline").

(** ** Notions for the composition *)

(** Two pipeline states that differ in their parents at most. *)
Definition same_but_parents (pl pl' : Pipeline) : Prop :=
  name pl = name pl' ∧ steps pl = steps pl' ∧ artifacts pl = artifacts pl' ∧
  finished pl = finished pl' ∧ _processed_stack pl = _processed_stack pl'.

(** The roots of [_topological_sort]: the pipelines without parents, in the
    order in which the set is iterated. *)
Definition roots_of (h : heap) (iteration : list pid) : list pid :=
  filter (λ p, parents h p = []) iteration.

(** [x] is one of [roots] or a transitive child of one. *)
Definition reachable (pipelines : list (nat * list nat)) (roots : list pid)
    (x : pid) : Prop :=
  ∃ r, r ∈ roots ∧ rtc (edge pipelines) r x.

(** Running the pipelines of a list one after the other, as the
    specification words the run of a composition: each [Pipeline.run]
    starts from the heap the one before has left, and the first that does
    not return normally ends the sequence with its outcome.  The triple is
    the heap left, the pipelines whose [run] was called, and the outcome. *)
Inductive in_sequence (fuel : nat)
  : heap → list pid → heap * list pid * result () → Prop :=
  | in_sequence_done h : in_sequence fuel h [] (h, [], Ok ())
  | in_sequence_next h p rest h1 called h2 ran r :
      run fuel h p = (h1, called, Ok ()) →
      in_sequence fuel h1 rest (h2, ran, r) →
      in_sequence fuel h (p :: rest) (h2, p :: ran, r)
  | in_sequence_stop h p rest h1 called r :
      run fuel h p = (h1, called, r) →
      r ≠ Ok () →
      in_sequence fuel h (p :: rest) (h1, [p], r).

Section search_state_any.
Context (g : list (nat * list nat)) (within : pid → Prop).

(** What holds of [visited] and [order] between calls of [visit] whether or
    not the adjacency has cycles: [order] has no duplicates and lies within
    [visited], which lies within the referenced pipelines and [within]; the
    children of a pipeline in [order] have been entered. *)
Record search_inv (st : gset nat * list nat) : Prop := {
  sinv_nodup : NoDup st.2;
  sinv_visited : ∀ x, x ∈ st.2 → x ∈ st.1;
  sinv_universe : ∀ x, x ∈ st.1 →
                    x ∈ PipelineComposition.all_pipelines g ∧ within x;
  sinv_children : ∀ x c, x ∈ st.2 → edge g x c → c ∈ st.1;
}.

End search_state_any.

(** ** ArtifactInDisk *)

Module ArtifactInDisk.

(** An [ArtifactInDisk] object; [artifacts] records, in insertion order, the
    path of each name saved through it. *)
Record t : Type := mk {
  directory : string;
  artifacts : list (string * string);
}.

Section os.
(** The file system and the calls the class makes on it.  A call that
    changes the file system returns the one it leaves together with its
    outcome; nothing is assumed of them here. *)
Context {fs : Type}.
Variable os_path_exists : fs → string → bool.
Variable os_makedirs : fs → string → fs * result ().
(** [with open(path, "wb") as f: pickle.dump(artifact, f)] *)
Variable dump_to : fs → string → value → fs * result ().
(** [with open(path, "rb") as f: return pickle.load(f)] *)
Variable load_from : fs → string → result value.
Variable os_remove : fs → string → fs * result ().
Variable os_rmdir : fs → string → fs * result ().

(** [ArtifactInDisk.__init__]; the object exists when the outcome is [Ok]. *)
Definition __init__ (pipeline_name directory : string) (d : fs)
  : fs * result t :=
  let self := {| directory := path_join directory pipeline_name;
                 artifacts := [] |} in
  if os_path_exists d (ArtifactInDisk.directory self) then (d, Ok self)
  else
    let '(d1, r) := os_makedirs d (ArtifactInDisk.directory self) in
    (d1, _ ← r; Ok self).

(** [ArtifactInDisk.save_artifact] *)
Definition save_artifact (self : t) (d : fs) (artifact_name : string)
    (artifact : value) : t * fs * result () :=
  let artifact_path := path_join (directory self) artifact_name in
  match dump_to d artifact_path artifact with
  | (d1, Ok _) =>
      ({| directory := directory self;
          artifacts := dict_set (artifacts self) artifact_name artifact_path |},
       d1, Ok ())
  | (d1, r) => (self, d1, r)
  end.

(** [self.artifacts.get(artifact_name, os.path.join(self.directory, artifact_name))] *)
Definition artifact_path (self : t) (artifact_name : string) : string :=
  match dict_get (artifacts self) artifact_name with
  | Some path => path
  | None => path_join (directory self) artifact_name
  end.

(** [ArtifactInDisk.get_artifact] *)
Definition get_artifact (self : t) (d : fs) (artifact_name : string)
    (default : value) (raise_not_found : bool) : result value :=
  let artifact_path := artifact_path self artifact_name in
  if raise_not_found && negb (os_path_exists d artifact_path)
  then Raise (ArtifactNotFoundError artifact_name)
  else if negb (os_path_exists d artifact_path) then Ok default
  else load_from d artifact_path.

(** [ArtifactInDisk.del_artifact]: the record [artifacts] is left as it is. *)
Definition del_artifact (self : t) (d : fs) (artifact_name : string)
  : fs * result () :=
  let artifact_path := artifact_path self artifact_name in
  if os_path_exists d artifact_path then os_remove d artifact_path
  else (d, Ok ()).

(** The loop [for artifact_name in list(self.artifacts.keys())] of [clear]. *)
Fixpoint del_all (self : t) (d : fs) (names : list string) : fs * result () :=
  match names with
  | [] => (d, Ok ())
  | artifact_name :: rest =>
      match del_artifact self d artifact_name with
      | (d1, Ok _) => del_all self d1 rest
      | (d1, r) => (d1, r)
      end
  end.

(** [ArtifactInDisk.clear] *)
Definition clear (self : t) (d : fs) : t * fs * result () :=
  match del_all self d (artifacts self).*1 with
  | (d1, Ok _) =>
      let self' := {| directory := directory self; artifacts := [] |} in
      if os_path_exists d1 (directory self)
      then let '(d2, r) := os_rmdir d1 (directory self) in (self', d2, r)
      else (self', d1, Ok ())
  | (d1, r) => (self, d1, r)
  end.
End os.

End ArtifactInDisk.

(** ** Pipeline over ArtifactInDisk *)

Module OnDisk.

(** A [Pipeline] object whose artifact manager is [ArtifactInDisk], as
    [Pipeline.__init__] makes it unless told otherwise
    ([optimize_arftifacts_memory=True]). *)
Record t : Type := mk {
  name : string;
  steps : list PipelineStep;
  artifact_manager : ArtifactInDisk.t;
  finished : bool;
  _parents : list pid;
  _processed_stack : list PipelineStep;
}.

(** The state [Pipeline()] leaves. *)
Definition new_pipeline : t :=
  {| name := "default_pipeline"; steps := [];
     artifact_manager :=
       {| ArtifactInDisk.directory := path_join "/tmp/" "default_pipeline";
          ArtifactInDisk.artifacts := [] |};
     finished := false; _parents := []; _processed_stack := [] |}.

Global Instance inhabited : Inhabited t := populate new_pipeline.

(** The object store, as for the pipelines in memory. *)
Abbreviation heap := (gmap nat t).

Definition set_manager (m : ArtifactInDisk.t) (pl : t) : t :=
  {| name := name pl; steps := steps pl; artifact_manager := m;
     finished := finished pl; _parents := _parents pl;
     _processed_stack := _processed_stack pl |}.

Definition set_finished (b : bool) (pl : t) : t :=
  {| name := name pl; steps := steps pl;
     artifact_manager := artifact_manager pl;
     finished := b; _parents := _parents pl;
     _processed_stack := _processed_stack pl |}.

Definition set_processed_stack (st : list PipelineStep) (pl : t) : t :=
  {| name := name pl; steps := steps pl;
     artifact_manager := artifact_manager pl;
     finished := finished pl; _parents := _parents pl;
     _processed_stack := st |}.

Definition update (h : heap) (p : pid) (f : t → t) : heap :=
  <[p := f (h !!! p)]> h.

Section os.
Context {fs : Type}.
Variable os_path_exists : fs → string → bool.
Variable os_makedirs : fs → string → fs * result ().
Variable dump_to : fs → string → value → fs * result ().
Variable load_from : fs → string → result value.
Variable os_remove : fs → string → fs * result ().
Variable os_rmdir : fs → string → fs * result ().

(** [Pipeline.__init__]; [steps] is [None] when the argument is left out. *)
Definition __init__ (name : string) (steps : option (list PipelineStep))
    (d : fs) : fs * result t :=
  let '(d1, r) :=
    ArtifactInDisk.__init__ os_path_exists os_makedirs name "/tmp/" d in
  (d1, manager ← r;
       Ok {| name := name; steps := default [] steps;
             artifact_manager := manager; finished := false;
             _parents := []; _processed_stack := [] |}).

(** [Pipeline.save_artifact] *)
Definition save_artifact (h : heap) (d : fs) (self : pid)
    (artifact_name : string) (artifact : value) : heap * fs * result () :=
  let '(m, d1, r) :=
    ArtifactInDisk.save_artifact dump_to (artifact_manager (h !!! self)) d
      artifact_name artifact in
  (update h self (set_manager m), d1, r).

(** [Pipeline.get_artifact] *)
Fixpoint get_artifact (fuel : nat) (h : heap) (d : fs) (self : pid)
    (artifact_name : string) (default : value) (raise_not_found : bool)
  : result value :=
  match fuel with
  | O => Diverge
  | S fuel' =>
      match ArtifactInDisk.get_artifact os_path_exists load_from
              (artifact_manager (h !!! self)) d
              artifact_name default raise_not_found with
      | Ok v => Ok v
      | Raise (ArtifactNotFoundError _) =>
          (* look for the artifact in parent pipelines *)
          for_parent
            (λ parent, get_artifact fuel' h d parent artifact_name default
                         raise_not_found)
            artifact_name default raise_not_found (_parents (h !!! self))
      | Raise e => Raise e
      | Diverge => Diverge
      end
  end.

(** [Pipeline.__fill_params_from_step] *)
Fixpoint fill_params (fuel : nat) (h : heap) (d : fs) (self : pid)
    (step_params : list (string * Param)) (params : list (string * value))
  : result (list (string * value)) :=
  match step_params with
  | [] => Ok params
  | (pname, param) :: rest =>
      if bool_decide (kind param = VAR_POSITIONAL ∨ kind param = VAR_KEYWORD)
      then fill_params fuel h d self rest params
      else if bool_decide (pname = "pipeline")
      then fill_params fuel h d self rest (dict_set params pname (VPipeline self))
      else
        match param_default param with
        | None =>
            v ← get_artifact fuel h d self pname VNone true;
            fill_params fuel h d self rest (dict_set params pname v)
        | Some dflt =>
            v ← get_artifact fuel h d self pname dflt false;
            fill_params fuel h d self rest (dict_set params pname v)
        end
  end.

Definition __fill_params_from_step (fuel : nat) (h : heap) (d : fs)
    (self : pid) (step : PipelineStep) : result (list (string * value)) :=
  fill_params fuel h d self (get_execute_params step) [].

(** [Pipeline.__save_step_artifacts]: a save that raises ends the loop. *)
Fixpoint __save_step_artifacts (h : heap) (d : fs) (self : pid)
    (artifacts_to_save : list (string * value)) : heap * fs * result () :=
  match artifacts_to_save with
  | [] => (h, d, Ok ())
  | (artifact_name, artifact) :: rest =>
      match save_artifact h d self artifact_name artifact with
      | (h1, d1, Ok _) => __save_step_artifacts h1 d1 self rest
      | out => out
      end
  end.

(** The loop of [Pipeline.run], with the steps whose body it called. *)
Fixpoint run_steps (fuel : nat) (h : heap) (d : fs) (self : pid)
    (todo : list PipelineStep)
  : heap * fs * list PipelineStep * result () :=
  match todo with
  | [] => (h, d, [], Ok ())
  | step :: rest =>
      match __fill_params_from_step fuel h d self step with
      | Ok params =>
          match execute step [] params ≫= items_to_save with
          | Ok artifacts_to_save =>
              match __save_step_artifacts h d self artifacts_to_save with
              | (h1, d1, Ok _) =>
                  let h2 :=
                    update h1 self
                      (λ pl, set_processed_stack
                               (_processed_stack pl ++ [step]) pl) in
                  let '(h3, d3, called, r) := run_steps fuel h2 d1 self rest in
                  (h3, d3, step :: called, r)
              | (h1, d1, r) => (h1, d1, [step], r)
              end
          | Raise e => (h, d, [step], Raise e)
          | Diverge => (h, d, [step], Diverge)
          end
      | Raise e => (h, d, [], Raise e)
      | Diverge => (h, d, [], Diverge)
      end
  end.

(** [Pipeline.run] *)
Definition run (fuel : nat) (h : heap) (d : fs) (self : pid)
  : heap * fs * list PipelineStep * result () :=
  if finished (h !!! self) then (h, d, [], Ok ())
  else
    let '(h1, d1, called, r) := run_steps fuel h d self (steps (h !!! self)) in
    match r with
    | Ok _ => (update h1 self (set_finished true), d1, called, Ok ())
    | _ => (h1, d1, called, r)
    end.

(** [Pipeline.reverse_steps] *)
Definition reverse_steps (h : heap) (self : pid)
    (kwargs : list (string * value)) : result (list (string * value)) :=
  _ ← bind reverse_steps_params [VPipeline self] kwargs;
  fold_inverse self (reverse (_processed_stack (h !!! self))) kwargs.

(** [Pipeline.clear]: when the manager's [clear] raises, [finished] is not
    reached. *)
Definition clear (h : heap) (d : fs) (self : pid) : heap * fs * result () :=
  let '(m, d1, r) :=
    ArtifactInDisk.clear os_path_exists os_remove os_rmdir
      (artifact_manager (h !!! self)) d in
  let h1 := update h self (set_manager m) in
  match r with
  | Ok _ => (update h1 self (set_finished false), d1, Ok ())
  | _ => (h1, d1, r)
  end.
End os.

End OnDisk.

(** ** A file system to run [ArtifactInDisk] on *)

(** [posixpath.dirname] *)
Fixpoint drop_to_sep (l : list ascii) : list ascii :=
  match l with
  | [] => []
  | c :: l' => if bool_decide (c = "/"%char) then l else drop_to_sep l'
  end.

Fixpoint drop_seps (l : list ascii) : list ascii :=
  match l with
  | [] => []
  | c :: l' => if bool_decide (c = "/"%char) then drop_seps l' else l
  end.

Definition posix_dirname (p : string) : string :=
  let head := drop_to_sep (reverse (String.list_ascii_of_string p)) in
  String.string_of_list_ascii
    (reverse (match drop_seps head with [] => head | stripped => stripped end)).

(** Paths with what they name: [None] for a directory, the value a file
    was written from otherwise. *)
Abbreviation toy_fs := (gmap string (option value)).

(** What this file system raises. *)
Definition toy_os_error (what : string) : exn := StepError (VStr what).

Definition toy_exists (d : toy_fs) (path : string) : bool :=
  bool_decide (is_Some (d !! path)).

Definition toy_makedirs (d : toy_fs) (path : string) : toy_fs * result () :=
  if toy_exists d path then (d, Raise (toy_os_error "FileExistsError"))
  else (<[path := None]> d, Ok ()).

(** A file is written into a directory that exists. *)
Definition toy_dump_to (d : toy_fs) (path : string) (v : value)
  : toy_fs * result () :=
  match d !! posix_dirname path, d !! path with
  | Some None, Some None => (d, Raise (toy_os_error "IsADirectoryError"))
  | Some None, _ => (<[path := Some v]> d, Ok ())
  | _, _ => (d, Raise (toy_os_error "FileNotFoundError"))
  end.

Definition toy_load_from (d : toy_fs) (path : string) : result value :=
  match d !! path with
  | Some (Some v) => Ok v
  | Some None => Raise (toy_os_error "IsADirectoryError")
  | None => Raise (toy_os_error "FileNotFoundError")
  end.

Definition toy_remove (d : toy_fs) (path : string) : toy_fs * result () :=
  match d !! path with
  | Some (Some _) => (delete path d, Ok ())
  | Some None => (d, Raise (toy_os_error "IsADirectoryError"))
  | None => (d, Raise (toy_os_error "FileNotFoundError"))
  end.

(** Only an empty directory is removed. *)
Definition toy_rmdir (d : toy_fs) (path : string) : toy_fs * result () :=
  match d !! path with
  | Some None =>
      if bool_decide (map_Forall (λ p _, posix_dirname p ≠ path) d)
      then (delete path d, Ok ())
      else (d, Raise (toy_os_error "OSError: directory not empty"))
  | Some (Some _) => (d, Raise (toy_os_error "NotADirectoryError"))
  | None => (d, Raise (toy_os_error "FileNotFoundError"))
  end.

(** A file system with [/tmp] in it. *)
Definition toy_tmp : toy_fs := {[ "/tmp" := None ]}.

(** ** Notions for the artifacts on disk *)

(** Every recorded path is the one the directory gives the name. *)
Definition own_paths (self : ArtifactInDisk.t) : Prop :=
  ∀ n path, dict_get (ArtifactInDisk.artifacts self) n = Some path →
            path = path_join (ArtifactInDisk.directory self) n.

(** ** A serializer that tells its inputs apart *)

(** The arguments and the configuration of the call
    [DummyStepForCache("step1", value=5).execute(2)]. *)
Definition call_arguments : value := VDict [("x", VInt 2)].
Definition call_configuration : value :=
  VDict [("_name", VStr "step1"); ("value", VInt 5)].

(** A serializer for these two values only; it raises on every other. *)
Definition exact_dumps (v : value) : option (list Byte.byte) :=
  match v with
  | VDict [(k, VInt n)] =>
      if decide (k = "x" ∧ n = 2%Z) then Some [Byte.x01] else None
  | VDict [(k1, VStr s); (k2, VInt n)] =>
      if decide (k1 = "_name" ∧ s = "step1" ∧ k2 = "value" ∧ n = 5%Z)
      then Some [Byte.x02] else None
  | _ => None
  end.

(** ** Notions for the history of a pipeline *)

(** Two heaps that differ in the histories [_processed_stack] at most. *)
Definition same_but_stack (h h' : heap) : Prop :=
  ∀ q, name (h !!! q) = name (h' !!! q) ∧ steps (h !!! q) = steps (h' !!! q) ∧
       artifacts (h !!! q) = artifacts (h' !!! q) ∧
       finished (h !!! q) = finished (h' !!! q) ∧
       _parents (h !!! q) = _parents (h' !!! q).

(** * Properties *)

Global Instance plain_name_dec n : Decision (plain_name n).
Proof. unfold plain_name. apply _. Defined.

(** ** The heap *)

Lemma update_lookup_eq (h : heap) p f : update h p f !!! p = f (h !!! p).
Proof. unfold update. by rewrite lookup_total_insert_eq. Qed.

Lemma update_lookup_ne (h : heap) p q f : p ≠ q → update h p f !!! q = h !!! q.
Proof. intros Hne. unfold update. by rewrite lookup_total_insert_ne. Qed.

Lemma update_lookup (h : heap) p q f :
  update h p f !!! q = if decide (p = q) then f (h !!! p) else h !!! q.
Proof.
  destruct (decide (p = q)) as [<-|Hne];
    [apply update_lookup_eq | by apply update_lookup_ne].
Qed.

(** ** Steps without an inverse *)

Lemma bind_execute_inverse (a b : value) (kwargs : list (string * value)) :
  (¬ names_parameter kwargs →
   ∃ bound, bind execute_inverse_params [a; b] kwargs = Ok bound) ∧
  (names_parameter kwargs →
   bind execute_inverse_params [a; b] kwargs
     = Raise (TypeError "multiple values for argument")).
Proof.
  unfold names_parameter, bind, execute_inverse_params. cbn. eval_closed_decisions.
  destruct (dict_get kwargs "self") as [v|] eqn:Hself; cbn.
  { split; [intros []; by left|done]. }
  destruct (dict_get kwargs "pipeline") as [v|] eqn:Hp; cbn.
  { split; [intros []; by right|done]. }
  split; [intros _|by intros [[? ?]|[? ?]]].
  case_bool_decide; cbn; eval_closed_decisions; destruct kwargs; by eexists.
Qed.

(** C4, as the specification words it, fails: the inherited
    [execute_inverse] does not return the keyword arguments it was given. *)
Lemma execute_inverse_default_not_identity :
  ¬ (∀ (s : PipelineStep) (pipeline : pid) (kwargs : list (string * value)),
       inverse s = None → execute_inverse s pipeline kwargs = Ok kwargs).
Proof.
  intros H. specialize (H DummyStep 0 [("y", VInt 1)] eq_refl).
  vm_compute in H. discriminate H.
Qed.

(** C4 (amended): for every step that does not override the inverse
    transform and for every keyword-argument mapping without a key [self]
    or [pipeline], [execute_inverse] returns the empty mapping; a mapping
    with such a key gives the parameter a second value, and the call raises
    [TypeError]. *)
Theorem execute_inverse_default_empty (s : PipelineStep) (pipeline : pid)
    (kwargs : list (string * value)) :
  inverse s = None →
  (¬ names_parameter kwargs → execute_inverse s pipeline kwargs = Ok []) ∧
  (names_parameter kwargs →
   execute_inverse s pipeline kwargs
     = Raise (TypeError "multiple values for argument")).
Proof.
  intros H. unfold execute_inverse. rewrite H.
  destruct (bind_execute_inverse (VStr (_name s)) (VPipeline pipeline) kwargs)
    as [Hok Hclash].
  split.
  - intros [bound ->]%Hok. done.
  - intros ->%Hclash. done.
Qed.

Lemma execute_inverse_default_empty_witness :
  execute_inverse DummyStep 0 [("y", VInt 1)] = Ok [] ∧
  execute_inverse DummyStep 0 [("y", VInt 1); ("pipeline", VInt 2)]
    = Raise (TypeError "multiple values for argument").
Proof.
  split.
  - apply (execute_inverse_default_empty DummyStep 0 [("y", VInt 1)]);
      [reflexivity|].
    intros [[v Hv]|[v Hv]]; discriminate Hv.
  - apply (execute_inverse_default_empty DummyStep 0
             [("y", VInt 1); ("pipeline", VInt 2)]); [reflexivity|].
    right. by exists (VInt 2).
Defined.

(** ** Pipeline.run *)

Section run_facts.
Context (fuel : nat) (self : pid).

Lemma save_step_artifacts_frame (d : list (string * value)) (h : heap) :
  let h' := __save_step_artifacts h self d in
  finished (h' !!! self) = finished (h !!! self) ∧
  steps (h' !!! self) = steps (h !!! self) ∧
  _parents (h' !!! self) = _parents (h !!! self) ∧
  _processed_stack (h' !!! self) = _processed_stack (h !!! self).
Proof.
  revert h. induction d as [|[k v] d IH]; intros h; simpl; [done|].
  specialize (IH (save_artifact h self k v)). simpl in IH.
  unfold __save_step_artifacts in *. simpl.
  destruct IH as (-> & -> & -> & ->).
  unfold save_artifact. by rewrite update_lookup_eq.
Qed.

(** The loop leaves [finished] and [steps] alone and pushes the steps it
    completes; when it ends normally it has called and pushed them all. *)
Lemma run_steps_frame (todo : list PipelineStep) (h h' : heap)
    (called : list PipelineStep) (r : result ()) :
  run_steps fuel h self todo = (h', called, r) →
  finished (h' !!! self) = finished (h !!! self) ∧
  steps (h' !!! self) = steps (h !!! self) ∧
  ∃ completed,
    _processed_stack (h' !!! self) = _processed_stack (h !!! self) ++ completed ∧
    completed `prefix_of` todo ∧
    completed `prefix_of` called ∧
    called `prefix_of` todo ∧
    (r = Ok () → completed = todo ∧ called = todo).
Proof.
  revert h h' called r.
  induction todo as [|step rest IH]; intros h h' called r; simpl.
  - intros [= <- <- <-]. split_and!; [done..|].
    exists []. rewrite app_nil_r. by split_and!.
  - pose (stop := λ (c : list PipelineStep),
      finished (h !!! self) = finished (h !!! self) ∧
      steps (h !!! self) = steps (h !!! self) ∧
      ∃ completed,
        _processed_stack (h !!! self) = _processed_stack (h !!! self) ++ completed ∧
        completed `prefix_of` step :: rest ∧ completed `prefix_of` c ∧
        c `prefix_of` step :: rest).
    assert (stop []) as Hnil.
    { split_and!; [done..|]. exists []. rewrite app_nil_r.
      split_and!; [done|apply prefix_nil..]. }
    assert (stop [step]) as Hone.
    { split_and!; [done..|]. exists []. rewrite app_nil_r.
      split_and!; [done|apply prefix_nil..|]. by apply prefix_cons, prefix_nil. }
    destruct (__fill_params_from_step fuel h self step) as [params|e|].
    2,3: intros [= <- <- <-]; destruct Hnil as (?&?&c&?&?&?&?);
         split_and!; [done..|]; exists c; by split_and!.
    destruct (execute step [] params ≫= items_to_save) as [d|e|].
    2,3: intros [= <- <- <-]; destruct Hone as (?&?&c&?&?&?&?);
         split_and!; [done..|]; exists c; by split_and!.
    destruct (run_steps fuel _ self rest) as [[h3 called3] r3] eqn:E.
    intros [= <- <- <-].
    apply IH in E as (Hf & Hs & completed & Hst & Hp1 & Hp2 & Hp3 & Hok).
    rewrite update_lookup_eq in Hf, Hs, Hst. simpl in *.
    destruct (save_step_artifacts_frame d h) as (Hf' & Hs' & _ & Hst').
    simpl in *. rewrite Hf' in Hf. rewrite Hs' in Hs. rewrite Hst' in Hst.
    split_and!; [done..|].
    exists (step :: completed). rewrite Hst, <- app_assoc. simpl.
    split_and!; [done|by apply prefix_cons..|].
    intros Hr. destruct (Hok Hr) as [-> ->]. done.
Qed.

Lemma run_steps_app (l1 l2 : list PipelineStep) (h h1 : heap)
    (called1 : list PipelineStep) :
  run_steps fuel h self l1 = (h1, called1, Ok ()) →
  run_steps fuel h self (l1 ++ l2) =
    (let '(h2, called2, r) := run_steps fuel h1 self l2 in
     (h2, called1 ++ called2, r)).
Proof.
  revert h h1 called1.
  induction l1 as [|step rest IH]; intros h h1 called1; simpl.
  - intros [= <- <-]. by destruct (run_steps fuel h self l2) as [[??]?].
  - destruct (__fill_params_from_step fuel h self step) as [params|e|]; [|done..].
    destruct (execute step [] params ≫= items_to_save) as [d|e|]; [|done..].
    destruct (run_steps fuel _ self rest) as [[h3 called3] r3] eqn:E.
    intros [= <- <- ->]. rewrite (IH _ _ _ E).
    by destruct (run_steps fuel h3 self l2) as [[??]?].
Qed.
End run_facts.

(** C6: if the body of a step raises [e] during [run] -- the steps [before]
    it having completed -- then [run] ends with [e] itself, the failing step
    is the last one whose body was called, [finished] is still false, and
    the history stack has grown by exactly the steps completed before. *)
Theorem run_step_failure (fuel : nat) (h h1 : heap) (self : pid)
    (before after : list PipelineStep) (step : PipelineStep)
    (params : list (string * value)) (e : exn) :
  finished (h !!! self) = false →
  steps (h !!! self) = before ++ step :: after →
  run_steps fuel h self before = (h1, before, Ok ()) →
  __fill_params_from_step fuel h1 self step = Ok params →
  execute step [] params = Raise e →
  run fuel h self = (h1, before ++ [step], Raise e) ∧
  finished (h1 !!! self) = false ∧
  _processed_stack (h1 !!! self) = _processed_stack (h !!! self) ++ before.
Proof.
  intros Hfin Hsteps Hbefore Hparams Hbody.
  unfold run. rewrite Hfin, Hsteps, (run_steps_app _ _ _ _ _ _ _ Hbefore).
  simpl. rewrite Hparams, Hbody. simpl. split; [done|].
  apply run_steps_frame in Hbefore as (Hf & _ & completed & Hst & _ & _ & _ & Hok).
  destruct (Hok eq_refl) as [-> _]. by rewrite Hf.
Qed.

Lemma run_step_failure_witness :
  let h : heap := {[ 7 := {| name := "p"; steps := [DummyStep; FailingStep; AddOne];
                            artifacts := ∅; finished := false; _parents := [];
                            _processed_stack := [] |} ]} in
  ∃ h1, run 1 h 7 = (h1, [DummyStep; FailingStep], Raise (StepError (VStr "boom"))) ∧
        finished (h1 !!! 7) = false ∧
        _processed_stack (h1 !!! 7) = [DummyStep].
Proof.
  intros h.
  exists (run_steps 1 h 7 [DummyStep]).1.1.
  apply (run_step_failure 1 h _ 7 [DummyStep] [AddOne] FailingStep
           [("pipeline", VPipeline 7)] (StepError (VStr "boom")));
    reflexivity.
Defined.

(** C9: [run] on a finished pipeline calls no step body and leaves the whole
    heap -- store, history stack and flag included -- as it was; a [run]
    that ends normally leaves [finished] true, so the [run] that follows
    calls no step body. *)
Theorem run_finished_noop (fuel : nat) (h : heap) (self : pid) :
  (finished (h !!! self) = true → run fuel h self = (h, [], Ok ())) ∧
  (∀ h' called, run fuel h self = (h', called, Ok ()) →
     finished (h' !!! self) = true ∧
     ∀ fuel', run fuel' h' self = (h', [], Ok ())).
Proof.
  split.
  - intros Hfin. unfold run. by rewrite Hfin.
  - intros h' called Hrun.
    assert (finished (h' !!! self) = true) as Hfin'.
    { unfold run in Hrun. destruct (finished (h !!! self)) eqn:Hfin.
      - by injection Hrun as <- _.
      - destruct (run_steps fuel h self _) as [[h1 called1] [[]|e|]];
          [|done..]. injection Hrun as <- _. by rewrite update_lookup_eq. }
    split; [done|]. intros fuel'. unfold run. by rewrite Hfin'.
Qed.

Lemma run_finished_noop_witness :
  let h1 := (run 1 scenario_heap 0).1.1 in
  (run 1 scenario_heap 0).1.2 = [AddOne] ∧
  artifacts (h1 !!! 0) !! "y" = Some (VInt 6) ∧
  finished (h1 !!! 0) = true ∧
  run 1 h1 0 = (h1, [], Ok ()).
Proof.
  intros h1. split; [reflexivity|]. split; [reflexivity|].
  destruct (run_finished_noop 1 scenario_heap 0) as [_ Hafter].
  destruct (Hafter h1 [AddOne] eq_refl) as [Hfin Hnext].
  split; [exact Hfin|]. destruct (run_finished_noop 1 h1 0) as [Hnoop _].
  exact (Hnoop Hfin).
Defined.

(** ** Artifact lookup through the parents *)


(** The lookup that raises follows the resolution of the specification:
    with enough fuel it returns the first hit, and raises
    [ArtifactNotFoundError] when the name is absent throughout. *)
Lemma get_artifact_required (h : heap) (artifact_name : string)
    (default : value) (self : pid) (r : option value) :
  resolves h artifact_name self r →
  ∃ fuel0, ∀ fuel, fuel0 ≤ fuel →
    get_artifact fuel h self artifact_name default true =
      required_outcome artifact_name r.
Proof.
  intros Hres.
  induction Hres using resolves_mut with
    (P0 := λ ps r _, ∃ fuel0, ∀ fuel, fuel0 ≤ fuel →
       for_parent (λ parent, get_artifact fuel h parent artifact_name default true)
         artifact_name default true ps = required_outcome artifact_name r).
  - exists 1. intros [|fuel] Hle; [lia|]. simpl.
    unfold ArtifactInMemory.get_artifact. by rewrite e.
  - destruct IHHres as [fuel0 IH]. exists (S fuel0).
    intros [|fuel] Hle; [lia|]. simpl.
    unfold ArtifactInMemory.get_artifact. rewrite e. simpl.
    apply IH. lia.
  - by exists 0.
  - destruct IHHres as [fuel0 IH]. exists fuel0. intros fuel Hle. simpl.
    by rewrite (IH fuel Hle).
  - destruct IHHres as [fuel1 IH1]. destruct IHHres0 as [fuel2 IH2].
    exists (fuel1 `max` fuel2). intros fuel Hle. simpl.
    rewrite (IH1 fuel) by lia. simpl. apply IH2. lia.
Qed.

(** C1 at the failing input: the required lookup of [x] from the child finds
    the parent's artifact, the lookup that does not raise returns the
    default although the parent holds [x], and so does the resolution of
    the optional parameter [x] during [run]. *)
Theorem optional_lookup_ignores_parents :
  get_artifact 2 family 1 "x" VNone true = Ok (VInt 5) ∧
  get_artifact 2 family 1 "x" (VInt 0) false = Ok (VInt 0) ∧
  __fill_params_from_step 2 family 1 DummyStep =
    Ok [("pipeline", VPipeline 1); ("x", VNone)] ∧
  artifacts ((run 2 family 1).1.1 !!! 1) !! "result" = Some (VInt 42).
Proof. split_and!; reflexivity. Qed.

(** ** Construction of a composition *)

(** C2 at the failing input: pipeline [1] had pipeline [0] registered as a
    parent; the composition [{2: [1]}] names it as a child only, and its
    parent list is not reset.  Listed as a key too, it is. *)
Theorem child_only_parents_not_reset :
  let h := add_parent ∅ 1 0 in
  parents h 1 = [0] ∧
  parents (PipelineComposition.__init__ h [(2, [1])]) 1 = [0; 2] ∧
  parents (PipelineComposition.__init__ h [(2, [1]); (1, [])]) 1 = [2].
Proof. split_and!; reflexivity. Qed.

(** ** Cache keys *)

Lemma dict_get_set_ne {V} (d : list (string * V)) (k k' : string) (v : V) :
  k ≠ k' → dict_get (dict_set d k v) k' = dict_get d k'.
Proof.
  intros Hne. induction d as [|[k0 v0] d IH]; simpl.
  - by rewrite decide_False.
  - destruct (decide (k0 = k)) as [->|]; simpl.
    + by rewrite !decide_False.
    + by rewrite IH.
Qed.

Lemma dict_get_update_other {V} (e d : list (string * V)) (k : string) :
  k ∉ e.*1 → dict_get (dict_update d e) k = dict_get d k.
Proof.
  revert d. induction e as [|[k0 v0] e IH]; intros d Hk; [done|].
  rewrite fmap_cons, not_elem_of_cons in Hk. destruct Hk as [Hne Hk].
  unfold dict_update in *. cbn [foldl fst snd].
  rewrite IH by done. by apply dict_get_set_ne.
Qed.

Lemma apply_defaults_ext (params : list (string * Param))
    (a1 a2 : list (string * value)) :
  (∀ n, n ∈ params.*1 → dict_get a1 n = dict_get a2 n) →
  apply_defaults params a1 = apply_defaults params a2.
Proof.
  induction params as [|[n param] params IH]; intros Heq; [done|].
  cbn [apply_defaults]. rewrite fmap_cons in Heq.
  rewrite (Heq n) by (apply elem_of_cons; by left).
  rewrite IH; [done|]. intros n' Hn'. apply Heq, elem_of_cons. by right.
Qed.

(** The key of the in-memory wrapper is made of the declared parameters
    only: two steps of one signature none of whose fields is named like a
    parameter get the same key for the same call, whatever their
    configurations are. *)
Lemma memory_key_parameters_only
    (dumps : value → option (list Byte.byte))
    (sha256_hexdigest : list Byte.byte → string)
    (w1 w2 : InMemoryCacheWrapper.t) (args : list value)
    (kwargs : list (string * value)) :
  signature (InMemoryCacheWrapper.step w1) = signature (InMemoryCacheWrapper.step w2) →
  (∀ n, n ∈ (signature (InMemoryCacheWrapper.step w1)).*1 →
        (n ∉ (__dict__ (InMemoryCacheWrapper.step w1)).*1) ∧
        (n ∉ (__dict__ (InMemoryCacheWrapper.step w2)).*1)) →
  InMemoryCacheWrapper.hash_key dumps sha256_hexdigest w1 args kwargs =
  InMemoryCacheWrapper.hash_key dumps sha256_hexdigest w2 args kwargs.
Proof.
  intros Hsig Hfields. unfold InMemoryCacheWrapper.hash_key. rewrite <- Hsig.
  destruct (bind _ args kwargs) as [bound|e|]; [|done..].
  cbn [mbind result_bind]. cbv zeta.
  rewrite (apply_defaults_ext _
             (dict_update bound (__dict__ (InMemoryCacheWrapper.step w1)))
             (dict_update bound (__dict__ (InMemoryCacheWrapper.step w2))));
    [done|].
  intros n Hn. destruct (Hfields n Hn) as [H1 H2].
  by rewrite !dict_get_update_other.
Qed.

(** C3 at the failing input: two steps that differ in the field [value]
    only, called with the same argument, get the same key from the
    in-memory wrapper, whatever the serializer and the digest are:
    [apply_defaults] keeps the declared parameters only.  With a serializer
    and a digest that tell all inputs apart, the second step is handed the
    result of the first, 13, where its own body returns 14; the disk
    wrapper gives the two calls different keys. *)
Theorem memory_key_ignores_configuration
    (dumps : value → option (list Byte.byte))
    (sha256_hexdigest : list Byte.byte → string) :
  let s10 := DummyStepForCache "step2" 10 in
  let s11 := DummyStepForCache "step2" 11 in
  __dict__ s10 ≠ __dict__ s11 ∧
  InMemoryCacheWrapper.hash_key dumps sha256_hexdigest
    (in_memory_cache s10) [VInt 3] [] =
  InMemoryCacheWrapper.hash_key dumps sha256_hexdigest
    (in_memory_cache s11) [VInt 3] [] ∧
  (let w1 := (InMemoryCacheWrapper.execute toy_dumps toy_digest
                (in_memory_cache s10) [VInt 3] [] empty_world).1 in
   InMemoryCacheWrapper.execute toy_dumps toy_digest
     (in_memory_cache s11) [VInt 3] [] w1 = (w1, Ok (VInt 13)) ∧
   execute s11 [VInt 3] [] = Ok (VInt 14)) ∧
  InDiskCacheWrapper.hash_key toy_dumps toy_digest
    (in_disk_cache s10 ".cache") [VInt 3] [] ≠
  InDiskCacheWrapper.hash_key toy_dumps toy_digest
    (in_disk_cache s11 ".cache") [VInt 3] [].
Proof.
  intros s10 s11. split; [discriminate|]. split; [reflexivity|]. split.
  - intros w1. split; reflexivity.
  - vm_compute. discriminate.
Qed.

(** ** Strings and paths *)












(** ** Capabilities to run the wrappers with *)

(** ** Memoization *)

Section memoization.
Context (dumps : value → option (list Byte.byte))
        (sha256_hexdigest : list Byte.byte → string)
        (pickle_dump : value → list Byte.byte * result ())
        (pickle_load : list Byte.byte → result value).

Local Abbreviation mem_key := (InMemoryCacheWrapper.hash_key dumps sha256_hexdigest).
Local Abbreviation mem_execute :=
  (InMemoryCacheWrapper.execute dumps sha256_hexdigest).
Local Abbreviation disk_key := (InDiskCacheWrapper.hash_key dumps sha256_hexdigest).
Local Abbreviation disk_execute :=
  (InDiskCacheWrapper.execute dumps sha256_hexdigest pickle_dump pickle_load).

(** A miss of the in-memory wrapper: the body is called once and its
    result is kept under the key. *)
Lemma memory_miss (self : InMemoryCacheWrapper.t) args kwargs k r (w : world) :
  mem_key self args kwargs = Ok k →
  cache w !! k = None →
  execute (InMemoryCacheWrapper.step self) args kwargs = Ok r →
  ∃ w1, mem_execute self args kwargs w = (w1, Ok r) ∧
        cache w1 = <[k := r]> (cache w) ∧ files w1 = files w ∧
        calls w1 = calls w ++ [(InMemoryCacheWrapper.step self, args, kwargs)].
Proof.
  intros Hk Hmiss Hbody. unfold InMemoryCacheWrapper.execute.
  rewrite Hk. simpl. rewrite Hmiss, Hbody. by eexists.
Qed.

(** A hit of the in-memory wrapper changes nothing and calls nothing. *)
Lemma memory_hit (self : InMemoryCacheWrapper.t) args kwargs k r (w : world) :
  mem_key self args kwargs = Ok k →
  cache w !! k = Some r →
  mem_execute self args kwargs w = (w, Ok r).
Proof.
  intros Hk Hhit. unfold InMemoryCacheWrapper.execute. by rewrite Hk, Hhit.
Qed.

Lemma disk_miss (self : InDiskCacheWrapper.t) args kwargs k r content
    (w : world) :
  disk_key self args kwargs = Ok k →
  files w !! InDiskCacheWrapper.cache_file self k = None →
  execute (InDiskCacheWrapper.step self) args kwargs = Ok r →
  pickle_dump r = (content, Ok ()) →
  ∃ w1, disk_execute self args kwargs w = (w1, Ok r) ∧
        files w1 = <[InDiskCacheWrapper.cache_file self k := content]> (files w) ∧
        cache w1 = cache w ∧
        calls w1 = calls w ++ [(InDiskCacheWrapper.step self, args, kwargs)].
Proof.
  intros Hk Hmiss Hbody Hdump. unfold InDiskCacheWrapper.execute.
  rewrite Hk. simpl. rewrite Hmiss, Hbody, Hdump. by eexists.
Qed.

Lemma disk_hit (self : InDiskCacheWrapper.t) args kwargs k content (w : world) :
  disk_key self args kwargs = Ok k →
  files w !! InDiskCacheWrapper.cache_file self k = Some content →
  disk_execute self args kwargs w = (w, pickle_load content).
Proof.
  intros Hk Hhit. unfold InDiskCacheWrapper.execute. by rewrite Hk, Hhit.
Qed.

(** C7: two successive calls with the same arguments to a wrapper whose
    step keeps its configuration -- the key not cached before, the body
    returning [r] -- call the body exactly once, and both return [r];
    for the in-memory wrapper and, the result surviving [pickle] ([dump]
    returns and [load] reads [r] back), for the disk wrapper. *)
Theorem memoization_idempotent :
  (∀ (self : InMemoryCacheWrapper.t) args kwargs k r (w : world),
     mem_key self args kwargs = Ok k →
     cache w !! k = None →
     execute (InMemoryCacheWrapper.step self) args kwargs = Ok r →
     ∃ w1, mem_execute self args kwargs w = (w1, Ok r) ∧
           mem_execute self args kwargs w1 = (w1, Ok r) ∧
           calls w1 = calls w ++ [(InMemoryCacheWrapper.step self, args, kwargs)]) ∧
  (∀ (self : InDiskCacheWrapper.t) args kwargs k r content (w : world),
     disk_key self args kwargs = Ok k →
     files w !! InDiskCacheWrapper.cache_file self k = None →
     execute (InDiskCacheWrapper.step self) args kwargs = Ok r →
     pickle_dump r = (content, Ok ()) →
     pickle_load content = Ok r →
     ∃ w1, disk_execute self args kwargs w = (w1, Ok r) ∧
           disk_execute self args kwargs w1 = (w1, Ok r) ∧
           calls w1 = calls w ++ [(InDiskCacheWrapper.step self, args, kwargs)]).
Proof.
  split.
  - intros self args kwargs k r w Hk Hmiss Hbody.
    destruct (memory_miss self args kwargs k r w Hk Hmiss Hbody)
      as (w1 & Hrun & Hcache & _ & Hcalls).
    exists w1. split_and!; [done| |done].
    apply (memory_hit self args kwargs k r w1 Hk).
    by rewrite Hcache, lookup_insert_eq.
  - intros self args kwargs k r content w Hk Hmiss Hbody Hdump Hpickle.
    destruct (disk_miss self args kwargs k r content w Hk Hmiss Hbody Hdump)
      as (w1 & Hrun & Hfiles & _ & Hcalls).
    exists w1. split_and!; [done| |done].
    rewrite <- Hpickle. apply (disk_hit self args kwargs k _ w1 Hk).
    by rewrite Hfiles, lookup_insert_eq.
Qed.


(** Once a call of the disk wrapper has returned [r], the same call again
    returns [r] and changes nothing, [r] surviving [pickle]. *)
Lemma disk_hit_after (self : InDiskCacheWrapper.t) args kwargs r content
    (w w1 : world) :
  pickle_dump r = (content, Ok ()) →
  pickle_load content = Ok r →
  disk_execute self args kwargs w = (w1, Ok r) →
  disk_execute self args kwargs w1 = (w1, Ok r).
Proof.
  intros Hdump Hpickle. unfold InDiskCacheWrapper.execute.
  destruct (disk_key self args kwargs) as [k|e|]; [|done..].
  destruct (files w !! InDiskCacheWrapper.cache_file self k) as [c|] eqn:Hc.
  - intros [= <- Hr]. by rewrite Hc, Hr.
  - destruct (execute (InDiskCacheWrapper.step self) args kwargs)
      as [result|e|]; [|done..].
    destruct (pickle_dump result) as [c [[]|e|]] eqn:Hresult; [|done..].
    intros [= <- ->]. simpl. rewrite lookup_insert_eq.
    rewrite Hdump in Hresult. injection Hresult as <-. by rewrite Hpickle.
Qed.


End memoization.

(** ** The key of the disk wrapper *)

Section disk_key.
Context (dumps : value → option (list Byte.byte))
        (sha256_hexdigest : list Byte.byte → string).

(** A digest without collisions, and a serializer whose outputs determine
    their inputs and can be told apart when followed by more bytes. *)
Hypothesis digest_inj : ∀ b1 b2, sha256_hexdigest b1 = sha256_hexdigest b2 → b1 = b2.
Hypothesis dumps_inj : ∀ v1 v2 b, dumps v1 = Some b → dumps v2 = Some b → v1 = v2.
Hypothesis dumps_prefix_free : ∀ v1 v2 b1 b2 t1 t2,
  dumps v1 = Some b1 → dumps v2 = Some b2 → b1 ++ t1 = b2 ++ t2 → b1 = b2.

(** Then equal keys of the disk wrapper come from equal bound arguments
    and equal configurations only. *)
Lemma disk_key_separates (self1 self2 : InDiskCacheWrapper.t)
    args1 kwargs1 args2 kwargs2 bound1 bound2 k :
  bind (signature (InDiskCacheWrapper.step self1)) args1 kwargs1 = Ok bound1 →
  bind (signature (InDiskCacheWrapper.step self2)) args2 kwargs2 = Ok bound2 →
  InDiskCacheWrapper.hash_key dumps sha256_hexdigest self1 args1 kwargs1 = Ok k →
  InDiskCacheWrapper.hash_key dumps sha256_hexdigest self2 args2 kwargs2 = Ok k →
  apply_defaults (signature (InDiskCacheWrapper.step self1)) bound1 =
    apply_defaults (signature (InDiskCacheWrapper.step self2)) bound2 ∧
  __dict__ (InDiskCacheWrapper.step self1) = __dict__ (InDiskCacheWrapper.step self2).
Proof.
  intros Hb1 Hb2. unfold InDiskCacheWrapper.hash_key. rewrite Hb1, Hb2.
  cbn [mbind result_bind]. cbv zeta.
  generalize (__dict__ (InDiskCacheWrapper.step self1))
             (__dict__ (InDiskCacheWrapper.step self2))
             (apply_defaults (signature (InDiskCacheWrapper.step self1)) bound1)
             (apply_defaults (signature (InDiskCacheWrapper.step self2)) bound2).
  intros d1 d2 b1 b2.
  destruct (dumps (VDict b1)) as [a1|] eqn:Ha1; [|done].
  destruct (dumps (VDict d1)) as [c1|] eqn:Hc1; [|done].
  destruct (dumps (VDict b2)) as [a2|] eqn:Ha2; [|done].
  destruct (dumps (VDict d2)) as [c2|] eqn:Hc2; [|done].
  intros [= <-] [= Hk%digest_inj].
  assert (a2 = a1) as -> by (by eapply dumps_prefix_free).
  apply app_inv_head in Hk as ->.
  pose proof (dumps_inj _ _ _ Ha1 Ha2) as [= ->].
  pose proof (dumps_inj _ _ _ Hc1 Hc2) as [= ->]. done.
Qed.
End disk_key.

(** The calls of [test_in_memory_cache_wrapper] and
    [test_in_disk_cache_wrapper]. *)
Lemma memoization_idempotent_witness :
  let mem := in_memory_cache (DummyStepForCache "step2" 10) in
  let disk := in_disk_cache (DummyStepForCache "step1" 5) ".cache" in
  (∃ w1,
     InMemoryCacheWrapper.execute toy_dumps toy_digest mem [VInt 3] [] empty_world
       = (w1, Ok (VInt 13)) ∧
     InMemoryCacheWrapper.execute toy_dumps toy_digest mem [VInt 3] [] w1
       = (w1, Ok (VInt 13)) ∧
     calls w1 = [(DummyStepForCache "step2" 10, [VInt 3], [])]) ∧
  (∃ w1,
     InDiskCacheWrapper.execute toy_dumps toy_digest toy_pickle_dump toy_load disk
       [VInt 2] [] empty_world = (w1, Ok (VInt 7)) ∧
     InDiskCacheWrapper.execute toy_dumps toy_digest toy_pickle_dump toy_load disk
       [VInt 2] [] w1 = (w1, Ok (VInt 7)) ∧
     calls w1 = [(DummyStepForCache "step1" 5, [VInt 2], [])]).
Proof.
  intros mem disk.
  destruct (memoization_idempotent toy_dumps toy_digest toy_pickle_dump toy_load)
    as [Hmem Hdisk].
  split.
  - apply (Hmem mem [VInt 3] [] (toy_digest (encode (VDict [("x", VInt 3)])))
             (VInt 13) empty_world); reflexivity.
  - apply (Hdisk disk [VInt 2] []
             (toy_digest (encode (VDict [("x", VInt 2)])
                          ++ encode (VDict (__dict__ (DummyStepForCache "step1" 5)))))
             (VInt 7) (encode (VInt 7)) empty_world); reflexivity.
Defined.


(** ** What the construction of a composition does to the parent lists *)

Section set_parents_facts.
Import PipelineComposition.

Lemma parents_update (h : heap) p ps x :
  parents (update h p (set_parents ps)) x =
    if decide (p = x) then ps else parents h x.
Proof. unfold parents. rewrite update_lookup. by destruct (decide (p = x)). Qed.

Lemma parents_add_parent (h : heap) child parent x :
  parents (add_parent h child parent) x =
    if decide (child = x) then add_one (parents h child) parent else parents h x.
Proof.
  unfold add_parent, add_one.
  destruct (bool_decide (parent ∈ parents h child)).
  - by destruct (decide (child = x)) as [->|].
  - apply parents_update.
Qed.

Lemma add_one_idemp ps parent : add_one (add_one ps parent) parent = add_one ps parent.
Proof.
  unfold add_one. destruct (bool_decide (parent ∈ ps)) eqn:E; rewrite ?E; [done|].
  rewrite bool_decide_eq_true_2; [done|]. set_solver.
Qed.

(** The inner loop [for child in children: child.add_parent(parent)]. *)
Lemma parents_add_children (cs : list pid) (h : heap) parent x :
  parents (foldl (λ h'' child, add_parent h'' child parent) h cs) x =
    if bool_decide (x ∈ cs) then add_one (parents h x) parent else parents h x.
Proof.
  revert h. induction cs as [|c cs IH]; intros h; simpl; [done|].
  rewrite IH, parents_add_parent.
  destruct (decide (c = x)) as [->|Hne].
  - rewrite (bool_decide_eq_true_2 (x ∈ x :: cs)) by set_solver.
    destruct (bool_decide (x ∈ cs)); [apply add_one_idemp|done].
  - assert (bool_decide (x ∈ c :: cs) = bool_decide (x ∈ cs)) as ->; [|done].
    apply bool_decide_ext. set_solver.
Qed.

(** The second loop of [_set_parents]. *)
Lemma parents_assign (l : adjacency) (h : heap) x :
  parents (foldl (λ h' kv, foldl (λ h'' child, add_parent h'' child kv.1) h' kv.2)
             h l) x =
    foldl add_one (parents h x) (listing_keys l x).
Proof.
  revert h. induction l as [|[k cs] l IH]; intros h; simpl; [done|].
  rewrite IH, parents_add_children. unfold listing_keys.
  rewrite filter_cons. simpl.
  destruct (decide (x ∈ cs)) as [Hin|Hout].
  - by rewrite bool_decide_eq_true_2.
  - by rewrite bool_decide_eq_false_2.
Qed.

(** The first loop of [_set_parents]: only the keys are reset. *)
Lemma parents_reset (l : adjacency) (h : heap) x :
  parents (foldl (λ h' kv, update h' kv.1 (set_parents [])) h l) x =
    if bool_decide (x ∈ l.*1) then [] else parents h x.
Proof.
  revert h. induction l as [|[k cs] l IH]; intros h; [done|].
  cbn [foldl fst]. rewrite IH, parents_update, fmap_cons. cbn [fst].
  destruct (decide (k = x)) as [->|Hne].
  - rewrite (bool_decide_eq_true_2 (x ∈ x :: l.*1)) by set_solver.
    by destruct (bool_decide (x ∈ l.*1)).
  - assert (bool_decide (x ∈ k :: l.*1) = bool_decide (x ∈ l.*1)) as ->; [|done].
    apply bool_decide_ext. set_solver.
Qed.

(** The parent list of any pipeline once a composition is built: emptied
    if the pipeline is a key, as it was before otherwise, then extended by
    each key that lists the pipeline and is not yet in it. *)
Lemma parents_after_init (h : heap) (pipelines : adjacency) x :
  parents (__init__ h pipelines) x =
    foldl add_one (if bool_decide (x ∈ pipelines.*1) then [] else parents h x)
      (listing_keys pipelines x).
Proof.
  unfold __init__, _set_parents. by rewrite parents_assign, parents_reset.
Qed.

Lemma foldl_add_one_fresh (ks acc : list pid) :
  NoDup (acc ++ ks) → foldl add_one acc ks = acc ++ ks.
Proof.
  revert acc. induction ks as [|k ks IH]; intros acc Hnd; simpl.
  - by rewrite app_nil_r.
  - unfold add_one at 2. rewrite bool_decide_eq_false_2.
    + rewrite IH, <- app_assoc; [done|]. by rewrite <- app_assoc.
    + apply NoDup_app in Hnd as (_ & Hdisj & _). intros Hin.
      apply (Hdisj _ Hin). set_solver.
Qed.

Lemma listing_keys_sublist (pipelines : adjacency) x :
  listing_keys pipelines x `sublist_of` pipelines.*1.
Proof. unfold listing_keys. apply fmap_sublist, sublist_filter. Qed.

(** For a key of the adjacency the claim of the specification holds: its
    parents are exactly the keys that list it, in dictionary order. *)
Lemma parents_after_init_key (h : heap) (pipelines : adjacency) x :
  NoDup pipelines.*1 → x ∈ pipelines.*1 →
  parents (__init__ h pipelines) x = listing_keys pipelines x.
Proof.
  intros Hnd Hkey. rewrite parents_after_init, bool_decide_eq_true_2 by done.
  apply (foldl_add_one_fresh _ []). simpl.
  eapply sublist_NoDup; [done|apply listing_keys_sublist].
Qed.
End set_parents_facts.

(** ** The topological order *)

Section depth_first.
Import PipelineComposition.
Context (g : adjacency).

Local Abbreviation U := (all_pipelines g).
Local Abbreviation state := (gset nat * list nat)%type.
Local Abbreviation dfs_inv := (dfs_inv g).
Local Abbreviation visit_ok := (visit_ok g).

Lemma dict_get_elem (p : pid) (cs : list pid) :
  dict_get g p = Some cs → (p, cs) ∈ g.
Proof.
  induction g as [|[k v] l IH]; simpl; [done|].
  destruct (decide (k = p)) as [->|]; [intros [= ->]|]; set_solver.
Qed.

Lemma dict_get_NoDup (p : pid) (cs : list pid) :
  NoDup g.*1 → (p, cs) ∈ g → dict_get g p = Some cs.
Proof.
  induction g as [|[k v] l IH]; [set_solver|].
  rewrite fmap_cons, NoDup_cons. cbn [dict_get fst]. intros [Hk Hnd] Hin.
  apply elem_of_cons in Hin as [[= <- <-]|Hin].
  - by rewrite decide_True.
  - rewrite decide_False; [by apply IH|]. intros ->. apply Hk.
    apply list_elem_of_fmap. by exists (p, cs).
Qed.

Lemma edge_universe (p c : pid) : edge g p c → p ∈ U ∧ c ∈ U.
Proof.
  unfold edge, children_of, all_pipelines.
  destruct (dict_get g p) as [cs|] eqn:E; simpl; [|set_solver].
  apply dict_get_elem in E. intros Hc. split.
  - apply elem_of_union_l, elem_of_list_to_set, list_elem_of_fmap.
    by exists (p, cs).
  - apply elem_of_union_r, elem_of_list_to_set, list_elem_of_join.
    exists cs. split; [done|]. apply list_elem_of_fmap. by exists (p, cs).
Qed.

Lemma extends_refl st : extends st st.
Proof. by split. Qed.

Lemma extends_trans st1 st2 st3 : extends st1 st2 → extends st2 st3 → extends st1 st3.
Proof.
  intros [Hv1 Ho1 Hg1] [Hv2 Ho2 Hg2]. split.
  - set_solver.
  - by trans st2.2.
  - intros x. rewrite Hg2. apply Hg1.
Qed.

Lemma extends_size st st' : extends st st' → size (U ∖ st'.1) ≤ size (U ∖ st.1).
Proof. intros [Hv _ _]. apply subseteq_size. set_solver. Qed.

Lemma for_child_ok (fuel : nat) (cs : list pid) :
  (∀ c, c ∈ cs → visit_ok fuel c) →
  ∀ st, size (U ∖ st.1) < fuel → dfs_inv st →
        (∀ c x, c ∈ cs → gray st x → tc (edge g) x c) →
    ∃ st', for_child (visit fuel g) cs st = Ok st' ∧ dfs_inv st' ∧
           extends st st' ∧ ∀ c, c ∈ cs → c ∈ st'.2.
Proof.
  induction cs as [|c cs IH]; intros Hvisit st Hsize Hinv Hgray.
  - exists st. split_and!; [done|done|apply extends_refl|set_solver].
  - destruct (Hvisit c) with (st := st) as (st1 & Hrun & Hinv1 & Hext1 & Hc);
      [set_solver|done|done|intros x; apply Hgray; set_solver|].
    destruct IH with (st := st1) as (st2 & Hrun2 & Hinv2 & Hext2 & Hcs).
    + intros c' Hc'. apply Hvisit. set_solver.
    + pose proof (extends_size _ _ Hext1). lia.
    + done.
    + intros c' x Hc' Hx. apply (Hgray c' x); [set_solver|].
      by apply (ext_gray _ _ Hext1).
    + exists st2. simpl. rewrite Hrun. simpl. split_and!; [done|done| |].
      * by eapply extends_trans.
      * intros c' [->|Hc']%elem_of_cons; [|by apply Hcs].
        destruct (ext_order _ _ Hext2) as [new ->]. set_solver.
Qed.

Lemma visit_correct (fuel : nat) :
  acyclic g → ∀ p, p ∈ U → visit_ok fuel p.
Proof.
  intros Hacyc. induction fuel as [|fuel IH]; intros p Hp st Hsize Hinv Hgray;
    [lia|].
  destruct st as [V O]. simpl in *. case_bool_decide as Hin.
  - (* already visited: in a graph without cycles it has been left too *)
    exists (V, O). split_and!; [done|done|apply extends_refl|]. simpl.
    destruct (decide (p ∈ O)) as [|Hout]; [done|].
    destruct (Hacyc p). apply Hgray. by split.
  - assert (p ∉ O) as HpO by (intros ?; by apply Hin, (inv_visited g _ Hinv)).
    set (st0 := ({[p]} ∪ V, O) : state).
    assert (∀ x, gray st0 x ↔ gray (V, O) x ∨ x = p) as Hgray0.
    { intros x. unfold gray, st0. simpl. split.
      - intros [[->%elem_of_singleton|?]%elem_of_union ?]; [by right|by left].
      - intros [[??]| ->]; split; set_solver. }
    destruct (for_child_ok fuel (children_of g p)) with (st := st0)
      as (st1 & Hrun & Hinv1 & Hext1 & Hcs).
    + intros c Hc. apply IH. by apply (edge_universe p c).
    + assert (U ∖ st0.1 ⊂ U ∖ V) as Hlt%subset_size; [|lia].
      unfold st0. simpl. set_solver.
    + destruct Hinv. split; simpl in *; [done|set_solver|set_solver|done].
    + intros c x Hc [Hx| ->]%Hgray0.
      * eapply tc_r; [by apply Hgray|done].
      * by apply tc_once.
    + destruct st1 as [V1 O1]. exists (V1, O1 ++ [p]).
      rewrite Hrun. simpl.
      assert (gray (V1, O1) p) as [HpV1 HpO1].
      { apply (ext_gray _ _ Hext1), Hgray0. by right. }
      simpl in *. split_and!; [done| | |set_solver].
      * destruct Hinv1 as [Hnd1 Hvis1 Huni1 Hpost1]. split; simpl in *.
        -- apply NoDup_app. split_and!; [done|set_solver|apply NoDup_singleton].
        -- intros x [?| ->%list_elem_of_singleton]%elem_of_app; auto.
        -- done.
        -- intros i x c [Hi|[Hlen Hi]]%lookup_app_Some Hedge.
           ++ destruct (Hpost1 i x c Hi Hedge) as (j & Hj & Hlook).
              exists j. split; [done|]. apply lookup_app_Some. by left.
           ++ apply list_lookup_singleton_Some in Hi as [Hi ->].
              apply Hcs, list_elem_of_lookup in Hedge as [j Hj].
              exists j. split.
              ** apply lookup_lt_Some in Hj. lia.
              ** apply lookup_app_Some. by left.
      * destruct Hext1 as [Hv1 Ho1 Hg1]. split; simpl in *.
        -- set_solver.
        -- by apply prefix_app_r.
        -- intros x. unfold gray in *. simpl in *.
           specialize (Hg1 x). specialize (Hgray0 x).
           rewrite elem_of_app, list_elem_of_singleton.
           destruct (decide (x = p)) as [->|Hne]; [tauto|]. tauto.
Qed.
End depth_first.

Section topological_order.
Import PipelineComposition.
Context (g : adjacency).

Local Abbreviation U := (all_pipelines g).

Lemma tc_flip {A} (R : relation A) x y : tc (flip R) x y → tc R y x.
Proof.
  induction 1 as [x y H|x z y H _ IH]; [by apply tc_once|].
  eapply tc_r; [exact IH|exact H].
Qed.

(** Without cycles, one can reason from the parents to the children. *)
Lemma edge_acc (x : pid) : acyclic g → Acc (edge g) x.
Proof.
  intros Hacyc.
  apply (tc_finite_sn (R := flip (edge g)) x).
  - intros y Hy. apply (Hacyc y), tc_flip, Hy.
  - exists (elements U). intros y Hy. apply elem_of_elements.
    induction Hy as [x y H|x z y _ _ IH]; [|done].
    by apply (edge_universe g y x).
Qed.

Lemma edge_listed (k : pid) (cs : list pid) (x : pid) :
  NoDup g.*1 → (k, cs) ∈ g → x ∈ cs → edge g k x.
Proof.
  intros Hnd Hin Hx. unfold edge, children_of.
  by rewrite (dict_get_NoDup g k cs Hnd Hin).
Qed.

(** A referenced pipeline that no key lists is a key, and the construction
    leaves it without parents. *)
Lemma root_parents (h : heap) (x : pid) :
  NoDup g.*1 → x ∈ U → (∀ y, ¬ edge g y x) → parents (__init__ h g) x = [].
Proof.
  intros Hnd Hx Hroot.
  assert (∀ kv, kv ∈ g → x ∉ kv.2) as Hnone.
  { intros [k cs] Hin Hcs. by apply (Hroot k), (edge_listed k cs). }
  rewrite parents_after_init, bool_decide_eq_true_2.
  - unfold listing_keys. replace (filter _ g) with (@nil (nat * list nat)); [done|].
    symmetry. clear Hx Hroot Hnd. induction g as [|kv l IH]; [done|].
    rewrite filter_cons, decide_False by (apply Hnone; set_solver).
    apply IH. intros kv' ?. apply Hnone. set_solver.
  - apply elem_of_union in Hx as [Hx|Hx]; [by apply elem_of_list_to_set in Hx|].
    apply elem_of_list_to_set, list_elem_of_join in Hx as (cs & Hx & Hcs).
    apply list_elem_of_fmap in Hcs as ([k cs'] & -> & Hin).
    by destruct (Hnone _ Hin).
Qed.

(** Once the search has left every root, it has left every pipeline. *)
Lemma dfs_complete (st : gset nat * list nat) :
  acyclic g → dfs_inv g st →
  (∀ x, x ∈ U → (∀ y, ¬ edge g y x) → x ∈ st.2) →
  ∀ x, x ∈ U → x ∈ st.2.
Proof.
  intros Hacyc Hinv Hroots x.
  induction (edge_acc x Hacyc) as [x _ IH]. intros Hx.
  destruct (decide (Exists (λ kv, x ∈ children_of g kv.1) g)) as [Hex|Hnone].
  - apply Exists_exists in Hex as ([k cs] & Hin & Hedge). simpl in Hedge.
    assert (k ∈ st.2) as [i Hi]%list_elem_of_lookup.
    { apply IH; [done|]. by apply (edge_universe g k x). }
    destruct (inv_post g st Hinv i k x Hi Hedge) as (j & _ & Hj).
    apply list_elem_of_lookup. by exists j.
  - apply Hroots; [done|]. intros y Hedge. apply Hnone, Exists_exists.
    unfold edge, children_of in Hedge.
    destruct (dict_get g y) as [cs|] eqn:E; [|set_solver].
    exists (y, cs). split; [by apply dict_get_elem|].
    unfold children_of. simpl. by rewrite E.
Qed.

(** In [order] as [visit] builds it, transitive children stand before
    their ancestors. *)
Lemma post_order_tc (st : gset nat * list nat) (p c : pid) :
  dfs_inv g st → tc (edge g) p c →
  ∀ i, st.2 !! i = Some p → ∃ j, j < i ∧ st.2 !! j = Some c.
Proof.
  intros Hinv. induction 1 as [p c H|p z c H _ IH]; intros i Hi.
  - by apply (inv_post g st Hinv i p c).
  - destruct (inv_post g st Hinv i p z Hi H) as (k & Hk & Hz).
    destruct (IH k Hz) as (j & Hj & Hc). exists j. split; [lia|done].
Qed.

Lemma before_reverse (l : list pid) (a b : pid) (i j : nat) :
  l !! i = Some a → l !! j = Some b → j < i → before (reverse l) a b.
Proof.
  intros Hi Hj Hlt. pose proof (lookup_lt_Some _ _ _ Hi) as Hlen.
  exists (length l - S i), (length l - S j). split_and!; [| |lia].
  - apply reverse_lookup_Some. split; [|lia].
    by replace (length l - S (length l - S i)) with i by lia.
  - apply reverse_lookup_Some. split; [|lia].
    by replace (length l - S (length l - S j)) with j by lia.
Qed.

End topological_order.

Lemma run_all_prefix (fuel : nat) (order : list pid) (h h2 : heap)
    (ran : list pid) (r : result ()) :
  PipelineComposition.run_all fuel h order = (h2, ran, r) →
  ran `prefix_of` order ∧ (r = Ok () → ran = order).
Proof.
  revert h h2 ran r. induction order as [|p order IH]; intros h h2 ran r; simpl.
  - by intros [= <- <- <-].
  - destruct (run fuel h p) as [[h1 called] [[]|e|]].
    + destruct (PipelineComposition.run_all fuel h1 order) as [[h3 ran3] r3] eqn:E.
      intros [= <- <- <-]. apply IH in E as [Hpre Hok].
      split; [by apply prefix_cons|]. intros Hr. by rewrite Hok.
    + intros [= <- <- <-]. split; [|done]. apply prefix_cons, prefix_nil.
    + intros [= <- <- <-]. split; [|done]. apply prefix_cons, prefix_nil.
Qed.

(** The order is right on every heap in which the referenced pipelines
    that no key lists have no parents. *)
Lemma topological_sort_from_roots (fuel : nat) (h : heap)
    (pipelines : list (nat * list nat)) (iteration : list pid) :
  acyclic pipelines →
  (∀ p, p ∈ iteration ↔ p ∈ PipelineComposition.all_pipelines pipelines) →
  size (PipelineComposition.all_pipelines pipelines) < fuel →
  (∀ x, x ∈ PipelineComposition.all_pipelines pipelines →
        (∀ y, ¬ edge pipelines y x) → parents h x = []) →
  ∃ order,
    PipelineComposition._topological_sort fuel h pipelines iteration = Ok order ∧
    NoDup order ∧
    (∀ p, p ∈ order ↔ p ∈ PipelineComposition.all_pipelines pipelines) ∧
    (∀ p c, tc (edge pipelines) p c → before order p c).
Proof.
  intros Hacyc Hiter Hfuel Hparents.
  set (roots := filter (λ p, parents h p = []) iteration).
  destruct (for_child_ok pipelines fuel roots) with (st := (∅, []) : gset nat * list nat)
    as ([V O] & Hrun & Hinv & _ & Hroots).
  - intros c [_ Hc]%list_elem_of_filter. apply visit_correct; [done|].
    by apply Hiter.
  - simpl. by rewrite difference_empty_L.
  - split; simpl; [apply NoDup_nil_2|set_solver|set_solver|set_solver].
  - intros c x _ [Hx _]. set_solver.
  - assert (∀ x, x ∈ PipelineComposition.all_pipelines pipelines → x ∈ O) as Hall.
    { apply (dfs_complete pipelines (V, O)); [done..|].
      intros x Hx Hroot. apply Hroots, list_elem_of_filter. split.
      - by apply Hparents.
      - by apply Hiter. }
    exists (reverse O). unfold PipelineComposition._topological_sort.
    fold roots. rewrite Hrun. simpl. split_and!.
    + done.
    + rewrite reverse_Permutation. apply (inv_nodup _ _ Hinv).
    + intros p. rewrite elem_of_reverse. split; [|apply Hall].
      intros Hp. apply (inv_universe _ _ Hinv), (inv_visited _ _ Hinv), Hp.
    + intros p c Hpc.
      assert (p ∈ O) as [i Hi]%list_elem_of_lookup.
      { apply Hall. inversion Hpc as [?? H|??? H]; by apply (edge_universe _ _ _ H). }
      destruct (post_order_tc pipelines (V, O) p c Hinv Hpc i Hi) as (j & Hj & Hc).
      by apply (before_reverse O p c i j).
Qed.

(** A rank that grows along every edge rules cycles out. *)
Lemma ranked_acyclic (pipelines : list (nat * list nat)) (rank : pid → nat) :
  Forall (λ kv, Forall (λ c, rank kv.1 < rank c) kv.2) pipelines →
  acyclic pipelines.
Proof.
  intros Hrank.
  assert (∀ p c, tc (edge pipelines) p c → rank p < rank c) as Htc.
  { assert (∀ p c, edge pipelines p c → rank p < rank c) as Hedge.
    { intros p c Hpc. unfold edge, PipelineComposition.children_of in Hpc.
      destruct (dict_get pipelines p) as [cs|] eqn:E; [|set_solver].
      apply dict_get_elem in E. rewrite Forall_forall in Hrank.
      specialize (Hrank _ E). rewrite Forall_forall in Hrank. by apply Hrank. }
    induction 1 as [p c H|p z c H _ IH]; [by apply Hedge|].
    apply Hedge in H. lia. }
  intros p Hp. apply Htc in Hp. lia.
Qed.

(** The scenario [{A: [B, C], B: [C], C: []}] with [A], [B], [C] as
    [0], [1], [2]: whatever the order in which the set is iterated, [run]
    calls [A], then [B], then [C]. *)
Example scenario_order (iteration : list pid) :
  iteration ≡ₚ [0; 1; 2] →
  let pipelines := [(0, [1; 2]); (1, [2]); (2, [])] in
  let outcome :=
    PipelineComposition.run 4 (PipelineComposition.__init__ ∅ pipelines)
      pipelines iteration in
  outcome.1.2 = [0; 1; 2] ∧ outcome.2 = Ok ().
Proof.
  intros Hperm.
  assert (iteration ∈ permutations [0; 1; 2]) as Hin
    by (by apply permutations_Permutation).
  vm_compute in Hin.
  repeat (apply elem_of_cons in Hin as [->|Hin]; [by split|]).
  by apply elem_of_nil in Hin.
Qed.

(** The roots are read from the parent lists in the heap, not from the
    adjacency: after a second composition [{2: [0]}] has been built over
    pipeline [0], the first one, [{0: [1]}], finds no root. *)
Example order_after_another_composition :
  let first := [(0, [1])] in
  let h1 := PipelineComposition.__init__ ∅ first in
  let h2 := PipelineComposition.__init__ h1 [(2, [0])] in
  PipelineComposition._topological_sort 3 h1 first [0; 1] = Ok [0; 1] ∧
  PipelineComposition._topological_sort 3 h2 first [0; 1] = Ok [].
Proof. split; reflexivity. Qed.

Example diamond_order :
  PipelineComposition._topological_sort 5
    (PipelineComposition.__init__ ∅ diamond) diamond [3; 2; 1; 0] = Ok [0; 2; 1; 3].
Proof. reflexivity. Qed.

(** * Further properties *)

(** ** The artifacts of a pipeline *)

Lemma save_artifact_lookup (h : heap) (self q : pid) (n : string) (v : value) :
  save_artifact h self n v !!! q =
    if decide (self = q)
    then set_artifacts (<[n := v]> (artifacts (h !!! self))) (h !!! self)
    else h !!! q.
Proof. unfold save_artifact. by rewrite update_lookup. Qed.

Lemma for_parent_ext (get1 get2 : pid → result value) n d raise ps :
  (∀ q, q ∈ ps → get1 q = get2 q) →
  for_parent get1 n d raise ps = for_parent get2 n d raise ps.
Proof.
  induction ps as [|q ps IH]; intros Heq; [done|]. simpl.
  rewrite (Heq q) by (apply elem_of_cons; by left).
  rewrite IH; [done|]. intros q' Hq'. apply Heq, elem_of_cons. by right.
Qed.

(** What was saved is what the pipeline's own lookup returns, whatever its
    parents hold and whether or not the lookup may raise; lookups of other
    names, from any pipeline, are as before. *)
Theorem get_after_save (fuel : nat) (h : heap) (self : pid) (n : string)
    (v default : value) (raise_not_found : bool) :
  get_artifact (S fuel) (save_artifact h self n v) self n default raise_not_found
    = Ok v ∧
  ∀ q m, m ≠ n →
    get_artifact fuel (save_artifact h self n v) q m default raise_not_found =
    get_artifact fuel h q m default raise_not_found.
Proof.
  split.
  - simpl. rewrite save_artifact_lookup, decide_True by done. simpl.
    unfold ArtifactInMemory.get_artifact. rewrite lookup_insert_eq.
    by rewrite bool_decide_eq_false_2, andb_false_r.
  - intros q m Hne. revert q. induction fuel as [|fuel IH]; intros q; [done|].
    simpl. unfold parents. rewrite save_artifact_lookup.
    destruct (decide (self = q)) as [->|Hq]; simpl.
    + unfold ArtifactInMemory.get_artifact. rewrite lookup_insert_ne by done.
      destruct (_ && _); [|done]. by apply for_parent_ext.
    + destruct (ArtifactInMemory.get_artifact _ m default raise_not_found)
        as [?|[]|]; try done. by apply for_parent_ext.
Qed.

Lemma get_after_save_witness :
  get_artifact 2 (save_artifact family 1 "x" (VInt 7)) 1 "x" VNone true
    = Ok (VInt 7) ∧
  get_artifact 2 (save_artifact family 1 "y" (VInt 7)) 1 "x" VNone true
    = Ok (VInt 5).
Proof.
  split.
  - apply (get_after_save 1 family 1 "x" (VInt 7) VNone true).
  - destruct (get_after_save 2 family 1 "y" (VInt 7) VNone true) as [_ H].
    rewrite (H 1 "x") by discriminate. reflexivity.
Defined.


Lemma del_artifact_lookup (h : heap) (self q : pid) (n : string) :
  del_artifact h self n !!! q =
    if decide (self = q)
    then set_artifacts (delete n (artifacts (h !!! self))) (h !!! self)
    else h !!! q.
Proof. unfold del_artifact. by rewrite update_lookup. Qed.

(** After [del_artifact] the pipeline's own store no longer answers for the
    name: the lookup that does not raise returns the default, and the one
    that raises goes on to the parents (a pipeline without parents raises
    [ArtifactNotFoundError]); deleting a name that is not stored changes no
    pipeline. *)
Theorem get_after_del (fuel : nat) (h : heap) (self : pid) (n : string)
    (default : value) :
  get_artifact (S fuel) (del_artifact h self n) self n default false = Ok default ∧
  get_artifact (S fuel) (del_artifact h self n) self n default true =
    for_parent
      (λ parent, get_artifact fuel (del_artifact h self n) parent n default true)
      n default true (parents h self) ∧
  (parents h self = [] →
   get_artifact (S fuel) (del_artifact h self n) self n default true =
     Raise (ArtifactNotFoundError n)) ∧
  (artifacts (h !!! self) !! n = None → ∀ q, del_artifact h self n !!! q = h !!! q).
Proof.
  assert (get_artifact (S fuel) (del_artifact h self n) self n default true =
    for_parent
      (λ parent, get_artifact fuel (del_artifact h self n) parent n default true)
      n default true (parents h self)) as Hreq.
  { simpl. unfold parents. rewrite del_artifact_lookup, decide_True by done.
    simpl. unfold ArtifactInMemory.get_artifact. by rewrite lookup_delete_eq. }
  split_and!.
  - simpl. rewrite del_artifact_lookup, decide_True by done. simpl.
    unfold ArtifactInMemory.get_artifact. by rewrite lookup_delete_eq.
  - done.
  - intros Hnone. by rewrite Hreq, Hnone.
  - intros Habsent q. rewrite del_artifact_lookup.
    destruct (decide (self = q)) as [<-|]; [|done].
    rewrite delete_id by done. by destruct (h !!! self).
Qed.

Lemma get_after_del_witness :
  get_artifact 2 (del_artifact (save_artifact family 1 "x" (VInt 7)) 1 "x")
    1 "x" VNone true = Ok (VInt 5) ∧
  get_artifact 1 (del_artifact family 0 "x") 0 "x" VNone true =
    Raise (ArtifactNotFoundError "x") ∧
  del_artifact family 1 "x" !!! 1 = family !!! 1.
Proof.
  split; [|split].
  - destruct (get_after_del 1 (save_artifact family 1 "x" (VInt 7)) 1 "x" VNone)
      as (_ & -> & _). reflexivity.
  - destruct (get_after_del 0 family 0 "x" VNone) as (_ & _ & H & _).
    apply H. reflexivity.
  - destruct (get_after_del 0 family 1 "x" VNone) as (_ & _ & _ & H).
    apply H. reflexivity.
Defined.

(** The helper [PipelineStep.del_artifact] passes [soft], which
    [Pipeline.del_artifact] does not declare: the call raises [TypeError]
    and deletes nothing, so that every lookup is as before, and what a step
    has saved through [PipelineStep.save_artifact] is still read back. *)
Theorem step_del_artifact_raises (fuel : nat) (h : heap) (pipeline : pid)
    (artifact_name : string) (soft default artifact : value)
    (raise_not_found : bool) :
  step_del_artifact h pipeline artifact_name soft =
    (h, Raise (TypeError "got an unexpected keyword argument")) ∧
  step_get_artifact fuel (step_del_artifact h pipeline artifact_name soft).1
    pipeline artifact_name default raise_not_found =
  step_get_artifact fuel h pipeline artifact_name default raise_not_found ∧
  step_get_artifact (S fuel)
    (step_del_artifact (step_save_artifact h pipeline artifact_name artifact)
       pipeline artifact_name soft).1
    pipeline artifact_name default raise_not_found = Ok artifact.
Proof.
  split_and!; [reflexivity..|].
  change (get_artifact (S fuel) (save_artifact h pipeline artifact_name artifact)
            pipeline artifact_name default raise_not_found = Ok artifact).
  simpl. rewrite save_artifact_lookup, decide_True by done. simpl.
  unfold ArtifactInMemory.get_artifact. rewrite lookup_insert_eq.
  by rewrite bool_decide_eq_false_2, andb_false_r.
Qed.

(** ** Lookups that do not return *)

(** Where the name is stored nowhere in a set of pipelines each of which has
    a first parent in the set -- a cycle of parents -- the lookup that
    raises never returns, whatever fuel it is given. *)
Theorem get_artifact_cycle (h : heap) (cyc : pid → Prop) (n : string)
    (default : value) :
  (∀ p, cyc p → artifacts (h !!! p) !! n = None ∧
                ∃ q qs, parents h p = q :: qs ∧ cyc q) →
  ∀ fuel p, cyc p → get_artifact fuel h p n default true = Diverge.
Proof.
  intros Hcyc fuel. induction fuel as [|fuel IH]; intros p Hp; [done|].
  destruct (Hcyc p Hp) as (Hnone & q & qs & Hparents & Hq). simpl.
  unfold ArtifactInMemory.get_artifact. rewrite Hnone, Hparents. simpl.
  by rewrite (IH q Hq).
Qed.

Lemma get_artifact_cycle_witness :
  get_artifact 1000 (add_parent ∅ 0 0) 0 "x" VNone true = Diverge.
Proof.
  apply (get_artifact_cycle (add_parent ∅ 0 0) (λ p, p = 0) "x" VNone);
    [|reflexivity].
  intros p ->. split; [reflexivity|]. by exists 0, [].
Defined.


(** Where the parents are ranked -- there is no cycle among them -- every
    name resolves, and the lookup that raises returns for all fuel from
    some bound on: with the first hit, or raising [ArtifactNotFoundError]
    for the name. *)
Theorem get_artifact_ranked (h : heap) (rank : pid → nat) (n : string)
    (default : value) (self : pid) :
  (∀ p q, q ∈ parents h p → rank q < rank p) →
  ∃ r fuel0,
    resolves h n self r ∧
    ∀ fuel, fuel0 ≤ fuel →
      get_artifact fuel h self n default true = required_outcome n r.
Proof.
  intros Hrank.
  assert (∀ k p, rank p < k → ∃ r, resolves h n p r) as Hres.
  { induction k as [|k IH]; intros p Hk; [lia|].
    destruct (artifacts (h !!! p) !! n) as [v|] eqn:Hown.
    { exists (Some v). by apply resolves_own. }
    assert (∃ r, first_hit h n (parents h p) r) as [r Hr].
    { assert (∀ q, q ∈ parents h p → ∃ r, resolves h n q r) as Hall.
      { intros q Hq. apply IH. specialize (Hrank p q Hq). lia. }
      induction (parents h p) as [|q qs IHqs].
      - exists None. constructor.
      - destruct (Hall q) as [[v|] Hq]; [apply elem_of_cons; by left| |].
        + exists (Some v). by apply first_hit_here.
        + destruct IHqs as [r Hr].
          { intros q' Hq'. apply Hall, elem_of_cons. by right. }
          exists r. by apply first_hit_later. }
    exists r. by apply resolves_parents. }
  destruct (Hres (S (rank self)) self) as [r Hr]; [lia|].
  destruct (get_artifact_required h n default self r Hr) as [fuel0 Hfuel].
  by exists r, fuel0.
Qed.

Lemma get_artifact_ranked_witness :
  ∃ r fuel0,
    resolves family "x" 1 r ∧
    ∀ fuel, fuel0 ≤ fuel →
      get_artifact fuel family 1 "x" VNone true = required_outcome "x" r.
Proof.
  apply (get_artifact_ranked family (λ p, p) "x" VNone 1).
  intros p q Hq. unfold parents, family in Hq.
  destruct (decide (p = 0)) as [->|H0]; [by apply elem_of_nil in Hq|].
  destruct (decide (p = 1)) as [->|H1].
  - apply list_elem_of_singleton in Hq as ->. lia.
  - rewrite lookup_total_insert_ne, lookup_total_singleton_ne in Hq by done.
    by apply elem_of_nil in Hq.
Defined.

(** ** Parameter resolution *)

Lemma dict_set_fresh {V} (d : list (string * V)) (k : string) (v : V) :
  k ∉ d.*1 → dict_set d k v = d ++ [(k, v)].
Proof.
  induction d as [|[k0 v0] d IH]; intros Hk; [done|].
  rewrite fmap_cons, not_elem_of_cons in Hk. destruct Hk as [Hne Hk].
  cbn [dict_set]. rewrite decide_False by done. by rewrite IH.
Qed.

Lemma fill_params_ok (fuel : nat) (h : heap) (self : pid)
    (step_params : list (string * Param)) (params out : list (string * value)) :
  NoDup (params.*1 ++ step_params.*1) →
  fill_params fuel h self step_params params = Ok out →
  ∃ bound,
    out = params ++ bound ∧
    Forall2 (λ np kv, kv.1 = np.1 ∧ bound_to fuel h self np.1 np.2 kv.2)
      (filter (λ np, bindable np.2) step_params) bound.
Proof.
  revert params. induction step_params as [|[n param] sp IH]; intros params Hnd.
  - simpl. intros [= <-]. exists []. by rewrite app_nil_r.
  - rewrite fmap_cons in Hnd. cbn [fst] in Hnd.
    assert ((n ∉ params.*1) ∧ NoDup ((params.*1 ++ [n]) ++ sp.*1)) as [Hn Hnd'].
    { rewrite <- app_assoc. simpl. split; [|done..].
      apply NoDup_app in Hnd as (_ & Hdisj & _). intros Hin.
      apply (Hdisj n Hin). apply elem_of_cons. by left. }
    assert (∀ v, (dict_set params n v).*1 = params.*1 ++ [n]) as Hkeys.
    { intros v. by rewrite dict_set_fresh, fmap_app. }
    cbn [fill_params]. rewrite filter_cons. cbn [snd].
    case_bool_decide as Hvar.
    { rewrite decide_False by (intros Hb; by apply Hb). intros Hrun. apply IH; [|done].
      rewrite <- app_assoc in Hnd'. apply NoDup_app in Hnd' as (? & ? & Hr).
      apply NoDup_app. split_and!; [done| |by apply NoDup_cons in Hr as [_ ?]].
      intros x Hx Hx'. apply NoDup_app in Hnd as (_ & Hdisj & _).
      apply (Hdisj x Hx). apply elem_of_cons. by right. }
    rewrite decide_True by done.
    assert (∀ v, fill_params fuel h self sp (dict_set params n v) = Ok out →
                 bound_to fuel h self n param v →
                 ∃ bound, out = params ++ bound ∧
                   Forall2 (λ np kv, kv.1 = np.1 ∧ bound_to fuel h self np.1 np.2 kv.2)
                     ((n, param) :: filter (λ np, bindable np.2) sp) bound) as Hstep.
    { intros v Hrun Hv. apply IH in Hrun as (bound & -> & Hall).
      - exists ((n, v) :: bound). rewrite dict_set_fresh, <- app_assoc by done.
        split; [done|]. by constructor.
      - by rewrite Hkeys. }
    unfold bound_to in Hstep. case_bool_decide as Hpipe.
    + intros Hrun. apply (Hstep _ Hrun). by rewrite decide_True.
    + unfold param_lookup in Hstep.
      destruct (param_default param) as [d|] eqn:Hd.
      * destruct (get_artifact fuel h self n d false) as [v| |] eqn:Hget; [|done..].
        intros Hrun. apply (Hstep _ Hrun). by rewrite decide_False.
      * destruct (get_artifact fuel h self n VNone true) as [v| |] eqn:Hget; [|done..].
        intros Hrun. apply (Hstep _ Hrun). by rewrite decide_False.
Qed.

(** What [__fill_params_from_step] returns: one entry for each declared
    parameter other than [*args] and [**kwargs], in the order of the
    signature; the parameter named [pipeline] is bound to the pipeline
    itself (an artifact of that name is never used), every other one to
    what its lookup returned. *)
Theorem fill_params_from_step_ok (fuel : nat) (h : heap) (self : pid)
    (step : PipelineStep) (params : list (string * value)) :
  NoDup (signature step).*1 →
  __fill_params_from_step fuel h self step = Ok params →
  Forall2 (λ np kv, kv.1 = np.1 ∧ bound_to fuel h self np.1 np.2 kv.2)
    (filter (λ np, bindable np.2) (signature step)) params.
Proof.
  intros Hnd Hrun. apply fill_params_ok in Hrun as (bound & -> & Hall); done.
Qed.

Lemma fill_params_from_step_ok_witness :
  Forall2 (λ np kv, kv.1 = np.1 ∧ bound_to 2 family 1 np.1 np.2 kv.2)
    (filter (λ np, bindable np.2) (signature DummyStep))
    [("pipeline", VPipeline 1); ("x", VNone)].
Proof.
  apply (fill_params_from_step_ok 2 family 1 DummyStep).
  - apply (bool_decide_unpack _). reflexivity.
  - reflexivity.
Defined.








(** ** What a run does to the heap *)

Lemma dict_get_None {V} (d : list (string * V)) (k : string) :
  k ∉ d.*1 → dict_get d k = None.
Proof.
  induction d as [|[k0 v0] d IH]; intros Hk; [done|].
  rewrite fmap_cons, not_elem_of_cons in Hk. destruct Hk as [Hne Hk].
  cbn [dict_get]. rewrite decide_False by done. by apply IH.
Qed.

Lemma save_step_artifacts_other (d : list (string * value)) (h : heap)
    (self q : pid) :
  q ≠ self → __save_step_artifacts h self d !!! q = h !!! q.
Proof.
  intros Hq. revert h. induction d as [|[k v] d IH]; intros h; [done|].
  unfold __save_step_artifacts in *. cbn [foldl fst snd].
  rewrite IH, save_artifact_lookup. by rewrite decide_False.
Qed.

Lemma save_step_artifacts_name (d : list (string * value)) (h : heap)
    (self : pid) :
  name (__save_step_artifacts h self d !!! self) = name (h !!! self).
Proof.
  revert h. induction d as [|[k v] d IH]; intros h; [done|].
  unfold __save_step_artifacts in *. cbn [foldl fst snd].
  rewrite IH, save_artifact_lookup. by rewrite decide_True.
Qed.

(** The store after the items of a dictionary were saved. *)
Lemma save_step_artifacts_store (d : list (string * value)) (h : heap)
    (self : pid) (k : string) :
  NoDup d.*1 →
  artifacts (__save_step_artifacts h self d !!! self) !! k =
    match dict_get d k with
    | Some v => Some v
    | None => artifacts (h !!! self) !! k
    end.
Proof.
  revert h. induction d as [|[k0 v0] d IH]; intros h Hnd; [done|].
  rewrite fmap_cons, NoDup_cons in Hnd. destruct Hnd as [Hk0 Hnd].
  unfold __save_step_artifacts in *. cbn [foldl fst snd dict_get].
  rewrite IH, save_artifact_lookup, decide_True by done. simpl.
  destruct (decide (k0 = k)) as [<-|Hne].
  - by rewrite dict_get_None, lookup_insert_eq.
  - rewrite lookup_insert_ne by done. done.
Qed.

Lemma save_step_artifacts_keeps (d : list (string * value)) (h : heap)
    (self : pid) (k : string) :
  is_Some (artifacts (h !!! self) !! k) →
  is_Some (artifacts (__save_step_artifacts h self d !!! self) !! k).
Proof.
  revert h. induction d as [|[k0 v0] d IH]; intros h Hk; [done|].
  unfold __save_step_artifacts in *. cbn [foldl fst snd]. apply IH.
  rewrite save_artifact_lookup, decide_True by done. simpl.
  destruct (decide (k0 = k)) as [<-|Hne].
  - by rewrite lookup_insert_eq.
  - by rewrite lookup_insert_ne.
Qed.

Lemma run_steps_heap (fuel : nat) (self : pid) (todo : list PipelineStep)
    (h h' : heap) (called : list PipelineStep) (r : result ()) :
  run_steps fuel h self todo = (h', called, r) →
  (∀ q, q ≠ self → h' !!! q = h !!! q) ∧
  name (h' !!! self) = name (h !!! self) ∧
  _parents (h' !!! self) = _parents (h !!! self) ∧
  (∀ k, is_Some (artifacts (h !!! self) !! k) →
        is_Some (artifacts (h' !!! self) !! k)).
Proof.
  revert h h' called r.
  induction todo as [|step rest IH]; intros h h' called r; simpl.
  - by intros [= <- <- <-].
  - destruct (__fill_params_from_step fuel h self step) as [params|e|];
      [|by intros [= <- <- <-]..].
    destruct (execute step [] params ≫= items_to_save) as [d|e|];
      [|by intros [= <- <- <-]..].
    destruct (run_steps fuel _ self rest) as [[h3 called3] r3] eqn:E.
    intros [= <- <- <-]. apply IH in E as (Hother & Hname & Hpar & Hkeep).
    rewrite update_lookup_eq in Hname, Hpar. simpl in Hname, Hpar.
    destruct (save_step_artifacts_frame self d h) as (_ & _ & Hpar' & _).
    simpl in Hpar'. split_and!.
    + intros q Hq. rewrite Hother, update_lookup_ne by done.
      by apply save_step_artifacts_other.
    + by rewrite Hname, save_step_artifacts_name.
    + by rewrite Hpar, Hpar'.
    + intros k Hk. apply Hkeep. rewrite update_lookup_eq. simpl.
      by apply save_step_artifacts_keeps.
Qed.



(** The items the last step returns are in the store after a run that ends
    normally, over whatever the store held when that step began; the run
    sets [finished] and records the step.  [None] counts as no items. *)
Theorem run_persists_outputs (fuel : nat) (h h1 : heap) (self : pid)
    (before : list PipelineStep) (step : PipelineStep)
    (params d : list (string * value)) (ret : value) :
  finished (h !!! self) = false →
  steps (h !!! self) = before ++ [step] →
  run_steps fuel h self before = (h1, before, Ok ()) →
  __fill_params_from_step fuel h1 self step = Ok params →
  execute step [] params = Ok ret →
  items_to_save ret = Ok d →
  NoDup d.*1 →
  ∃ h2,
    run fuel h self = (h2, before ++ [step], Ok ()) ∧
    finished (h2 !!! self) = true ∧
    _processed_stack (h2 !!! self) =
      _processed_stack (h !!! self) ++ before ++ [step] ∧
    ∀ k, artifacts (h2 !!! self) !! k =
           match dict_get d k with
           | Some v => Some v
           | None => artifacts (h1 !!! self) !! k
           end.
Proof.
  intros Hfin Hsteps Hbefore Hparams Hbody Hitems Hnd.
  unfold run. rewrite Hfin, Hsteps, (run_steps_app _ _ _ _ _ _ _ Hbefore).
  simpl. rewrite Hparams, Hbody. simpl. rewrite Hitems.
  eexists. split; [done|]. rewrite !update_lookup_eq. simpl.
  apply run_steps_frame in Hbefore as (_ & _ & completed & Hst & _ & _ & _ & Hok).
  destruct (Hok eq_refl) as [-> _].
  destruct (save_step_artifacts_frame self d h1) as (_ & _ & _ & Hst').
  simpl in Hst'. split_and!; [done| |].
  - by rewrite Hst', Hst, <- app_assoc.
  - intros k. by apply save_step_artifacts_store.
Qed.

Lemma run_persists_outputs_witness :
  ∃ h2,
    run 1 scenario_heap 0 = (h2, [AddOne], Ok ()) ∧
    finished (h2 !!! 0) = true ∧
    _processed_stack (h2 !!! 0) = [AddOne] ∧
    ∀ k, artifacts (h2 !!! 0) !! k =
           match dict_get [("y", VInt 6)] k with
           | Some v => Some v
           | None => artifacts (scenario_heap !!! 0) !! k
           end.
Proof.
  apply (run_persists_outputs 1 scenario_heap scenario_heap 0 [] AddOne
           [("x", VInt 5)] [("y", VInt 6)] (VDict [("y", VInt 6)]));
    try reflexivity.
  apply (bool_decide_unpack _). reflexivity.
Defined.

(** A step that returns something other than a mapping or [None] makes the
    run raise [AttributeError]: nothing of it is saved, the step is not
    recorded, [finished] stays false and no later step is called. *)
Theorem run_step_returns_no_mapping (fuel : nat) (h h1 : heap) (self : pid)
    (before after : list PipelineStep) (step : PipelineStep)
    (params : list (string * value)) (ret : value) :
  finished (h !!! self) = false →
  steps (h !!! self) = before ++ step :: after →
  run_steps fuel h self before = (h1, before, Ok ()) →
  __fill_params_from_step fuel h1 self step = Ok params →
  execute step [] params = Ok ret →
  ret ≠ VNone → (∀ d, ret ≠ VDict d) →
  run fuel h self = (h1, before ++ [step], Raise (AttributeError "items")) ∧
  finished (h1 !!! self) = false ∧
  _processed_stack (h1 !!! self) = _processed_stack (h !!! self) ++ before.
Proof.
  intros Hfin Hsteps Hbefore Hparams Hbody Hnone Hdict.
  assert (items_to_save ret = Raise (AttributeError "items")) as Hitems.
  { destruct ret; try done. by destruct (Hdict items). }
  unfold run. rewrite Hfin, Hsteps, (run_steps_app _ _ _ _ _ _ _ Hbefore).
  simpl. rewrite Hparams, Hbody. simpl. rewrite Hitems. split; [done|].
  apply run_steps_frame in Hbefore as (Hf & _ & completed & Hst & _ & _ & _ & Hok).
  destruct (Hok eq_refl) as [-> _]. by rewrite Hf.
Qed.

Lemma run_step_returns_no_mapping_witness :
  let h : heap :=
    {[ 0 := {| name := "p"; steps := [DummyStepForCache "s" 1; DummyStep];
              artifacts := ∅; finished := false; _parents := [];
              _processed_stack := [] |} ]} in
  run 1 h 0 = (h, [DummyStepForCache "s" 1], Raise (AttributeError "items")) ∧
  finished (h !!! 0) = false ∧
  _processed_stack (h !!! 0) = [].
Proof.
  intros h.
  apply (run_step_returns_no_mapping 1 h h 0 [] [DummyStep]
           (DummyStepForCache "s" 1) [("x", VInt 0)] (VInt 1));
    try reflexivity; try discriminate.
Defined.

(** ** Walking the history backwards *)

Lemma execute_inverse_base (s : PipelineStep) (pipeline : pid)
    (kwargs : list (string * value)) :
  inverse s = None →
  (¬ names_parameter kwargs → execute_inverse s pipeline kwargs = Ok []) ∧
  (names_parameter kwargs →
   execute_inverse s pipeline kwargs
     = Raise (TypeError "multiple values for argument")).
Proof.
  intros H. unfold execute_inverse. rewrite H.
  destruct (bind_execute_inverse (VStr (_name s)) (VPipeline pipeline) kwargs)
    as [Hok Hclash].
  split; [intros [bound ->]%Hok|intros ->%Hclash]; done.
Qed.

Lemma fold_inverse_app (self : pid) (l1 l2 : list PipelineStep)
    (kwargs : list (string * value)) :
  fold_inverse self (l1 ++ l2) kwargs =
    fold_inverse self l1 kwargs ≫= fold_inverse self l2.
Proof.
  revert kwargs. induction l1 as [|s l1 IH]; intros kwargs; [done|].
  simpl. destruct (execute_inverse s self kwargs) as [r|e|]; [|done..].
  apply IH.
Qed.

Lemma bind_reverse_steps (a : value) (kwargs : list (string * value)) :
  (dict_get kwargs "self" = None →
   ∃ bound, bind reverse_steps_params [a] kwargs = Ok bound) ∧
  (is_Some (dict_get kwargs "self") →
   bind reverse_steps_params [a] kwargs
     = Raise (TypeError "multiple values for argument")).
Proof.
  unfold bind, reverse_steps_params. cbn. eval_closed_decisions. split.
  - intros ->. eval_closed_decisions.
    case_bool_decide; cbn; eval_closed_decisions; destruct kwargs; by eexists.
  - intros [v ->]. by eval_closed_decisions.
Qed.

(** [reverse_steps] called with a keyword [self] raises [TypeError].
    Otherwise: with an empty history it returns its keyword arguments;
    when the step that ran first does not override [execute_inverse], the
    arguments and all that the inverses of the later steps returned are
    dropped -- the result is the empty mapping, or [TypeError] when what
    reaches that step has a key [self] or [pipeline], or what one of the
    later inverses raised. *)
Theorem reverse_steps_first_without_inverse (h : heap) (self : pid)
    (kwargs : list (string * value)) :
  (is_Some (dict_get kwargs "self") →
   reverse_steps h self kwargs = Raise (TypeError "multiple values for argument")) ∧
  (dict_get kwargs "self" = None → _processed_stack (h !!! self) = [] →
   reverse_steps h self kwargs = Ok kwargs) ∧
  (∀ first rest,
     dict_get kwargs "self" = None →
     _processed_stack (h !!! self) = first :: rest →
     inverse first = None →
     reverse_steps h self kwargs =
       match fold_inverse self (reverse rest) kwargs with
       | Ok r =>
           if decide (names_parameter r)
           then Raise (TypeError "multiple values for argument")
           else Ok []
       | r => r
       end).
Proof.
  unfold reverse_steps.
  destruct (bind_reverse_steps (VPipeline self) kwargs) as [Hok Hclash].
  split_and!.
  - intros ->%Hclash. done.
  - intros [bound ->]%Hok ->. done.
  - intros first rest [bound ->]%Hok -> Hinv. cbn [mbind result_bind].
    rewrite reverse_cons, fold_inverse_app.
    destruct (fold_inverse self (reverse rest) kwargs) as [r|e|]; [|done..].
    simpl.
    destruct (execute_inverse_base first self r Hinv) as [Hempty Hraise].
    case_decide as Hr; [rewrite (Hraise Hr)|rewrite (Hempty Hr)]; done.
Qed.

Lemma reverse_steps_first_without_inverse_witness :
  let h : heap :=
    {[ 0 := {| name := "p"; steps := [DummyStep; Passing]; artifacts := ∅;
              finished := false; _parents := []; _processed_stack := [] |} ]} in
  let h1 := (run 1 h 0).1.1 in
  reverse_steps h 0 [("y", VInt 1)] = Ok [("y", VInt 1)] ∧
  reverse_steps h1 0 [("self", VInt 1)]
    = Raise (TypeError "multiple values for argument") ∧
  reverse_steps h1 0 [("y", VInt 1)] = Ok [] ∧
  reverse_steps h1 0 [("pipeline", VInt 1)]
    = Raise (TypeError "multiple values for argument").
Proof.
  intros h h1. split_and!.
  - destruct (reverse_steps_first_without_inverse h 0 [("y", VInt 1)])
      as (_ & H & _). by apply H.
  - destruct (reverse_steps_first_without_inverse h1 0 [("self", VInt 1)])
      as (H & _). apply H. by exists (VInt 1).
  - destruct (reverse_steps_first_without_inverse h1 0 [("y", VInt 1)])
      as (_ & _ & H). by rewrite (H DummyStep [Passing]).
  - destruct (reverse_steps_first_without_inverse h1 0 [("pipeline", VInt 1)])
      as (_ & _ & H). by rewrite (H DummyStep [Passing]).
Defined.

(** ** Adding steps *)

Lemma list_insert_at_split {A} (l : list A) (i : Z) (x : A) :
  fits_ssize_t i →
  ∃ k, k ≤ length l ∧ list_insert_at l i x = Ok (take k l ++ x :: drop k l) ∧
       ((Z.of_nat (length l) ≤ i)%Z → k = length l) ∧
       ((i ≤ - Z.of_nat (length l))%Z → k = 0).
Proof.
  intros Hfits. unfold list_insert_at. rewrite bool_decide_eq_true_2 by done.
  cbv zeta.
  exists (Z.to_nat (if bool_decide (i < 0)%Z
                    then Z.max 0 (i + Z.of_nat (length l))
                    else Z.min i (Z.of_nat (length l)))).
  split_and!; [|reflexivity| |]; case_bool_decide; lia.
Qed.

(** [add_step] with a position that fits [Py_ssize_t], or with none, puts
    in exactly one step and keeps the steps that were there in their
    order, also for a position that is negative or out of range: one at or
    beyond the length appends like no position at all, one at or below
    minus the length puts the step first; nothing else of the pipeline
    changes.  With a position that does not fit, [add_step] raises
    [OverflowError] and changes nothing. *)
Theorem add_step_inserts (h : heap) (self : pid) (step : PipelineStep)
    (position : option Z) :
  let old := steps (h !!! self) in
  let out := add_step h self step position in
  let pl := out.1 !!! self in
  ((∀ i, position = Some i → fits_ssize_t i) →
   out.2 = Ok () ∧
   length (steps pl) = S (length old) ∧
   step ∈ steps pl ∧
   old `sublist_of` steps pl ∧
   (∀ i, position = Some i → (Z.of_nat (length old) ≤ i)%Z →
         steps pl = old ++ [step]) ∧
   (position = None → steps pl = old ++ [step]) ∧
   (∀ i, position = Some i → (i ≤ - Z.of_nat (length old))%Z →
         steps pl = step :: old) ∧
   artifacts pl = artifacts (h !!! self) ∧
   finished pl = finished (h !!! self) ∧
   _parents pl = _parents (h !!! self) ∧
   _processed_stack pl = _processed_stack (h !!! self)) ∧
  (∀ i, position = Some i → ¬ fits_ssize_t i →
     out = (h, Raise (OverflowError "Python int too large to convert to C ssize_t"))).
Proof.
  intros old out pl. subst out pl. unfold add_step. split.
  - intros Hfits. destruct position as [i|].
    + destruct (list_insert_at_split old i step) as (k & Hk & Hins & Hend & Hstart);
        [by apply Hfits|].
      fold old. rewrite Hins. simpl. rewrite update_lookup_eq. simpl.
      split_and!; try done.
      * rewrite length_app, length_take. simpl. rewrite length_drop. lia.
      * set_solver.
      * rewrite <- (take_drop k old) at 1.
        apply sublist_app; [done|]. by apply sublist_cons.
      * intros ? [= <-] Hi. by rewrite (Hend Hi), firstn_all, drop_all.
      * intros ? [= <-] Hi. by rewrite (Hstart Hi).
    + simpl. rewrite update_lookup_eq. simpl. fold old.
      split_and!; try done.
      * rewrite length_app. simpl. lia.
      * set_solver.
      * by apply sublist_inserts_r.
  - intros i -> Hout. unfold list_insert_at.
    by rewrite bool_decide_eq_false_2.
Qed.

Lemma add_step_inserts_witness :
  let h1 := (add_step dummy_heap 0 AddOne (Some 7%Z)).1 in
  let h2 := (add_step h1 0 Passing (Some (-1)%Z)).1 in
  steps (h1 !!! 0) = [DummyStep; AddOne] ∧
  steps ((add_step dummy_heap 0 AddOne (Some (-5)%Z)).1 !!! 0)
    = [AddOne; DummyStep] ∧
  steps (h2 !!! 0) = [DummyStep; Passing; AddOne] ∧
  add_step dummy_heap 0 AddOne (Some (2 ^ 63)%Z) =
    (dummy_heap,
     Raise (OverflowError "Python int too large to convert to C ssize_t")).
Proof.
  intros h1 h2. split_and!.
  - destruct (add_step_inserts dummy_heap 0 AddOne (Some 7%Z)) as [H _].
    destruct H as (_ & _ & _ & _ & H & _).
    + intros i [= <-]. by vm_compute.
    + apply (H 7%Z); [reflexivity|]. by vm_compute.
  - destruct (add_step_inserts dummy_heap 0 AddOne (Some (-5)%Z)) as [H _].
    destruct H as (_ & _ & _ & _ & _ & _ & H & _).
    + intros i [= <-]. by vm_compute.
    + apply (H (-5)%Z); [reflexivity|]. by vm_compute.
  - reflexivity.
  - destruct (add_step_inserts dummy_heap 0 AddOne (Some (2 ^ 63)%Z)) as [_ H].
    apply (H (2 ^ 63)%Z); [reflexivity|].
    unfold fits_ssize_t, PY_SSIZE_T_MIN, PY_SSIZE_T_MAX. lia.
Defined.

(** A step added to a finished pipeline is not run: [add_step] leaves
    [finished] set, so [run] still does nothing. *)
Theorem add_step_after_finish (fuel : nat) (h : heap) (self : pid)
    (step : PipelineStep) (position : option Z) :
  finished (h !!! self) = true →
  run fuel (add_step h self step position).1 self =
    ((add_step h self step position).1, [], Ok ()).
Proof.
  intros Hfin. unfold run.
  assert (finished ((add_step h self step position).1 !!! self) = true) as ->;
    [|done].
  unfold add_step. destruct position as [i|]; simpl.
  - destruct (list_insert_at _ i step) as [l|e|]; simpl; [|done..].
    by rewrite update_lookup_eq.
  - by rewrite update_lookup_eq.
Qed.

Lemma add_step_after_finish_witness :
  let h1 := (run 1 scenario_heap 0).1.1 in
  run 1 (add_step h1 0 FailingStep None).1 0 =
    ((add_step h1 0 FailingStep None).1, [], Ok ()).
Proof.
  intros h1. apply (add_step_after_finish 1 h1 0 FailingStep None). reflexivity.
Defined.

(** ** More on the construction of a composition *)

Lemma same_but_parents_trans (a b c : Pipeline) :
  same_but_parents a b → same_but_parents b c → same_but_parents a c.
Proof.
  unfold same_but_parents. intros (-> & -> & -> & -> & ->). done.
Qed.

Lemma add_parent_fields (h : heap) (child parent q : pid) :
  same_but_parents (add_parent h child parent !!! q) (h !!! q).
Proof.
  unfold add_parent. case_bool_decide; [done|].
  rewrite update_lookup. by destruct (decide (child = q)) as [->|].
Qed.

Lemma init_fields (pipelines : list (nat * list nat)) (h : heap) (q : pid) :
  same_but_parents (PipelineComposition.__init__ h pipelines !!! q) (h !!! q).
Proof.
  unfold PipelineComposition.__init__, PipelineComposition._set_parents.
  assert (∀ l h0, same_but_parents
            (foldl (λ h1 kv, foldl (λ h2 child, add_parent h2 child kv.1) h1 kv.2)
               h0 l !!! q) (h0 !!! q)) as Hassign.
  { induction l as [|[k cs] l IH]; intros h0; [done|]. cbn [foldl fst snd].
    eapply same_but_parents_trans; [apply IH|]. clear IH.
    revert h0. induction cs as [|c cs IHcs]; intros h0; [done|].
    cbn [foldl]. eapply same_but_parents_trans; [apply IHcs|].
    apply add_parent_fields. }
  eapply same_but_parents_trans; [apply Hassign|]. clear Hassign.
  revert h. induction pipelines as [|[k cs] l IH]; intros h; [done|].
  cbn [foldl fst]. eapply same_but_parents_trans; [apply IH|].
  rewrite update_lookup. by destruct (decide (k = q)) as [->|].
Qed.

Lemma listing_keys_nil (pipelines : list (nat * list nat)) (x : pid) :
  x ∉ mjoin pipelines.*2 → listing_keys pipelines x = [].
Proof.
  unfold listing_keys. induction pipelines as [|[k cs] l IH]; [done|].
  rewrite fmap_cons. cbn [snd mjoin list_join]. rewrite not_elem_of_app.
  intros [Hcs Hl]. rewrite filter_cons, decide_False by done. by apply IH.
Qed.

(** Building a composition changes parent lists only -- names, steps,
    stores, flags and histories are as before -- and only those of the
    pipelines it refers to. *)
Theorem init_changes_parents_only (h : heap) (pipelines : list (nat * list nat))
    (q : pid) :
  same_but_parents (PipelineComposition.__init__ h pipelines !!! q) (h !!! q) ∧
  (q ∉ PipelineComposition.all_pipelines pipelines →
   PipelineComposition.__init__ h pipelines !!! q = h !!! q).
Proof.
  split; [apply init_fields|]. intros Hq.
  pose proof (init_fields pipelines h q) as (Hn & Hs & Ha & Hf & Hst).
  assert (_parents (PipelineComposition.__init__ h pipelines !!! q) =
          _parents (h !!! q)) as Hp.
  { change (parents (PipelineComposition.__init__ h pipelines) q = parents h q).
    unfold PipelineComposition.all_pipelines in Hq.
    rewrite parents_after_init, bool_decide_eq_false_2, listing_keys_nil; set_solver. }
  destruct (PipelineComposition.__init__ h pipelines !!! q), (h !!! q).
  simpl in *. by subst.
Qed.

Lemma init_changes_parents_only_witness :
  PipelineComposition.__init__ family diamond !!! 7 = family !!! 7.
Proof.
  destruct (init_changes_parents_only family diamond 7) as [_ H].
  apply H. apply (bool_decide_unpack _). reflexivity.
Defined.

Lemma foldl_add_one_elem (ks acc : list pid) (k : pid) :
  k ∈ acc ∨ k ∈ ks → k ∈ foldl add_one acc ks.
Proof.
  revert acc. induction ks as [|k0 ks IH]; intros acc [H|H]; simpl.
  - done.
  - by apply elem_of_nil in H.
  - apply IH. left. unfold add_one. case_bool_decide; set_solver.
  - apply IH. apply elem_of_cons in H as [->|H]; [left|by right].
    unfold add_one. case_bool_decide; set_solver.
Qed.

Lemma foldl_add_one_present (ks acc : list pid) :
  (∀ k, k ∈ ks → k ∈ acc) → foldl add_one acc ks = acc.
Proof.
  induction ks as [|k0 ks IH]; intros Hall; [done|]. simpl.
  assert (add_one acc k0 = acc) as ->.
  { unfold add_one. rewrite bool_decide_eq_true_2; [done|].
    apply Hall. set_solver. }
  apply IH. intros k Hk. apply Hall. set_solver.
Qed.

(** Building the same composition a second time changes nothing. *)
Theorem init_idempotent (h : heap) (pipelines : list (nat * list nat)) (q : pid) :
  PipelineComposition.__init__ (PipelineComposition.__init__ h pipelines) pipelines
    !!! q =
  PipelineComposition.__init__ h pipelines !!! q.
Proof.
  set (h1 := PipelineComposition.__init__ h pipelines).
  pose proof (init_fields pipelines h1 q) as (Hn & Hs & Ha & Hf & Hst).
  assert (_parents (PipelineComposition.__init__ h1 pipelines !!! q) =
          _parents (h1 !!! q)) as Hp.
  { change (parents (PipelineComposition.__init__ h1 pipelines) q = parents h1 q).
    unfold h1. rewrite parents_after_init, (parents_after_init h).
    case_bool_decide; [done|].
    apply foldl_add_one_present. intros k Hk. apply foldl_add_one_elem. by right. }
  destruct (PipelineComposition.__init__ h1 pipelines !!! q), (h1 !!! q).
  simpl in *. by subst.
Qed.

(** ** More on the cache wrappers *)

Section cache_frame.
Context (dumps : value → option (list Byte.byte))
        (sha256_hexdigest : list Byte.byte → string)
        (pickle_dump : value → list Byte.byte * result ())
        (pickle_load : list Byte.byte → result value).

(** The wrappers only ever add entries: a call keeps every cache entry and
    every file as it is.  The in-memory wrapper writes no file and the disk
    wrapper no cache entry, and each call runs the body at most once. *)
Theorem cache_entries_kept :
  (∀ (self : InMemoryCacheWrapper.t) args kwargs (w w1 : world) (r : result value),
     InMemoryCacheWrapper.execute dumps sha256_hexdigest self args kwargs w
       = (w1, r) →
     cache w ⊆ cache w1 ∧ files w1 = files w ∧
     (calls w1 = calls w ∨
      calls w1 = calls w ++ [(InMemoryCacheWrapper.step self, args, kwargs)])) ∧
  (∀ (self : InDiskCacheWrapper.t) args kwargs (w w1 : world) (r : result value),
     InDiskCacheWrapper.execute dumps sha256_hexdigest pickle_dump pickle_load
       self args kwargs w = (w1, r) →
     files w ⊆ files w1 ∧ cache w1 = cache w ∧
     (calls w1 = calls w ∨
      calls w1 = calls w ++ [(InDiskCacheWrapper.step self, args, kwargs)])).
Proof.
  split.
  - intros self args kwargs w w1 r. unfold InMemoryCacheWrapper.execute.
    destruct (InMemoryCacheWrapper.hash_key _ _ self args kwargs) as [k|e|];
      [|intros [= <- <-]; auto..].
    destruct (cache w !! k) as [cached|] eqn:Hk; [intros [= <- <-]; auto|].
    destruct (execute (InMemoryCacheWrapper.step self) args kwargs) as [v|e|];
      intros [= <- <-]; simpl; split_and!; auto.
    by apply insert_subseteq.
  - intros self args kwargs w w1 r. unfold InDiskCacheWrapper.execute.
    destruct (InDiskCacheWrapper.hash_key _ _ self args kwargs) as [k|e|];
      [|intros [= <- <-]; auto..].
    destruct (files w !! InDiskCacheWrapper.cache_file self k) as [content|] eqn:Hk;
      [intros [= <- <-]; auto|].
    destruct (execute (InDiskCacheWrapper.step self) args kwargs) as [v|e|];
      [|intros [= <- <-]; simpl; split_and!; auto..].
    destruct (pickle_dump v) as [content [[]|e|]];
      intros [= <- <-]; simpl; split_and!; auto; by apply insert_subseteq.
Qed.

(** A call that raises leaves the cache and the files as they were, with
    one exception: when the step has returned and [pickle.dump] raises, the
    file of the key is there, holding what [pickle.dump] had written, and
    every later call with these arguments is answered from it -- with what
    [pickle.load] makes of it -- without running the step. *)
Theorem cache_after_failed_call :
  (∀ (self : InMemoryCacheWrapper.t) args kwargs (w w1 : world) (e : exn),
     InMemoryCacheWrapper.execute dumps sha256_hexdigest self args kwargs w
       = (w1, Raise e) →
     cache w1 = cache w ∧ files w1 = files w) ∧
  (∀ (self : InDiskCacheWrapper.t) args kwargs (w w1 : world) (e : exn),
     InDiskCacheWrapper.execute dumps sha256_hexdigest pickle_dump pickle_load
       self args kwargs w = (w1, Raise e) →
     cache w1 = cache w ∧
     (files w1 = files w ∨
      ∃ k r content,
        InDiskCacheWrapper.hash_key dumps sha256_hexdigest self args kwargs = Ok k ∧
        files w !! InDiskCacheWrapper.cache_file self k = None ∧
        execute (InDiskCacheWrapper.step self) args kwargs = Ok r ∧
        pickle_dump r = (content, Raise e) ∧
        files w1 = <[InDiskCacheWrapper.cache_file self k := content]> (files w) ∧
        calls w1 = calls w ++ [(InDiskCacheWrapper.step self, args, kwargs)] ∧
        InDiskCacheWrapper.execute dumps sha256_hexdigest pickle_dump pickle_load
          self args kwargs w1 = (w1, pickle_load content))).
Proof.
  split.
  - intros self args kwargs w w1 e. unfold InMemoryCacheWrapper.execute.
    destruct (InMemoryCacheWrapper.hash_key _ _ self args kwargs) as [k|e'|];
      [|by intros [= <- _]..].
    destruct (cache w !! k) as [cached|]; [by intros [= <- _]|].
    by destruct (execute (InMemoryCacheWrapper.step self) args kwargs) as [v|e'|];
      intros [= <- ?].
  - intros self args kwargs w w1 e. unfold InDiskCacheWrapper.execute.
    destruct (InDiskCacheWrapper.hash_key _ _ self args kwargs) as [k|e'|] eqn:Hkey;
      [|intros [= <- _]; auto..].
    destruct (files w !! InDiskCacheWrapper.cache_file self k) as [content|] eqn:Hmiss;
      [intros [= <- _]; auto|].
    destruct (execute (InDiskCacheWrapper.step self) args kwargs) as [v|e'|] eqn:Hbody;
      [|intros [= <- ?]; auto..].
    destruct (pickle_dump v) as [content [[]|e'|]] eqn:Hdump; [done| |done].
    intros [= <- ->]. simpl. split; [done|]. right.
    exists k, v, content. split_and!; try done.
    by rewrite lookup_insert_eq.
Qed.

End cache_frame.

Lemma cache_entries_kept_witness :
  let w := (InMemoryCacheWrapper.execute toy_dumps toy_digest
              (in_memory_cache (DummyStepForCache "step2" 10)) [VInt 3] []
              empty_world).1 in
  let w1 := (InMemoryCacheWrapper.execute toy_dumps toy_digest
               (in_memory_cache Doubler) [VInt 4] [] w).1 in
  let d1 := (InDiskCacheWrapper.execute toy_dumps toy_digest toy_pickle_dump toy_load
               (in_disk_cache Doubler ".cache") [VInt 4] [] w).1 in
  (cache w ⊆ cache w1 ∧ files w1 = files w) ∧
  (files w ⊆ files d1 ∧ cache d1 = cache w).
Proof.
  intros w w1 d1.
  destruct (cache_entries_kept toy_dumps toy_digest toy_pickle_dump toy_load)
    as [Hmem Hdisk].
  split.
  - destruct (Hmem (in_memory_cache Doubler) [VInt 4] [] w w1 (Ok (VInt 8)))
      as (? & ? & _); [reflexivity|done].
  - destruct (Hdisk (in_disk_cache Doubler ".cache") [VInt 4] [] w d1 (Ok (VInt 8)))
      as (? & ? & _); [reflexivity|done].
Defined.

Lemma cache_after_failed_call_witness :
  let mem := InMemoryCacheWrapper.execute toy_dumps toy_digest
               (in_memory_cache FailingStep) [VPipeline 0] [] empty_world in
  let wrapped := in_disk_cache Passing ".cache" in
  let disk := InDiskCacheWrapper.execute toy_dumps toy_digest int_pickle_dump
                toy_load wrapped [VPipeline 0] [] empty_world in
  (mem.2 = Raise (StepError (VStr "boom")) ∧
   cache mem.1 = ∅ ∧ files mem.1 = ∅) ∧
  (disk.2 = Raise (TypeError "cannot pickle") ∧
   cache disk.1 = ∅ ∧
   (files disk.1 = ∅ ∨
    ∃ k r content,
      InDiskCacheWrapper.hash_key toy_dumps toy_digest wrapped [VPipeline 0] []
        = Ok k ∧
      files empty_world !! InDiskCacheWrapper.cache_file wrapped k = None ∧
      execute Passing [VPipeline 0] [] = Ok r ∧
      int_pickle_dump r = (content, Raise (TypeError "cannot pickle")) ∧
      files disk.1 = <[InDiskCacheWrapper.cache_file wrapped k := content]> ∅ ∧
      calls disk.1 = [(Passing, [VPipeline 0], [])] ∧
      InDiskCacheWrapper.execute toy_dumps toy_digest int_pickle_dump toy_load
        wrapped [VPipeline 0] [] disk.1 = (disk.1, toy_load content))).
Proof.
  intros mem wrapped disk.
  destruct (cache_after_failed_call toy_dumps toy_digest int_pickle_dump toy_load)
    as [Hmem Hdisk].
  split; (split; [reflexivity|]).
  - apply (Hmem (in_memory_cache FailingStep) [VPipeline 0] [] empty_world mem.1
             (StepError (VStr "boom"))).
    reflexivity.
  - apply (Hdisk wrapped [VPipeline 0] [] empty_world disk.1
             (TypeError "cannot pickle")).
    reflexivity.
Defined.

(** The entry a failed [pickle.dump] leaves behind: the second call does
    not run the step and raises what loading the empty file raises. *)
Example poisoned_entry :
  let wrapped := in_disk_cache Passing ".cache" in
  let first := InDiskCacheWrapper.execute toy_dumps toy_digest int_pickle_dump
                 toy_load wrapped [VPipeline 0] [] empty_world in
  let second := InDiskCacheWrapper.execute toy_dumps toy_digest int_pickle_dump
                  toy_load wrapped [VPipeline 0] [] first.1 in
  first.2 = Raise (TypeError "cannot pickle") ∧
  second.2 = Raise (ValueError "unpickling") ∧
  calls second.1 = [(Passing, [VPipeline 0], [])].
Proof. intros wrapped first second. split_and!; reflexivity. Qed.

Lemma dict_get_set_eq {V} (d : list (string * V)) (k : string) (v : V) :
  dict_get (dict_set d k v) k = Some v.
Proof.
  induction d as [|[k0 v0] d IH]; simpl.
  - by rewrite decide_True.
  - destruct (decide (k0 = k)) as [->|Hne]; simpl.
    + by rewrite decide_True.
    + by rewrite decide_False.
Qed.

Lemma dict_update_snoc {V} (d e : list (string * V)) (k : string) (v : V) :
  dict_update d (e ++ [(k, v)]) = dict_set (dict_update d e) k v.
Proof. unfold dict_update. by rewrite foldl_snoc. Qed.

(** After [d.update(e)] the keys of [e] hold what [e] gives them, whatever
    [d] held. *)
Lemma dict_get_update_in {V} (e d1 d2 : list (string * V)) (k : string) :
  k ∈ e.*1 → dict_get (dict_update d1 e) k = dict_get (dict_update d2 e) k.
Proof.
  induction e as [|[k0 v0] e IH] using rev_ind; [by intros ?%elem_of_nil|].
  rewrite fmap_app, !dict_update_snoc. intros Hk.
  destruct (decide (k0 = k)) as [->|Hne].
  - by rewrite !dict_get_set_eq.
  - rewrite !dict_get_set_ne by done. apply IH. set_solver.
Qed.

(** The in-memory key does not see an argument whose parameter is named
    like a field of the step: [bound.arguments.update(init_params)]
    replaces the argument by the field.  Two calls that agree on the other
    parameters get the same key, so the second is answered with the result
    of the first. *)
Theorem memory_key_field_shadows_argument
    (dumps : value → option (list Byte.byte))
    (sha256_hexdigest : list Byte.byte → string)
    (self : InMemoryCacheWrapper.t) (args1 args2 : list value)
    (kwargs1 kwargs2 bound1 bound2 : list (string * value)) :
  let s := InMemoryCacheWrapper.step self in
  bind (signature s) args1 kwargs1 = Ok bound1 →
  bind (signature s) args2 kwargs2 = Ok bound2 →
  (∀ n, n ∈ (signature s).*1 → n ∉ (__dict__ s).*1 →
        dict_get bound1 n = dict_get bound2 n) →
  InMemoryCacheWrapper.hash_key dumps sha256_hexdigest self args1 kwargs1 =
  InMemoryCacheWrapper.hash_key dumps sha256_hexdigest self args2 kwargs2.
Proof.
  intros s Hb1 Hb2 Hagree. unfold InMemoryCacheWrapper.hash_key. fold s.
  rewrite Hb1, Hb2. cbn [mbind result_bind]. cbv zeta.
  rewrite (apply_defaults_ext _ (dict_update bound1 (__dict__ s))
             (dict_update bound2 (__dict__ s))); [done|].
  intros n Hn. destruct (decide (n ∈ (__dict__ s).*1)) as [Hin|Hout].
  - by apply dict_get_update_in.
  - rewrite !dict_get_update_other by done. by apply Hagree.
Qed.

Lemma memory_key_field_shadows_argument_witness :
  let scaler := in_memory_cache (Scaler 2) in
  InMemoryCacheWrapper.hash_key toy_dumps toy_digest scaler [VInt 3] [] =
  InMemoryCacheWrapper.hash_key toy_dumps toy_digest scaler [VInt 4] [] ∧
  (let w1 := (InMemoryCacheWrapper.execute toy_dumps toy_digest scaler
                [VInt 3] [] empty_world).1 in
   InMemoryCacheWrapper.execute toy_dumps toy_digest scaler [VInt 4] [] w1
     = (w1, Ok (VInt 6)) ∧
   execute (Scaler 2) [VInt 4] [] = Ok (VInt 8)).
Proof.
  intros scaler. split; [|split; reflexivity].
  apply (memory_key_field_shadows_argument toy_dumps toy_digest scaler
           [VInt 3] [VInt 4] [] [] [("x", VInt 3)] [("x", VInt 4)]);
    [reflexivity..|].
  intros n Hn Hout. exfalso. apply Hout. cbn in Hn |- *. set_solver.
Defined.

Lemma memory_key_parameters_only_witness :
  InMemoryCacheWrapper.hash_key toy_dumps toy_digest
    (in_memory_cache (DummyStepForCache "step2" 10)) [VInt 3] [] =
  InMemoryCacheWrapper.hash_key toy_dumps toy_digest
    (in_memory_cache (DummyStepForCache "other" 11)) [VInt 3] [].
Proof.
  apply (memory_key_parameters_only toy_dumps toy_digest
           (in_memory_cache (DummyStepForCache "step2" 10))
           (in_memory_cache (DummyStepForCache "other" 11)) [VInt 3] []);
    [reflexivity|].
  intros n Hn. cbn in Hn |- *.
  apply list_elem_of_singleton in Hn as ->. split; set_solver.
Defined.

Lemma parents_after_init_key_witness :
  parents (PipelineComposition.__init__ family diamond) 3 = [1; 2].
Proof.
  apply (parents_after_init_key family diamond 3).
  - apply (bool_decide_unpack _). reflexivity.
  - apply (bool_decide_unpack _). reflexivity.
Defined.

(** ** The search on an adjacency with cycles *)

Section search_any.
Import PipelineComposition.
Context (g : adjacency) (within : pid → Prop).
Hypothesis within_closed : ∀ x c, within x → edge g x c → within c.

Local Abbreviation U := (all_pipelines g).
Local Abbreviation inv := (search_inv g within).

Lemma for_child_any (fuel : nat) (cs : list pid) :
  (∀ c st, c ∈ cs → size (U ∖ st.1) < fuel → inv st →
     ∃ st', visit fuel g c st = Ok st' ∧ inv st' ∧ extends st st' ∧ c ∈ st'.1) →
  ∀ st, size (U ∖ st.1) < fuel → inv st →
    ∃ st', for_child (visit fuel g) cs st = Ok st' ∧ inv st' ∧
           extends st st' ∧ ∀ c, c ∈ cs → c ∈ st'.1.
Proof.
  induction cs as [|c cs IH]; intros Hvisit st Hsize Hinv.
  - exists st. split_and!; [done|done|apply extends_refl|set_solver].
  - destruct (Hvisit c st) as (st1 & Hrun & Hinv1 & Hext1 & Hc);
      [set_solver|done|done|].
    destruct IH with (st := st1) as (st2 & Hrun2 & Hinv2 & Hext2 & Hcs).
    + intros c' st' Hc'. apply Hvisit. set_solver.
    + pose proof (extends_size g _ _ Hext1). lia.
    + done.
    + exists st2. simpl. rewrite Hrun. simpl. split_and!; [done|done| |].
      * by eapply extends_trans.
      * intros c' [->|Hc']%elem_of_cons; [|by apply Hcs].
        by apply (ext_visited _ _ Hext2).
Qed.

Lemma visit_any (fuel : nat) (p : pid) (st : gset nat * list nat) :
  p ∈ U → within p → size (U ∖ st.1) < fuel → inv st →
  ∃ st', visit fuel g p st = Ok st' ∧ inv st' ∧ extends st st' ∧ p ∈ st'.1.
Proof.
  revert p st. induction fuel as [|fuel IH]; intros p st Hp Hwithin Hsize Hinv;
    [lia|].
  destruct st as [V O]. simpl in *. case_bool_decide as Hin.
  - exists (V, O). split_and!; [done|done|apply extends_refl|done].
  - assert (p ∉ O) as HpO by (intros ?; by apply Hin, (sinv_visited _ _ _ Hinv)).
    set (st0 := ({[p]} ∪ V, O) : gset nat * list nat).
    assert (∀ x, gray st0 x ↔ gray (V, O) x ∨ x = p) as Hgray0.
    { intros x. unfold gray, st0. simpl. split.
      - intros [[->%elem_of_singleton|?]%elem_of_union ?]; [by right|by left].
      - intros [[??]| ->]; split; set_solver. }
    destruct (for_child_any fuel (children_of g p)) with (st := st0)
      as (st1 & Hrun & Hinv1 & Hext1 & Hcs).
    + intros c st' Hc. apply IH.
      * by apply (edge_universe g p c).
      * by apply (within_closed p c).
    + assert (U ∖ st0.1 ⊂ U ∖ V) as Hlt%subset_size; [|lia].
      unfold st0. simpl. set_solver.
    + destruct Hinv as [Hnd Hvis Huni Hch]. split; simpl in *.
      * done.
      * set_solver.
      * intros x [->%elem_of_singleton|Hx]%elem_of_union; [done|by apply Huni].
      * intros x c Hx Hedge. apply elem_of_union_r. by apply (Hch x c).
    + destruct st1 as [V1 O1]. exists (V1, O1 ++ [p]).
      rewrite Hrun. simpl.
      assert (gray (V1, O1) p) as [HpV1 HpO1].
      { apply (ext_gray _ _ Hext1), Hgray0. by right. }
      simpl in *. split_and!; [done| | |done].
      * destruct Hinv1 as [Hnd1 Hvis1 Huni1 Hch1]. split; simpl in *.
        -- apply NoDup_app. split_and!; [done|set_solver|apply NoDup_singleton].
        -- intros x [?| ->%list_elem_of_singleton]%elem_of_app; auto.
        -- done.
        -- intros x c [Hx| ->%list_elem_of_singleton]%elem_of_app Hedge.
           ++ by apply (Hch1 x c).
           ++ by apply Hcs.
      * destruct Hext1 as [Hv1 Ho1 Hg1]. split; simpl in *.
        -- set_solver.
        -- by apply prefix_app_r.
        -- intros x. unfold gray in *. simpl in *.
           specialize (Hg1 x). specialize (Hgray0 x).
           rewrite elem_of_app, list_elem_of_singleton.
           destruct (decide (x = p)) as [->|Hne]; [tauto|]. tauto.
Qed.

End search_any.

Lemma reachable_closed (pipelines : list (nat * list nat)) (roots : list pid)
    (x c : pid) :
  reachable pipelines roots x → edge pipelines x c → reachable pipelines roots c.
Proof. intros (r & Hr & Hrx) Hedge. exists r. split; [done|by eapply rtc_r]. Qed.

(** [_topological_sort] returns on every adjacency, with cycles or without,
    and on every heap: the order lists, once each, the pipelines that are
    roots -- referenced and without parents -- or transitive children of
    a root, and nothing else; only these are run. *)
Theorem topological_sort_returns (fuel : nat) (h : heap)
    (pipelines : list (nat * list nat)) (iteration : list pid) :
  (∀ p, p ∈ iteration → p ∈ PipelineComposition.all_pipelines pipelines) →
  size (PipelineComposition.all_pipelines pipelines) < fuel →
  ∃ order,
    PipelineComposition._topological_sort fuel h pipelines iteration = Ok order ∧
    NoDup order ∧
    (∀ p, p ∈ order ↔ reachable pipelines (roots_of h iteration) p) ∧
    (∀ h2 ran r,
       PipelineComposition.run fuel h pipelines iteration = (h2, ran, r) →
       ∀ p, p ∈ ran → reachable pipelines (roots_of h iteration) p).
Proof.
  intros Hiter Hfuel.
  set (roots := roots_of h iteration).
  assert (∀ r, r ∈ roots → r ∈ PipelineComposition.all_pipelines pipelines) as Hroots.
  { intros r [_ Hr]%list_elem_of_filter. by apply Hiter. }
  destruct (for_child_any pipelines (reachable pipelines roots)
              (reachable_closed pipelines roots) fuel roots)
    with (st := (∅, []) : gset nat * list nat)
    as ([V O] & Hrun & Hinv & Hext & Hin).
  - intros c st Hc. apply visit_any.
    + apply reachable_closed.
    + by apply Hroots.
    + exists c. by split.
  - simpl. by rewrite difference_empty_L.
  - split; simpl; [apply NoDup_nil_2|set_solver..].
  - assert (∀ x, x ∈ V → x ∈ O) as Hleft.
    { intros x Hx. destruct (decide (x ∈ O)) as [|Hout]; [done|].
      assert (gray (V, O) x) as Hg%(ext_gray _ _ Hext) by (by split).
      destruct Hg as [Hempty _]. set_solver. }
    assert (∀ p, p ∈ O ↔ reachable pipelines roots p) as Hmem.
    { intros p. split.
      - intros Hp. by apply (sinv_universe _ _ _ Hinv), (sinv_visited _ _ _ Hinv).
      - intros (r & Hr & Hrp). revert p Hrp. apply rtc_ind_r.
        + by apply Hleft, Hin.
        + intros y z _ Hyz IH. by apply Hleft, (sinv_children _ _ _ Hinv y z). }
    exists (reverse O). unfold PipelineComposition._topological_sort.
    fold (roots_of h iteration). fold roots. rewrite Hrun. simpl.
    split_and!.
    + done.
    + rewrite reverse_Permutation. apply (sinv_nodup _ _ _ Hinv).
    + intros p. by rewrite elem_of_reverse.
    + intros h2 ran r. unfold PipelineComposition.run, PipelineComposition._topological_sort.
      fold (roots_of h iteration). fold roots. rewrite Hrun. simpl.
      intros [Hpre _]%run_all_prefix p Hp.
      apply Hmem, elem_of_reverse. destruct Hpre as [more ->]. set_solver.
Qed.

Lemma topological_sort_returns_witness :
  ∃ order,
    PipelineComposition._topological_sort 3 ∅ two_cycle [0; 1] = Ok order ∧
    NoDup order ∧
    (∀ p, p ∈ order ↔ reachable two_cycle (roots_of ∅ [0; 1]) p) ∧
    (∀ h2 ran r,
       PipelineComposition.run 3 ∅ two_cycle [0; 1] = (h2, ran, r) →
       ∀ p, p ∈ ran → reachable two_cycle (roots_of ∅ [0; 1]) p).
Proof.
  apply (topological_sort_returns 3 ∅ two_cycle [0; 1]).
  - intros p. unfold PipelineComposition.all_pipelines, two_cycle. simpl.
    set_solver.
  - vm_compute. lia.
Defined.

(** On a cycle the order is that of the search: each pipeline of the
    two-cycle is a child of the other, and still one of them comes first. *)
Example two_cycle_order :
  PipelineComposition._topological_sort 3 ∅ two_cycle [0; 1] = Ok [0; 1] ∧
  PipelineComposition._topological_sort 3 ∅ two_cycle [1; 0] = Ok [1; 0].
Proof. split; reflexivity. Qed.

(** ** A composition without roots *)

Lemma listing_keys_elem (pipelines : list (nat * list nat)) (x : pid) :
  x ∈ mjoin pipelines.*2 → ∃ k, k ∈ listing_keys pipelines x.
Proof.
  intros (cs & Hx & Hcs)%list_elem_of_join.
  apply list_elem_of_fmap in Hcs as ([k cs'] & -> & Hin).
  exists k. unfold listing_keys. apply list_elem_of_fmap.
  exists (k, cs'). split; [done|]. by apply list_elem_of_filter.
Qed.

(** When every pipeline of the adjacency is a child of some key -- as on a
    cycle -- the composition has no root after its construction: the order
    is empty and [run] returns without running anything. *)
Theorem composition_without_roots (fuel : nat) (h : heap)
    (pipelines : list (nat * list nat)) (iteration : list pid) :
  (∀ p, p ∈ iteration → p ∈ mjoin pipelines.*2) →
  let h' := PipelineComposition.__init__ h pipelines in
  PipelineComposition._topological_sort fuel h' pipelines iteration = Ok [] ∧
  PipelineComposition.run fuel h' pipelines iteration = (h', [], Ok ()).
Proof.
  intros Hlisted h'.
  assert (filter (λ p, parents h' p = []) iteration = []) as Hroots.
  { clear fuel. induction iteration as [|p l IH]; [done|].
    rewrite filter_cons, decide_False.
    - apply IH. intros q Hq. apply Hlisted. set_solver.
    - destruct (listing_keys_elem pipelines p) as [k Hk]; [apply Hlisted; set_solver|].
      unfold h'. rewrite parents_after_init. intros Hnil.
      assert (k ∈ foldl add_one
                (if bool_decide (p ∈ pipelines.*1) then [] else parents h p)
                (listing_keys pipelines p)) as Hin
        by (apply foldl_add_one_elem; by right).
      rewrite Hnil in Hin. by apply elem_of_nil in Hin. }
  assert (PipelineComposition._topological_sort fuel h' pipelines iteration = Ok [])
    as Hsort.
  { unfold PipelineComposition._topological_sort. by rewrite Hroots. }
  split; [done|]. unfold PipelineComposition.run. by rewrite Hsort.
Qed.

Lemma composition_without_roots_witness :
  let h' := PipelineComposition.__init__ dummy_heap two_cycle in
  PipelineComposition._topological_sort 3 h' two_cycle [0; 1] = Ok [] ∧
  PipelineComposition.run 3 h' two_cycle [0; 1] = (h', [], Ok ()).
Proof.
  apply (composition_without_roots 3 dummy_heap two_cycle [0; 1]).
  intros p Hp. cbn. set_solver.
Defined.

(** ** Running a composition again *)

Lemma run_others (fuel : nat) (h h1 : heap) (p : pid)
    (called : list PipelineStep) (r : result ()) :
  run fuel h p = (h1, called, r) →
  (∀ q, q ≠ p → h1 !!! q = h !!! q) ∧ _parents (h1 !!! p) = _parents (h !!! p).
Proof.
  unfold run. destruct (finished (h !!! p)); [by intros [= <- <- <-]|].
  destruct (run_steps fuel h p _) as [[h0 called0] r0] eqn:E.
  apply run_steps_heap in E as (Hother & _ & Hpar & _).
  destruct r0 as [[]|e|]; intros [= <- <- <-]; [|done..].
  rewrite update_lookup_eq. simpl. split; [|done].
  intros q Hq. rewrite update_lookup_ne by done. by apply Hother.
Qed.

Lemma run_ok_finished (fuel : nat) (h h1 : heap) (p : pid)
    (called : list PipelineStep) :
  run fuel h p = (h1, called, Ok ()) → finished (h1 !!! p) = true.
Proof.
  unfold run. destruct (finished (h !!! p)) eqn:Hfin; [by intros [= <- <-]|].
  destruct (run_steps fuel h p _) as [[h0 called0] r0].
  destruct r0 as [[]|e|]; intros [= <- <-]. by rewrite update_lookup_eq.
Qed.

Lemma run_when_finished (fuel : nat) (h : heap) (p : pid) :
  finished (h !!! p) = true → run fuel h p = (h, [], Ok ()).
Proof. intros Hfin. unfold run. by rewrite Hfin. Qed.

Lemma run_all_parents (fuel : nat) (order : list pid) (h h2 : heap)
    (ran : list pid) (r : result ()) :
  PipelineComposition.run_all fuel h order = (h2, ran, r) →
  ∀ q, parents h2 q = parents h q.
Proof.
  revert h h2 ran r. induction order as [|p order IH]; intros h h2 ran r; simpl.
  - by intros [= <- <- <-].
  - destruct (run fuel h p) as [[h1 called] r1] eqn:Hrun.
    apply run_others in Hrun as [Hother Hpar].
    assert (∀ q, parents h1 q = parents h q) as Hstep.
    { intros q. unfold parents. destruct (decide (q = p)) as [->|Hne]; [done|].
      by rewrite Hother. }
    destruct r1 as [[]|e|]; [|intros [= <- <- <-]; done..].
    destruct (PipelineComposition.run_all fuel h1 order) as [[h3 ran3] r3] eqn:E.
    intros [= <- <- <-] q. by rewrite (IH _ _ _ _ E), Hstep.
Qed.

Lemma run_all_finished (fuel : nat) (order : list pid) (h h2 : heap)
    (ran : list pid) :
  PipelineComposition.run_all fuel h order = (h2, ran, Ok ()) →
  ∀ q, q ∈ order ∨ finished (h !!! q) = true → finished (h2 !!! q) = true.
Proof.
  revert h h2 ran. induction order as [|p order IH]; intros h h2 ran; simpl.
  - intros [= <- <-] q [Hq|Hq]; [by apply elem_of_nil in Hq|done].
  - destruct (run fuel h p) as [[h1 called] r1] eqn:Hrun.
    destruct r1 as [[]|e|]; [|done..].
    pose proof (run_ok_finished _ _ _ _ _ Hrun) as Hp.
    apply run_others in Hrun as [Hother _].
    destruct (PipelineComposition.run_all fuel h1 order) as [[h3 ran3] r3] eqn:E.
    intros [= <- <- ->] q Hq. apply (IH _ _ _ E).
    destruct (decide (q = p)) as [->|Hne]; [by right|].
    destruct Hq as [[->|Hq]%elem_of_cons|Hq]; [done|by left|].
    right. by rewrite Hother.
Qed.

Lemma run_all_when_finished (fuel : nat) (order : list pid) (h : heap) :
  (∀ q, q ∈ order → finished (h !!! q) = true) →
  PipelineComposition.run_all fuel h order = (h, order, Ok ()).
Proof.
  induction order as [|p order IH]; intros Hfin; [done|]. simpl.
  rewrite run_when_finished by (apply Hfin; set_solver).
  rewrite IH; [done|]. intros q Hq. apply Hfin. set_solver.
Qed.

Lemma topological_sort_parents (fuel : nat) (h h2 : heap)
    (pipelines : list (nat * list nat)) (iteration : list pid) :
  (∀ q, parents h2 q = parents h q) →
  PipelineComposition._topological_sort fuel h2 pipelines iteration =
  PipelineComposition._topological_sort fuel h pipelines iteration.
Proof.
  intros Hpar. unfold PipelineComposition._topological_sort.
  replace (filter (λ p, parents h2 p = []) iteration)
    with (filter (λ p, parents h p = []) iteration); [done|].
  apply list_filter_iff. intros p. by rewrite Hpar.
Qed.

(** Once [run] of a composition has returned normally, running it again
    changes nothing and executes no step: every pipeline of the order is
    finished, and the order is the same, the parents being untouched. *)
Theorem composition_run_again (fuel : nat) (h h2 : heap)
    (pipelines : list (nat * list nat)) (iteration ran : list pid) :
  PipelineComposition.run fuel h pipelines iteration = (h2, ran, Ok ()) →
  PipelineComposition.run fuel h2 pipelines iteration = (h2, ran, Ok ()) ∧
  ∀ p, p ∈ ran → finished (h2 !!! p) = true ∧ run fuel h2 p = (h2, [], Ok ()).
Proof.
  unfold PipelineComposition.run at 1.
  destruct (PipelineComposition._topological_sort fuel h pipelines iteration)
    as [order|e|] eqn:Hsort; [|done..].
  intros Hrun.
  pose proof (run_all_prefix _ _ _ _ _ _ Hrun) as [_ Hran].
  rewrite (Hran eq_refl) in *. clear Hran.
  pose proof (run_all_finished _ _ _ _ _ Hrun) as Hfin.
  pose proof (run_all_parents _ _ _ _ _ _ Hrun) as Hpar.
  split.
  - unfold PipelineComposition.run.
    rewrite (topological_sort_parents fuel h h2) by done. rewrite Hsort.
    apply run_all_when_finished. intros q Hq. apply Hfin. by left.
  - intros p Hp. assert (finished (h2 !!! p) = true) as Hp' by (apply Hfin; by left).
    split; [done|]. by apply run_when_finished.
Qed.

Lemma composition_run_again_witness :
  let g := [(0, [1])] in
  let h := PipelineComposition.__init__ family g in
  let h2 := (PipelineComposition.run 3 h g [0; 1]).1.1 in
  PipelineComposition.run 3 h2 g [0; 1] = (h2, [0; 1], Ok ()) ∧
  ∀ p, p ∈ [0; 1] → finished (h2 !!! p) = true ∧ run 3 h2 p = (h2, [], Ok ()).
Proof.
  intros g h h2.
  apply (composition_run_again 3 h h2 g [0; 1] [0; 1]). reflexivity.
Defined.

(** ** Artifacts on disk *)

Section artifacts_on_disk.
Context {fs : Type}
        (os_path_exists : fs → string → bool)
        (os_makedirs : fs → string → fs * result ())
        (dump_to : fs → string → value → fs * result ())
        (load_from : fs → string → result value)
        (os_remove : fs → string → fs * result ())
        (os_rmdir : fs → string → fs * result ()).

Local Abbreviation disk_init := (ArtifactInDisk.__init__ os_path_exists os_makedirs).
Local Abbreviation disk_save := (ArtifactInDisk.save_artifact dump_to).
Local Abbreviation disk_get := (ArtifactInDisk.get_artifact os_path_exists load_from).
Local Abbreviation disk_del := (ArtifactInDisk.del_artifact os_path_exists os_remove).
Local Abbreviation disk_clear :=
  (ArtifactInDisk.clear os_path_exists os_remove os_rmdir).

Lemma artifact_path_own (self : ArtifactInDisk.t) (n : string) :
  own_paths self →
  ArtifactInDisk.artifact_path self n = path_join (ArtifactInDisk.directory self) n.
Proof.
  intros Hown. unfold ArtifactInDisk.artifact_path.
  destruct (dict_get _ n) as [path|] eqn:E; [by apply Hown|done].
Qed.

Lemma save_artifact_own (self : ArtifactInDisk.t) (d : fs) (n : string) (v : value) :
  own_paths self →
  own_paths (disk_save self d n v).1.1 ∧
  ArtifactInDisk.directory (disk_save self d n v).1.1 = ArtifactInDisk.directory self.
Proof.
  intros Hown. unfold ArtifactInDisk.save_artifact.
  destruct (dump_to d _ v) as [d1 [[]|e|]]; [|done..]. split; [|done].
  intros m path. simpl. destruct (decide (n = m)) as [<-|Hne].
  - rewrite dict_get_set_eq. by intros [= <-].
  - rewrite dict_get_set_ne by done. apply Hown.
Qed.

Lemma clear_own (self : ArtifactInDisk.t) (d : fs) :
  own_paths self →
  own_paths (disk_clear self d).1.1 ∧
  ArtifactInDisk.directory (disk_clear self d).1.1 = ArtifactInDisk.directory self.
Proof.
  intros Hown. unfold ArtifactInDisk.clear.
  destruct (ArtifactInDisk.del_all _ _ self d _) as [d1 [[]|e|]]; [|done..].
  destruct (os_path_exists d1 _); [destruct (os_rmdir d1 _)|]; by split.
Qed.

(** The record [artifacts] plays no part in where an artifact is looked
    for: a manager only ever records [os.path.join(directory, name)], the
    path it would use anyway.  So managers of one directory -- those of
    pipelines that share a name -- read and delete each other's
    artifacts: on every file system their lookups and deletions agree. *)
Theorem disk_lookup_by_directory :
  (∀ pipeline_name directory d d1 self,
     disk_init pipeline_name directory d = (d1, Ok self) →
     own_paths self ∧
     ArtifactInDisk.directory self = path_join directory pipeline_name) ∧
  (∀ self d n v,
     own_paths self →
     own_paths (disk_save self d n v).1.1 ∧ own_paths (disk_clear self d).1.1 ∧
     ArtifactInDisk.directory (disk_save self d n v).1.1
       = ArtifactInDisk.directory self ∧
     ArtifactInDisk.directory (disk_clear self d).1.1
       = ArtifactInDisk.directory self) ∧
  (∀ self other d n default raise_not_found,
     own_paths self → own_paths other →
     ArtifactInDisk.directory self = ArtifactInDisk.directory other →
     disk_get self d n default raise_not_found =
       disk_get other d n default raise_not_found ∧
     disk_del self d n = disk_del other d n).
Proof.
  split_and!.
  - intros pipeline_name directory d d1 self. unfold ArtifactInDisk.__init__.
    cbv zeta. simpl. destruct (os_path_exists d _).
    + intros [= <- <-]. split; [|done]. by intros n path.
    + destruct (os_makedirs d _) as [d2 [[]|e|]]; intros [= <- <-].
      split; [|done]. by intros n path.
  - intros self d n v Hown.
    destruct (save_artifact_own self d n v Hown), (clear_own self d Hown).
    done.
  - intros self other d n default raise_not_found Hself Hother Hdir.
    unfold ArtifactInDisk.get_artifact, ArtifactInDisk.del_artifact.
    by rewrite !artifact_path_own, Hdir.
Qed.

(** What a manager has saved, every manager of the same directory reads
    back -- given that a file that was written exists and loads as the
    value it was written from. *)
Theorem disk_saved_is_shared (self self1 other : ArtifactInDisk.t) (d d1 : fs)
    (n : string) (v default : value) (raise_not_found : bool) :
  (∀ d0 path d', dump_to d0 path v = (d', Ok ()) →
                 os_path_exists d' path = true ∧ load_from d' path = Ok v) →
  own_paths other →
  ArtifactInDisk.directory other = ArtifactInDisk.directory self →
  disk_save self d n v = (self1, d1, Ok ()) →
  disk_get self1 d1 n default raise_not_found = Ok v ∧
  disk_get other d1 n default raise_not_found = Ok v.
Proof.
  intros Hwritten Hother Hdir. unfold ArtifactInDisk.save_artifact.
  destruct (dump_to d _ v) as [d2 [[]|e|]] eqn:Hdump; [|done..].
  intros [= <- <-]. apply Hwritten in Hdump as [Hexists Hload].
  unfold ArtifactInDisk.get_artifact. split.
  - unfold ArtifactInDisk.artifact_path. simpl. rewrite dict_get_set_eq.
    by rewrite Hexists, Hload, andb_false_r.
  - rewrite (artifact_path_own other) by done. rewrite Hdir.
    by rewrite Hexists, Hload, andb_false_r.
Qed.

(** After [clear] has returned, the directory of the manager does not
    exist -- an [os.rmdir] that returns having removed it -- and the
    manager, which creates its directory in the constructor only, does not
    bring it back: a [save_artifact] raises what writing below a missing
    directory raises, and records nothing. *)
Theorem disk_save_after_clear (self self1 : ArtifactInDisk.t) (d d1 : fs)
    (n : string) (v : value) (e : exn) :
  (∀ d0 d', os_rmdir d0 (ArtifactInDisk.directory self) = (d', Ok ()) →
            os_path_exists d' (ArtifactInDisk.directory self) = false) →
  disk_clear self d = (self1, d1, Ok ()) →
  (os_path_exists d1 (ArtifactInDisk.directory self) = false →
   dump_to d1 (path_join (ArtifactInDisk.directory self) n) v = (d1, Raise e)) →
  os_path_exists d1 (ArtifactInDisk.directory self1) = false ∧
  ArtifactInDisk.artifacts self1 = [] ∧
  disk_save self1 d1 n v = (self1, d1, Raise e).
Proof.
  intros Hrmdir. unfold ArtifactInDisk.clear.
  destruct (ArtifactInDisk.del_all _ _ self d _) as [d0 [[]|e0|]]; [|done..].
  destruct (os_path_exists d0 _) eqn:Hexists.
  - destruct (os_rmdir d0 _) as [d2 r] eqn:Hrm. intros [= <- <- ->] Hdump.
    apply Hrmdir in Hrm. simpl. split_and!; [done..|].
    unfold ArtifactInDisk.save_artifact. simpl. by rewrite (Hdump Hrm).
  - intros [= <- <-] Hdump. simpl. split_and!; [done..|].
    unfold ArtifactInDisk.save_artifact. simpl. by rewrite (Hdump Hexists).
Qed.

End artifacts_on_disk.

Lemma toy_written (v : value) (d0 : toy_fs) (path : string) (d' : toy_fs) :
  toy_dump_to d0 path v = (d', Ok ()) →
  toy_exists d' path = true ∧ toy_load_from d' path = Ok v.
Proof.
  unfold toy_dump_to, toy_exists, toy_load_from.
  destruct (d0 !! posix_dirname path) as [[w|]|]; [done| |done].
  destruct (d0 !! path) as [[w|]|]; intros [= <-]; rewrite lookup_insert_eq;
    split; [by apply bool_decide_eq_true_2|done..].
Qed.

Lemma toy_rmdir_gone (d0 : toy_fs) (path : string) (d' : toy_fs) :
  toy_rmdir d0 path = (d', Ok ()) → toy_exists d' path = false.
Proof.
  unfold toy_rmdir, toy_exists. destruct (d0 !! path) as [[w|]|]; [done| |done].
  case_bool_decide; [|done]. intros [= <-]. rewrite lookup_delete_eq.
  apply bool_decide_eq_false_2. by intros [? ?].
Qed.

Lemma disk_lookup_by_directory_witness :
  let self := {| ArtifactInDisk.directory := "/tmp/default_pipeline";
                 ArtifactInDisk.artifacts := [] |} in
  let d1 : toy_fs := <[ "/tmp/default_pipeline" := None ]> toy_tmp in
  ArtifactInDisk.__init__ toy_exists toy_makedirs "default_pipeline" "/tmp/" toy_tmp
    = (d1, Ok self) ∧
  ArtifactInDisk.__init__ toy_exists toy_makedirs "default_pipeline" "/tmp/" d1
    = (d1, Ok self) ∧
  ∀ d n default raise_not_found,
    ArtifactInDisk.get_artifact toy_exists toy_load_from
      (ArtifactInDisk.save_artifact toy_dump_to self d1 "x" (VInt 5)).1.1
      d n default raise_not_found =
    ArtifactInDisk.get_artifact toy_exists toy_load_from self
      d n default raise_not_found.
Proof.
  intros self d1.
  destruct (disk_lookup_by_directory toy_exists toy_makedirs toy_dump_to
              toy_load_from toy_remove toy_rmdir) as (Hinit & Hkeep & Hagree).
  assert (ArtifactInDisk.__init__ toy_exists toy_makedirs "default_pipeline"
            "/tmp/" toy_tmp = (d1, Ok self)) as Hmade by reflexivity.
  split; [exact Hmade|]. split; [reflexivity|].
  intros d n default raise_not_found.
  destruct (Hinit _ _ _ _ _ Hmade) as [Hown _].
  destruct (Hkeep self d1 "x" (VInt 5) Hown) as (Hown1 & _ & Hdir1 & _).
  by destruct (Hagree _ self d n default raise_not_found Hown1 Hown Hdir1).
Defined.

Lemma disk_saved_is_shared_witness :
  let d0 : toy_fs := {[ "/tmp" := None; "/tmp/p" := None ]} in
  let self := {| ArtifactInDisk.directory := "/tmp/p";
                 ArtifactInDisk.artifacts := [] |} in
  let saved := ArtifactInDisk.save_artifact toy_dump_to self d0 "x" (VInt 5) in
  ArtifactInDisk.get_artifact toy_exists toy_load_from saved.1.1 saved.1.2
    "x" VNone true = Ok (VInt 5) ∧
  ArtifactInDisk.get_artifact toy_exists toy_load_from self saved.1.2
    "x" VNone true = Ok (VInt 5).
Proof.
  intros d0 self saved.
  apply (disk_saved_is_shared toy_exists toy_dump_to toy_load_from
           self saved.1.1 self d0 saved.1.2 "x" (VInt 5) VNone true).
  - apply toy_written.
  - by intros n path.
  - reflexivity.
  - reflexivity.
Defined.

Lemma disk_save_after_clear_witness :
  let d0 : toy_fs := {[ "/tmp" := None; "/tmp/p" := None ]} in
  let self := {| ArtifactInDisk.directory := "/tmp/p";
                 ArtifactInDisk.artifacts := [] |} in
  let saved := ArtifactInDisk.save_artifact toy_dump_to self d0 "x" (VInt 5) in
  let cleared := ArtifactInDisk.clear toy_exists toy_remove toy_rmdir
                   saved.1.1 saved.1.2 in
  cleared.2 = Ok () ∧
  toy_exists cleared.1.2 "/tmp/p" = false ∧
  ArtifactInDisk.artifacts cleared.1.1 = [] ∧
  ArtifactInDisk.save_artifact toy_dump_to cleared.1.1 cleared.1.2 "x" (VInt 5)
    = (cleared.1.1, cleared.1.2, Raise (toy_os_error "FileNotFoundError")).
Proof.
  intros d0 self saved cleared. split; [reflexivity|].
  apply (disk_save_after_clear toy_exists toy_dump_to toy_remove toy_rmdir
           saved.1.1 cleared.1.1 saved.1.2 cleared.1.2 "x" (VInt 5)
           (toy_os_error "FileNotFoundError")).
  - intros d1 d'. apply toy_rmdir_gone.
  - reflexivity.
  - reflexivity.
Defined.

(** ** The disk key on a serializer without collisions *)

Lemma exact_dumps_Some (v : value) (b : list Byte.byte) :
  exact_dumps v = Some b →
  (v = call_arguments ∧ b = [Byte.x01]) ∨ (v = call_configuration ∧ b = [Byte.x02]).
Proof.
  unfold exact_dumps, call_arguments, call_configuration.
  repeat (case_match; try done); intros [= <-];
    repeat match goal with H : decide _ = _ |- _ => clear H end;
    destruct_and?; subst.
  - by left.
  - by right.
Qed.

Lemma toy_digest_inj (b1 b2 : list Byte.byte) :
  toy_digest b1 = toy_digest b2 → b1 = b2.
Proof.
  unfold toy_digest. intros H.
  by rewrite <- (String.list_byte_of_string_of_list_byte b1), H,
    String.list_byte_of_string_of_list_byte.
Qed.

Lemma disk_key_separates_witness :
  let self := in_disk_cache (DummyStepForCache "step1" 5) ".cache" in
  InDiskCacheWrapper.hash_key exact_dumps toy_digest self [VInt 2] [] =
    Ok (toy_digest [Byte.x01; Byte.x02]) ∧
  apply_defaults (signature (InDiskCacheWrapper.step self)) [("x", VInt 2)] =
    apply_defaults (signature (InDiskCacheWrapper.step self)) [("x", VInt 2)] ∧
  __dict__ (InDiskCacheWrapper.step self) = __dict__ (InDiskCacheWrapper.step self).
Proof.
  intros self. split; [reflexivity|].
  apply (disk_key_separates exact_dumps toy_digest toy_digest_inj) with
    (args1 := [VInt 2]) (kwargs1 := []) (args2 := [VInt 2]) (kwargs2 := [])
    (k := toy_digest [Byte.x01; Byte.x02]); try reflexivity.
  - intros v1 v2 b [[-> ->]|[-> ->]]%exact_dumps_Some
      [[-> ?]|[-> ?]]%exact_dumps_Some; by simplify_eq.
  - intros v1 v2 b1 b2 t1 t2 [[_ ->]|[_ ->]]%exact_dumps_Some
      [[_ ->]|[_ ->]]%exact_dumps_Some; by intros [= ?].
Defined.

(** ** A run does not read the history *)

Section history.
Context (h h' : heap) (Hsame : same_but_stack h h').

Lemma get_artifact_same_but_stack (fuel : nat) (p : pid) (n : string)
    (default : value) (raise_not_found : bool) :
  get_artifact fuel h p n default raise_not_found =
  get_artifact fuel h' p n default raise_not_found.
Proof.
  revert p. induction fuel as [|fuel IH]; intros p; [done|]. simpl.
  destruct (Hsame p) as (_ & _ & -> & _ & Hpar). unfold parents. rewrite Hpar.
  destruct (ArtifactInMemory.get_artifact _ n default raise_not_found)
    as [v|[]|]; try done.
  apply for_parent_ext. intros q _. apply IH.
Qed.

Lemma fill_params_same_but_stack (fuel : nat) (self : pid)
    (step_params : list (string * Param)) (params : list (string * value)) :
  fill_params fuel h self step_params params =
  fill_params fuel h' self step_params params.
Proof.
  revert params. induction step_params as [|[n param] sp IH]; intros params;
    [done|].
  cbn [fill_params]. repeat case_bool_decide; try apply IH.
  destruct (param_default param) as [d|]; rewrite get_artifact_same_but_stack;
    (destruct (get_artifact fuel h' self n _ _) as [v|e|]; [apply IH|done..]).
Qed.
End history.

Lemma save_step_artifacts_same_but_stack (d : list (string * value))
    (h h' : heap) (self : pid) :
  same_but_stack h h' →
  same_but_stack (__save_step_artifacts h self d) (__save_step_artifacts h' self d).
Proof.
  revert h h'. induction d as [|[k v] d IH]; intros h h' Hsame; [done|].
  unfold __save_step_artifacts in *. cbn [foldl fst snd]. apply IH.
  intros q. rewrite !save_artifact_lookup. destruct (Hsame q) as (? & ? & ? & ? & ?).
  destruct (decide (self = q)) as [->|]; simpl; [|done].
  split_and!; congruence.
Qed.

Lemma run_steps_same_but_stack (fuel : nat) (self : pid)
    (todo : list PipelineStep) (h h' h1 : heap) (called : list PipelineStep)
    (r : result ()) :
  same_but_stack h h' →
  run_steps fuel h self todo = (h1, called, r) →
  ∃ h1', run_steps fuel h' self todo = (h1', called, r) ∧ same_but_stack h1 h1'.
Proof.
  revert h h' h1 called r.
  induction todo as [|step rest IH]; intros h h' h1 called r Hsame; simpl.
  - intros [= <- <- <-]. by exists h'.
  - unfold __fill_params_from_step.
    rewrite (fill_params_same_but_stack h h' Hsame).
    destruct (fill_params fuel h' self _ []) as [params|e|];
      [|intros [= <- <- <-]; by eexists..].
    destruct (execute step [] params ≫= items_to_save) as [d|e|];
      [|intros [= <- <- <-]; by eexists..].
    destruct (run_steps fuel (update (__save_step_artifacts h self d) _ _) self rest)
      as [[h3 called3] r3] eqn:E.
    intros [= <- <- <-].
    eapply IH in E as (h3' & -> & Hsame3); [by eexists|].
    intros q. rewrite !update_lookup.
    destruct (save_step_artifacts_same_but_stack d h h' self Hsame q)
      as (? & ? & ? & ? & ?).
    by destruct (decide (self = q)) as [->|].
Qed.

(** [run] never reads [_processed_stack]: on heaps that differ in the
    histories only it calls the same bodies, ends in the same way and
    leaves heaps that again differ in the histories only.  In particular a
    run after one that failed starts from the first step again, whatever
    was completed before. *)
Theorem run_ignores_history (fuel : nat) (h h' h1 : heap) (self : pid)
    (called : list PipelineStep) (r : result ()) :
  same_but_stack h h' →
  run fuel h self = (h1, called, r) →
  ∃ h1', run fuel h' self = (h1', called, r) ∧ same_but_stack h1 h1'.
Proof.
  intros Hsame. unfold run.
  destruct (Hsame self) as (_ & <- & _ & <- & _).
  destruct (finished (h !!! self)); [intros [= <- <- <-]; by exists h'|].
  destruct (run_steps fuel h self _) as [[h0 called0] r0] eqn:E.
  eapply run_steps_same_but_stack in E as (h0' & -> & Hsame0); [|done].
  destruct r0 as [[]|e|]; intros [= <- <- <-]; [|by eexists..].
  eexists. split; [done|]. intros q. rewrite !update_lookup.
  destruct (Hsame0 q) as (? & ? & ? & ? & ?).
  by destruct (decide (self = q)) as [->|].
Qed.

Lemma run_ignores_history_witness :
  let h' := update scenario_heap 0 (set_processed_stack [AddOne; FailingStep]) in
  ∃ h1', run 1 h' 0 = (h1', [AddOne], Ok ()) ∧
         same_but_stack (run 1 scenario_heap 0).1.1 h1'.
Proof.
  intros h'.
  apply (run_ignores_history 1 scenario_heap h' (run 1 scenario_heap 0).1.1 0
           [AddOne] (Ok ())); [|reflexivity].
  intros q. unfold h'. rewrite update_lookup.
  by destruct (decide (0 = q)) as [<-|].
Defined.

(** ** The order and the run of a composition *)

Lemma run_all_in_sequence (fuel : nat) (order : list pid) (h : heap) :
  in_sequence fuel h order (PipelineComposition.run_all fuel h order).
Proof.
  revert h. induction order as [|p order IH]; intros h; simpl; [constructor|].
  destruct (run fuel h p) as [[h1 called] r1] eqn:Hrun.
  destruct r1 as [[]|e|].
  - specialize (IH h1).
    destruct (PipelineComposition.run_all fuel h1 order) as [[h2 ran] r].
    by eapply in_sequence_next.
  - by eapply in_sequence_stop.
  - by eapply in_sequence_stop.
Qed.

Lemma run_all_others (fuel : nat) (order : list pid) (h h2 : heap)
    (ran : list pid) (r : result ()) :
  PipelineComposition.run_all fuel h order = (h2, ran, r) →
  ∀ q, q ∉ ran → h2 !!! q = h !!! q.
Proof.
  revert h h2 ran r. induction order as [|p order IH]; intros h h2 ran r; simpl.
  - by intros [= <- <- <-].
  - destruct (run fuel h p) as [[h1 called] r1] eqn:Hrun.
    apply run_others in Hrun as [Hother _].
    destruct r1 as [[]|e|].
    + destruct (PipelineComposition.run_all fuel h1 order) as [[h3 ran3] r3] eqn:E.
      intros [= <- <- <-] q [Hne Hq]%not_elem_of_cons.
      rewrite (IH _ _ _ _ E q Hq). by apply Hother.
    + intros [= <- <- <-] q [Hne _]%not_elem_of_cons. by apply Hother.
    + intros [= <- <- <-] q [Hne _]%not_elem_of_cons. by apply Hother.
Qed.

(** C5: for an adjacency without cycles, the order computed on the heap the
    construction leaves contains every referenced pipeline exactly once and
    puts every pipeline before all its transitive children; [run] is the
    run of the pipelines one after the other along that order: each
    [Pipeline.run] starts from the heap the one before has left, the first
    that raises ends the run with its exception, the pipelines after it
    are not touched, and when [run] returns normally every referenced
    pipeline has been run and is finished. *)
Theorem topological_order_correct (fuel : nat) (h : heap)
    (pipelines : list (nat * list nat)) (iteration : list pid) :
  NoDup pipelines.*1 →
  acyclic pipelines →
  (∀ p, p ∈ iteration ↔ p ∈ PipelineComposition.all_pipelines pipelines) →
  size (PipelineComposition.all_pipelines pipelines) < fuel →
  let h' := PipelineComposition.__init__ h pipelines in
  ∃ order,
    PipelineComposition._topological_sort fuel h' pipelines iteration = Ok order ∧
    NoDup order ∧
    (∀ p, p ∈ order ↔ p ∈ PipelineComposition.all_pipelines pipelines) ∧
    (∀ p c, tc (edge pipelines) p c → before order p c) ∧
    in_sequence fuel h' order
      (PipelineComposition.run fuel h' pipelines iteration) ∧
    (∀ h2 ran r,
       PipelineComposition.run fuel h' pipelines iteration = (h2, ran, r) →
       ran `prefix_of` order ∧
       (r = Ok () →
        ran = order ∧
        ∀ p, p ∈ PipelineComposition.all_pipelines pipelines →
             finished (h2 !!! p) = true) ∧
       (∀ q, q ∉ ran → h2 !!! q = h' !!! q)).
Proof.
  intros Hnd Hacyc Hiter Hfuel h'.
  destruct (topological_sort_from_roots fuel h' pipelines iteration)
    as (order & Hsort & Hnodup & Hmem & Hbefore); [done..| |].
  - intros x Hx Hroot. by apply root_parents.
  - exists order. split_and!; [done..| |].
    + unfold PipelineComposition.run. rewrite Hsort. apply run_all_in_sequence.
    + intros h2 ran r. unfold PipelineComposition.run. rewrite Hsort.
      intros Hrun. destruct (run_all_prefix _ _ _ _ _ _ Hrun) as [Hpre Hall].
      split_and!; [done| |by apply (run_all_others _ _ _ _ _ _ Hrun)].
      intros ->. split; [by apply Hall|]. intros p Hp.
      apply (run_all_finished _ _ _ _ _ Hrun). left. by apply Hmem.
Qed.

Lemma topological_order_correct_witness :
  let h' := PipelineComposition.__init__ family diamond in
  ∃ order,
    PipelineComposition._topological_sort 5 h' diamond [3; 2; 1; 0] = Ok order ∧
    NoDup order ∧
    (∀ p, p ∈ order ↔ p ∈ PipelineComposition.all_pipelines diamond) ∧
    (∀ p c, tc (edge diamond) p c → before order p c) ∧
    in_sequence 5 h' order (PipelineComposition.run 5 h' diamond [3; 2; 1; 0]) ∧
    (∀ h2 ran r,
       PipelineComposition.run 5 h' diamond [3; 2; 1; 0] = (h2, ran, r) →
       ran `prefix_of` order ∧
       (r = Ok () →
        ran = order ∧
        ∀ p, p ∈ PipelineComposition.all_pipelines diamond →
             finished (h2 !!! p) = true) ∧
       (∀ q, q ∉ ran → h2 !!! q = h' !!! q)).
Proof.
  apply (topological_order_correct 5 family diamond [3; 2; 1; 0]).
  - apply (bool_decide_unpack _). reflexivity.
  - apply (ranked_acyclic diamond id). repeat constructor.
  - intros p. unfold PipelineComposition.all_pipelines, diamond. simpl.
    set_solver.
  - vm_compute. lia.
Defined.

(** The run of the diamond over the family: the parent first, its child,
    which runs [DummyStep], second; all four pipelines are finished. *)
Example diamond_run :
  let h' := PipelineComposition.__init__ family diamond in
  let out := PipelineComposition.run 5 h' diamond [3; 2; 1; 0] in
  out.1.2 = [0; 2; 1; 3] ∧ out.2 = Ok () ∧
  artifacts (out.1.1 !!! 1) !! "result" = Some (VInt 42) ∧
  Forall (λ p, finished (out.1.1 !!! p) = true) [0; 1; 2; 3].
Proof. intros h' out. split_and!; [reflexivity..|]. repeat constructor. Qed.

(** ** Clearing a pipeline *)

Lemma fold_inverse_foldr (self : pid) (stack : list PipelineStep)
    (kwargs : list (string * value)) :
  fold_inverse self (reverse stack) kwargs =
    foldr (λ step acc, acc ≫= execute_inverse step self) (Ok kwargs) stack.
Proof.
  induction stack as [|s stack IH]; [done|].
  rewrite reverse_cons, fold_inverse_app, IH. simpl.
  destruct (foldr _ _ stack) as [r|e|]; [|done..]. simpl.
  by destruct (execute_inverse s self r).
Qed.

(** With the artifact manager in memory, [clear] empties the store and
    resets [finished] but keeps the history: [reverse_steps] (called
    without a keyword [self]) still applies the inverse of every step run
    before the [clear], the last one first, and a following [run] that
    ends normally has called all the steps and pushed them on top of the
    old history. *)
Theorem clear_keeps_history_in_memory (h : heap) (self : pid) :
  let h' := clear h self in
  artifacts (h' !!! self) = ∅ ∧
  finished (h' !!! self) = false ∧
  _processed_stack (h' !!! self) = _processed_stack (h !!! self) ∧
  (∀ kwargs, dict_get kwargs "self" = None →
     reverse_steps h' self kwargs =
       foldr (λ step acc, acc ≫= execute_inverse step self) (Ok kwargs)
         (_processed_stack (h !!! self))) ∧
  (∀ fuel h'' called, run fuel h' self = (h'', called, Ok ()) →
     called = steps (h !!! self) ∧
     _processed_stack (h'' !!! self) =
       _processed_stack (h !!! self) ++ steps (h !!! self)).
Proof.
  intros h'. subst h'. unfold clear.
  assert (∀ X, update h self X !!! self = X (h !!! self)) as Hup
    by (intros; apply update_lookup_eq).
  split_and!; rewrite ?Hup; try done.
  - intros kwargs Hself. unfold reverse_steps. rewrite Hup. simpl.
    destruct (bind_reverse_steps (VPipeline self) kwargs) as [Hok _].
    destruct (Hok Hself) as [bound ->]. simpl. apply fold_inverse_foldr.
  - intros fuel h'' called. unfold run. rewrite Hup. simpl.
    destruct (run_steps fuel _ self (steps (h !!! self)))
      as [[h1 called1] r] eqn:E.
    apply run_steps_frame in E as (_ & _ & completed & Hst & _ & _ & _ & Hok).
    destruct r as [[]|e|]; [|done..]. intros [= <- <-].
    destruct (Hok eq_refl) as [-> ->]. split; [done|].
    rewrite update_lookup_eq. simpl. by rewrite Hst, Hup.
Qed.

Lemma clear_keeps_history_in_memory_witness :
  let h : heap :=
    {[ 0 := {| name := "p"; steps := [Passing; Passing]; artifacts := ∅;
              finished := false; _parents := []; _processed_stack := [] |} ]} in
  let h1 := (run 1 h 0).1.1 in
  let h2 := (run 1 (clear h1 0) 0).1.1 in
  _processed_stack (clear h1 0 !!! 0) = [Passing; Passing] ∧
  reverse_steps (clear h1 0) 0 [("y", VInt 1)] = Ok [("y", VInt 1)] ∧
  _processed_stack (h2 !!! 0) = [Passing; Passing; Passing; Passing].
Proof.
  intros h h1 h2.
  destruct (clear_keeps_history_in_memory h1 0) as (_ & _ & Hstack & Hrev & Hagain).
  split; [exact Hstack|]. split.
  - by rewrite Hrev.
  - destruct (Hagain 1 h2 [Passing; Passing] eq_refl) as [_ Hst]. exact Hst.
Defined.

(** C10 at the failing input: a pipeline as [Pipeline("P", [DummyStep()])]
    makes it, with its artifacts on disk.  The first [run] saves [result]
    below [/tmp/P]; [clear] removes the file and the directory, resets
    [finished] and keeps the history; the following [run] calls the step
    again and raises when it saves, the directory being gone: the history
    is not extended and [finished] stays false.  When the directory holds a
    file the manager has not recorded, [clear] raises at [os.rmdir] and
    [finished] is not reset.  With the artifacts in memory the same calls
    end with the step twice in the history. *)
Theorem clear_on_disk_breaks_rerun :
  let p :=
    {| OnDisk.name := "P"; OnDisk.steps := [DummyStep];
       OnDisk.artifact_manager :=
         {| ArtifactInDisk.directory := "/tmp/P";
            ArtifactInDisk.artifacts := [] |};
       OnDisk.finished := false; OnDisk._parents := [];
       OnDisk._processed_stack := [] |} in
  let d0 : toy_fs := <[ "/tmp/P" := None ]> toy_tmp in
  let h0 : OnDisk.heap := {[ 0 := p ]} in
  let run_ := OnDisk.run toy_exists toy_dump_to toy_load_from 1 in
  let clear_ := OnDisk.clear toy_exists toy_remove toy_rmdir in
  let first := run_ h0 d0 0 in
  let cleared := clear_ first.1.1.1 first.1.1.2 0 in
  let second := run_ cleared.1.1 cleared.1.2 0 in
  let crowded := run_ h0 (<[ "/tmp/P/other" := Some VNone ]> d0) 0 in
  let stuck := clear_ crowded.1.1.1 crowded.1.1.2 0 in
  let in_memory := (run 1 dummy_heap 0).1.1 in
  OnDisk.__init__ toy_exists toy_makedirs "P" (Some [DummyStep]) toy_tmp
    = (d0, Ok p) ∧
  (first.2 = Ok () ∧
   first.1.1.2 !! "/tmp/P/result" = Some (Some (VInt 42)) ∧
   OnDisk.finished (first.1.1.1 !!! 0) = true ∧
   OnDisk._processed_stack (first.1.1.1 !!! 0) = [DummyStep]) ∧
  (cleared.2 = Ok () ∧
   cleared.1.2 = toy_tmp ∧
   ArtifactInDisk.artifacts (OnDisk.artifact_manager (cleared.1.1 !!! 0)) = [] ∧
   OnDisk.finished (cleared.1.1 !!! 0) = false ∧
   OnDisk._processed_stack (cleared.1.1 !!! 0) = [DummyStep] ∧
   OnDisk.reverse_steps cleared.1.1 0 [("y", VInt 1)] = Ok []) ∧
  (second.2 = Raise (toy_os_error "FileNotFoundError") ∧
   second.1.2 = [DummyStep] ∧
   OnDisk.finished (second.1.1.1 !!! 0) = false ∧
   OnDisk._processed_stack (second.1.1.1 !!! 0) = [DummyStep]) ∧
  (stuck.2 = Raise (toy_os_error "OSError: directory not empty") ∧
   OnDisk.finished (stuck.1.1 !!! 0) = true) ∧
  (run 1 (clear in_memory 0) 0).2 = Ok () ∧
  _processed_stack ((run 1 (clear in_memory 0) 0).1.1 !!! 0)
    = [DummyStep; DummyStep].
Proof.
  intros p d0 h0 run_ clear_ first cleared second crowded stuck in_memory.
  split_and!; by vm_compute.
Qed.
